(** * Email-Scheduler-GO: scheduler loop, dispatcher and worker pool

    A shallow embedding of [main.go].  The SQLite database is a record of
    three tables, each a list of rows in insertion order; every SQL statement
    the program issues is a function on that record.  A call of [db.Query],
    [db.Exec] or [QueryRow(..).Scan] can return an error: its outcome is an
    input supplied by the environment, and the program's reaction to it is
    the one written in the source (checked, or dropped with [_ =]).

    The goroutines (scheduler loop, one dispatcher per claimed job, the
    workers, the HTTP handlers) are put together in [Module System] as a
    step relation whose steps are the single database calls and the single
    channel operations of the source. *)

From Stdlib Require Import String Ascii ZArith List Bool Lia Arith.
From Stdlib Require Import Sorted Permutation.
Import ListNotations.

Local Open Scope string_scope.
Local Open Scope list_scope.

(** ** Tables (the schema of [initDB]) *)

Record Subscriber := mkSubscriber {
  sub_id : string;
  sub_email : string;
  sub_created_at : Z
}.

Record Job := mkJob {
  job_id : string;
  job_subject : string;
  job_body : string;
  job_scheduled_at : Z;
  job_status : string;
  job_created_at : Z;
  job_completed_at : option Z
}.

Record Send := mkSend {
  send_id : string;
  send_job_id : string;
  send_subscriber_id : string;
  send_email : string;
  send_status : string;
  send_attempts : Z;
  send_last_error : option string;
  send_created_at : Z;
  send_sent_at : option Z
}.

Record Store := mkStore {
  jobs : list Job;
  subscribers : list Subscriber;
  sends : list Send
}.

Definition with_jobs (db : Store) (js : list Job) : Store :=
  {| jobs := js; subscribers := subscribers db; sends := sends db |}.

Definition with_subscribers (db : Store) (ss : list Subscriber) : Store :=
  {| jobs := jobs db; subscribers := ss; sends := sends db |}.

Definition with_sends (db : Store) (ss : list Send) : Store :=
  {| jobs := jobs db; subscribers := subscribers db; sends := ss |}.

Definition empty_store : Store :=
  {| jobs := []; subscribers := []; sends := [] |}.

(** [type SendTask struct] *)
Record SendTask := mkSendTask {
  SendID : string;
  JobID : string;
  Email : string;
  Subject : string;
  Body : string
}.

(** [type JobReq struct] *)
Record JobReq := mkJobReq {
  req_subject : string;
  req_body : string;
  req_scheduled_at : string
}.

Definition workerCount : nat := 4.
Definition taskQueueSize : nat := 1000.

(** ** The SQL statements *)

(** A row of [SELECT id,subject,body FROM jobs ...]. *)
Record JobRow := mkJobRow {
  jr_id : string;
  jr_subject : string;
  jr_body : string
}.

(** A row of [SELECT id,email FROM subscribers]. *)
Record SubRow := mkSubRow {
  sr_id : string;
  sr_email : string
}.

Definition row_of_job (j : Job) : JobRow :=
  {| jr_id := job_id j; jr_subject := job_subject j; jr_body := job_body j |}.

Definition row_of_subscriber (s : Subscriber) : SubRow :=
  {| sr_id := sub_id s; sr_email := sub_email s |}.

(** [WHERE status = 'pending' AND scheduled_at <= now] *)
Definition is_due (now : Z) (j : Job) : bool :=
  (job_status j =? "pending") && (job_scheduled_at j <=? now)%Z.

(** [SELECT id,subject,body FROM jobs WHERE status = ? AND scheduled_at <= ?] *)
Definition select_due_jobs (now : Z) (db : Store) : list JobRow :=
  map row_of_job (filter (is_due now) (jobs db)).

Definition set_job_status (st : string) (j : Job) : Job :=
  {| job_id := job_id j; job_subject := job_subject j; job_body := job_body j;
     job_scheduled_at := job_scheduled_at j; job_status := st;
     job_created_at := job_created_at j;
     job_completed_at := job_completed_at j |}.

Definition set_job_done (st : string) (now : Z) (j : Job) : Job :=
  {| job_id := job_id j; job_subject := job_subject j; job_body := job_body j;
     job_scheduled_at := job_scheduled_at j; job_status := st;
     job_created_at := job_created_at j;
     job_completed_at := Some now |}.

(** [UPDATE <table> SET ... WHERE id = ?]: the rows whose key is [id] are
    rewritten by [f], all others are left as they are. *)
Definition update_where {A : Type} (key : A -> string) (id : string)
    (f : A -> A) (rows : list A) : list A :=
  map (fun r => if key r =? id then f r else r) rows.

(** The number of rows an [UPDATE ... WHERE id = ?] affects. *)
Definition rows_affected {A : Type} (key : A -> string) (id : string)
    (rows : list A) : nat :=
  length (filter (fun r => key r =? id) rows).

(** [UPDATE jobs SET status = ? WHERE id = ?] *)
Definition update_job_status (st id : string) (db : Store) : Store :=
  with_jobs db (update_where job_id id (set_job_status st) (jobs db)).

(** [UPDATE jobs SET status = ?, completed_at = ? WHERE id = ?] *)
Definition update_job_done (st : string) (now : Z) (id : string) (db : Store)
    : Store :=
  with_jobs db (update_where job_id id (set_job_done st now) (jobs db)).

(** [SELECT id,email FROM subscribers] *)
Definition select_subscribers (db : Store) : list SubRow :=
  map row_of_subscriber (subscribers db).

Definition has_key {A : Type} (key : A -> string) (id : string)
    (rows : list A) : bool :=
  existsb (fun r => key r =? id) rows.

(** [INSERT INTO sends(id,job_id,subscriber_id,email,status,created_at,attempts)
     VALUES(?,?,?,?,?,?,0)]; [id] is the primary key, so the insertion is
    refused when the key is taken.  [last_error] and [sent_at] are NULL. *)
Definition insert_send (id jobID sid email st : string) (now : Z) (db : Store)
    : option Store :=
  if has_key send_id id (sends db) then None
  else Some (with_sends db (sends db ++
         [{| send_id := id; send_job_id := jobID; send_subscriber_id := sid;
             send_email := email; send_status := st; send_attempts := 0%Z;
             send_last_error := None; send_created_at := now;
             send_sent_at := None |}])).

(** [INSERT INTO jobs(id,subject,body,scheduled_at,status,created_at)
     VALUES(?,?,?,?,?,?)]; [completed_at] is NULL. *)
Definition insert_job (id subject body : string) (ts : Z) (st : string)
    (now : Z) (db : Store) : option Store :=
  if has_key job_id id (jobs db) then None
  else Some (with_jobs db (jobs db ++
         [{| job_id := id; job_subject := subject; job_body := body;
             job_scheduled_at := ts; job_status := st; job_created_at := now;
             job_completed_at := None |}])).

(** [INSERT INTO subscribers(id,email,created_at) VALUES(?,?,?)]; [id] is the
    primary key and [email] is UNIQUE. *)
Definition insert_subscriber (id email : string) (now : Z) (db : Store)
    : option Store :=
  if has_key sub_id id (subscribers db) || has_key sub_email email (subscribers db)
  then None
  else Some (with_subscribers db (subscribers db ++
         [{| sub_id := id; sub_email := email; sub_created_at := now |}])).

Definition sends_of (jobID : string) (db : Store) : list Send :=
  filter (fun s => send_job_id s =? jobID) (sends db).

Definition is_unfinished (s : Send) : bool :=
  (send_status s =? "queued") || (send_status s =? "sending").

(** [SELECT COUNT(1) FROM sends WHERE job_id = ? AND status IN ('queued','sending')] *)
Definition count_unfinished (jobID : string) (db : Store) : nat :=
  length (filter is_unfinished (sends_of jobID db)).

(** [SELECT COUNT(1) FROM sends WHERE job_id = ? AND status = ?] *)
Definition count_status (jobID st : string) (db : Store) : nat :=
  length (filter (fun s => send_status s =? st) (sends_of jobID db)).

Definition set_send_sending (s : Send) : Send :=
  {| send_id := send_id s; send_job_id := send_job_id s;
     send_subscriber_id := send_subscriber_id s; send_email := send_email s;
     send_status := "sending"; send_attempts := (send_attempts s + 1)%Z;
     send_last_error := send_last_error s;
     send_created_at := send_created_at s; send_sent_at := send_sent_at s |}.

Definition set_send_failed (msg : string) (s : Send) : Send :=
  {| send_id := send_id s; send_job_id := send_job_id s;
     send_subscriber_id := send_subscriber_id s; send_email := send_email s;
     send_status := "failed"; send_attempts := send_attempts s;
     send_last_error := Some msg;
     send_created_at := send_created_at s; send_sent_at := send_sent_at s |}.

Definition set_send_sent (now : Z) (s : Send) : Send :=
  {| send_id := send_id s; send_job_id := send_job_id s;
     send_subscriber_id := send_subscriber_id s; send_email := send_email s;
     send_status := "sent"; send_attempts := send_attempts s;
     send_last_error := send_last_error s;
     send_created_at := send_created_at s; send_sent_at := Some now |}.

(** [UPDATE sends SET status = ?, attempts = attempts+1 WHERE id = ?] *)
Definition update_send_sending (id : string) (db : Store) : Store :=
  with_sends db (update_where send_id id set_send_sending (sends db)).

(** [UPDATE sends SET status = ?, last_error = ? WHERE id = ?] *)
Definition update_send_failed (msg id : string) (db : Store) : Store :=
  with_sends db (update_where send_id id (set_send_failed msg) (sends db)).

(** [UPDATE sends SET status = ?, sent_at = ? WHERE id = ?] *)
Definition update_send_sent (now : Z) (id : string) (db : Store) : Store :=
  with_sends db (update_where send_id id (set_send_sent now) (sends db)).

(** A [db.Exec] whose error the caller either checks or drops: when the call
    errs the statement has had no effect. *)
Definition exec (ok : bool) (stmt : Store -> Store) (db : Store) : Store :=
  if ok then stmt db else db.

(** Lookup of a row by key, for stating properties. *)
Definition find_job (id : string) (db : Store) : option Job :=
  find (fun j => job_id j =? id) (jobs db).

Definition find_send (id : string) (db : Store) : option Send :=
  find (fun s => send_id s =? id) (sends db).

Definition status_of_job (id : string) (db : Store) : option string :=
  option_map job_status (find_job id db).

Definition status_of_send (id : string) (db : Store) : option string :=
  option_map send_status (find_send id db).

(** ** [enqueueDueJobs] (one tick of [schedulerLoop]) *)

(** What the environment decides during one tick: the clock, whether the
    query errs, and for the row of each job whether [rows.Scan] and the
    UPDATE err. *)
Record TickEnv := mkTickEnv {
  te_now : Z;
  te_query_ok : bool;
  te_scan_ok : string -> bool;
  te_exec_ok : string -> bool
}.

(** The body of [for rows.Next()]: scan the row, mark the job running (the
    UPDATE is keyed on the id alone), and start [go dispatchJob(id, subject,
    body)]; a failed scan or a failed UPDATE skips the row. *)
Definition claim_row (scan_ok exec_ok : bool) (r : JobRow) (db : Store)
    : Store * option JobRow :=
  if scan_ok then
    if exec_ok then (update_job_status "running" (jr_id r) db, Some r)
    else (db, None)
  else (db, None).

Fixpoint claim_rows (e : TickEnv) (rows : list JobRow) (db : Store)
    : Store * list JobRow :=
  match rows with
  | [] => (db, [])
  | r :: rest =>
      let (db1, spawned) :=
        claim_row (te_scan_ok e (jr_id r)) (te_exec_ok e (jr_id r)) r db in
      let (db2, more) := claim_rows e rest db1 in
      (db2, match spawned with Some d => d :: more | None => more end)
  end.

(** The result is the store after the tick and the [dispatchJob] calls it
    started, in order. *)
Definition enqueueDueJobs (e : TickEnv) (db : Store) : Store * list JobRow :=
  if te_query_ok e then claim_rows e (select_due_jobs (te_now e) db) db
  else (db, []).

(** The rows a tick claims: those whose scan and UPDATE go through. *)
Definition claimable (e : TickEnv) (r : JobRow) : bool :=
  te_scan_ok e (jr_id r) && te_exec_ok e (jr_id r).

(** ** [dispatchJob] *)

(** What the environment decides for one subscriber row: whether
    [rows.Scan] errs, the value of [uuid.New()], the clock and whether the
    INSERT errs. *)
Record InsertEnv := mkInsertEnv {
  ie_scan_ok : bool;
  ie_uuid : string;
  ie_now : Z;
  ie_exec_ok : bool
}.

(** The subscriber query at the head of [dispatchJob]. *)
Definition enumerate (query_ok : bool) (db : Store) : option (list SubRow) :=
  if query_ok then Some (select_subscribers db) else None.

(** The error branch of the subscriber query: mark the job failed (the
    result of the UPDATE is dropped) and return. *)
Definition fail_job (now : Z) (exec_ok : bool) (jobID : string) (db : Store)
    : Store :=
  exec exec_ok (update_job_done "failed" now jobID) db.

(** The body of the first loop: one Send row and one task per subscriber; a
    row whose scan or INSERT fails is skipped. *)
Definition expand_row (e : InsertEnv) (jobID subject body : string)
    (r : SubRow) (db : Store) (tasks : list SendTask)
    : Store * list SendTask :=
  if ie_scan_ok e then
    if ie_exec_ok e then
      match insert_send (ie_uuid e) jobID (sr_id r) (sr_email r) "queued"
                        (ie_now e) db with
      | Some db' =>
          (db', tasks ++ [{| SendID := ie_uuid e; JobID := jobID;
                             Email := sr_email r; Subject := subject;
                             Body := body |}])
      | None => (db, tasks)
      end
    else (db, tasks)
  else (db, tasks).





(** One round of the polling loop: [remaining] is declared in the loop body,
    so a failed [Scan] leaves it 0. *)
Definition poll_remaining (query_ok : bool) (jobID : string) (db : Store)
    : nat :=
  if query_ok then count_unfinished jobID db else 0.

Definition count_failed (query_ok : bool) (jobID : string) (db : Store)
    : nat :=
  if query_ok then count_status jobID "failed" db else 0.

Definition final_status (failed : nat) : string :=
  if (0 <? failed)%nat then "completed_with_errors" else "completed".

(** The last UPDATE of [dispatchJob], from the count of failed Sends. *)
Definition finish_job (failed : nat) (now : Z) (exec_ok : bool)
    (jobID : string) (db : Store) : Store :=
  exec exec_ok (update_job_done (final_status failed) now jobID) db.


(** ** [doSend] and [worker] *)

(** The SMTP settings read by [os.Getenv] and the result of
    [smtp.SendMail] ([None] is a nil error, [Some msg] an error whose
    [Error()] is [msg]). *)
Record SmtpEnv := mkSmtpEnv {
  smtp_host : string;
  smtp_sendmail : option string
}.

Definition doSend (e : SmtpEnv) (t : SendTask) : option string :=
  if smtp_host e =? "" then None else smtp_sendmail e.

Record WorkEnv := mkWorkEnv {
  we_mark_ok : bool;
  we_smtp : SmtpEnv;
  we_now : Z;
  we_record_ok : bool
}.

(** [// mark sending] *)
Definition worker_mark (exec_ok : bool) (t : SendTask) (db : Store) : Store :=
  exec exec_ok (update_send_sending (SendID t)) db.

(** The UPDATE that follows [doSend]. *)
Definition worker_record (err : option string) (now : Z) (exec_ok : bool)
    (t : SendTask) (db : Store) : Store :=
  match err with
  | Some msg => exec exec_ok (update_send_failed msg (SendID t)) db
  | None => exec exec_ok (update_send_sent now (SendID t)) db
  end.

(** The body of [for t := range taskQ].  The second component is the log of
    the calls of [doSend]. *)
Definition worker_task (e : WorkEnv) (t : SendTask)
    (st : Store * list SendTask) : Store * list SendTask :=
  let (db, outbox) := st in
  let db1 := worker_mark (we_mark_ok e) t db in
  let err := doSend (we_smtp e) t in
  (worker_record err (we_now e) (we_record_ok e) t db1, outbox ++ [t]).

(** [worker] on the tasks it receives from the channel, in order. *)
Fixpoint worker (env : string -> WorkEnv) (tasks : list SendTask)
    (st : Store * list SendTask) : Store * list SendTask :=
  match tasks with
  | [] => st
  | t :: rest => worker env rest (worker_task (env (SendID t)) t st)
  end.

(** ** [scheduleJobHandler] *)

Definition is_digit (c : ascii) : bool :=
  (48 <=? nat_of_ascii c)%nat && (nat_of_ascii c <=? 57)%nat.

Fixpoint digits_value (acc : Z) (s : string) : option Z :=
  match s with
  | EmptyString => Some acc
  | String c rest =>
      if is_digit c
      then digits_value (10 * acc + (Z.of_nat (nat_of_ascii c) - 48))%Z rest
      else None
  end.

Definition minInt64 : Z := (- 2 ^ 63)%Z.
Definition maxInt64 : Z := (2 ^ 63 - 1)%Z.

(** [strconv.ParseInt(s, 10, 64)]: an optional sign, then one or more
    decimal digits; a value outside the 64-bit range is an error. *)
Definition ParseInt (s : string) : option Z :=
  match s with
  | EmptyString => None
  | String c rest =>
      let neg := Ascii.eqb c "-" in
      let digits := if Ascii.eqb c "+" || neg then rest else s in
      match digits with
      | EmptyString => None
      | _ =>
          match digits_value 0 digits with
          | None => None
          | Some v =>
              let n := if neg then (- v)%Z else v in
              if (minInt64 <=? n)%Z && (n <=? maxInt64)%Z then Some n else None
          end
      end
  end.

(** A decimal integer as C10 words it: an optional sign and one or more
    digits, of any length. *)
Definition is_decimal_integer (s : string) : bool :=
  match s with
  | EmptyString => false
  | String c rest =>
      let digits := if Ascii.eqb c "+" || Ascii.eqb c "-" then rest else s in
      match digits with
      | EmptyString => false
      | _ => match digits_value 0 digits with Some _ => true | None => false end
      end
  end.

(** The number a decimal integer stands for. *)
Definition decimal_value (s : string) : Z :=
  match s with
  | EmptyString => 0%Z
  | String c rest =>
      let digits := if Ascii.eqb c "+" || Ascii.eqb c "-" then rest else s in
      let v := match digits_value 0 digits with Some v => v | None => 0%Z end in
      if Ascii.eqb c "-" then (- v)%Z else v
  end.

Definition is_some {A : Type} (o : option A) : bool :=
  match o with Some _ => true | None => false end.

Inductive Response :=
  | HttpError (msg : string) (code : nat)
  | JsonCreated (id : string) (scheduled_at : Z).

(** What the environment decides during one request: the two readings of
    the clock, the value of [uuid.New()] and whether the INSERT errs. *)
Record ReqEnv := mkReqEnv {
  rq_now : Z;
  rq_uuid : string;
  rq_created : Z;
  rq_exec_ok : bool
}.

Section Handler.

(** The library calls of the handler: [json.NewDecoder(r.Body).Decode(&req)],
    [strings.TrimSpace], and [time.Parse(time.RFC3339, s)] followed by
    [Unix()]. *)
Variable decodeJobReq : string -> option JobReq.
Variable TrimSpace : string -> string.
Variable parseRFC3339 : string -> option Z.

Definition parse_scheduled_at (now : Z) (s : string) : option Z :=
  if s =? "" then Some now
  else match parseRFC3339 s with
       | Some t => Some t
       | None => ParseInt s
       end.

Definition scheduleJobHandler (e : ReqEnv) (request : string) (db : Store)
    : Store * Response :=
  match decodeJobReq request with
  | None => (db, HttpError "invalid json" 400)
  | Some req =>
      let subject := TrimSpace (req_subject req) in
      let body := TrimSpace (req_body req) in
      if (subject =? "") || (body =? "")
      then (db, HttpError "subject and body required" 400)
      else
        match parse_scheduled_at (rq_now e) (req_scheduled_at req) with
        | None => (db, HttpError "invalid scheduled_at" 400)
        | Some ts =>
            match (if rq_exec_ok e
                   then insert_job (rq_uuid e) subject body ts "pending"
                                   (rq_created e) db
                   else None) with
            | Some db' => (db', JsonCreated (rq_uuid e) ts)
            | None => (db, HttpError "db error" 500)
            end
        end
  end.

(** The request as C10 words it: valid JSON, subject and body non-empty
    after trimming, and [scheduled_at] empty, an RFC3339 timestamp, or a
    decimal integer. *)
Definition valid_request (request : string) : bool :=
  match decodeJobReq request with
  | None => false
  | Some req =>
      negb (TrimSpace (req_subject req) =? "") &&
      negb (TrimSpace (req_body req) =? "") &&
      ((req_scheduled_at req =? "") ||
       is_some (parseRFC3339 (req_scheduled_at req)) ||
       is_decimal_integer (req_scheduled_at req))
  end.

(** The request as the handler takes it: the integer has to fit 64 bits. *)
Definition well_formed_request (now : Z) (request : string) : bool :=
  match decodeJobReq request with
  | None => false
  | Some req =>
      negb (TrimSpace (req_subject req) =? "") &&
      negb (TrimSpace (req_body req) =? "") &&
      is_some (parse_scheduled_at now (req_scheduled_at req))
  end.

(** The job row the handler inserts for a request. *)
Definition job_for (e : ReqEnv) (req : JobReq) (ts : Z) : Job :=
  {| job_id := rq_uuid e; job_subject := TrimSpace (req_subject req);
     job_body := TrimSpace (req_body req); job_scheduled_at := ts;
     job_status := "pending"; job_created_at := rq_created e;
     job_completed_at := None |}.

End Handler.

(** ** The running system *)

Module System.

(** [enqueueDueJobs] is either not running or inside [for rows.Next()] with
    the rows still to come. *)
Inductive Sched :=
  | SIdle
  | SRows (rows : list JobRow).

(** Where a [dispatchJob] goroutine stands: before the subscriber query,
    in its error branch, in the first loop (rows to come, tasks built), in
    the second loop (tasks still to submit), in the polling loop, before
    the count of failed Sends, before the last UPDATE. *)
Inductive DPhase :=
  | DStart
  | DEnumFailed
  | DRows (rows : list SubRow) (tasks : list SendTask)
  | DSubmit (tasks : list SendTask)
  | DPoll
  | DCount
  | DUpdate (failed : nat).

(** A [dispatchJob(jobID, subject, body)] goroutine. *)
Record Dispatcher := mkDispatcher {
  d_job : string;
  d_subject : string;
  d_body : string;
  d_phase : DPhase
}.

(** A [worker] goroutine: blocked on the channel, holding a task it has not
    marked yet, or holding a marked task it is about to send. *)
Inductive Worker :=
  | WIdle
  | WMark (t : SendTask)
  | WSend (t : SendTask).

Record State := mkState {
  st_db : Store;
  st_clock : Z;
  st_sched : Sched;
  st_disp : list Dispatcher;
  st_queue : list SendTask;
  st_workers : list Worker;
  st_outbox : list SendTask
}.

Definition with_db (s : State) (db : Store) : State :=
  {| st_db := db; st_clock := st_clock s; st_sched := st_sched s;
     st_disp := st_disp s; st_queue := st_queue s;
     st_workers := st_workers s; st_outbox := st_outbox s |}.

Definition with_clock (s : State) (c : Z) : State :=
  {| st_db := st_db s; st_clock := c; st_sched := st_sched s;
     st_disp := st_disp s; st_queue := st_queue s;
     st_workers := st_workers s; st_outbox := st_outbox s |}.

Definition with_sched (s : State) (sc : Sched) : State :=
  {| st_db := st_db s; st_clock := st_clock s; st_sched := sc;
     st_disp := st_disp s; st_queue := st_queue s;
     st_workers := st_workers s; st_outbox := st_outbox s |}.

Definition with_disp (s : State) (ds : list Dispatcher) : State :=
  {| st_db := st_db s; st_clock := st_clock s; st_sched := st_sched s;
     st_disp := ds; st_queue := st_queue s;
     st_workers := st_workers s; st_outbox := st_outbox s |}.

Definition with_queue (s : State) (q : list SendTask) : State :=
  {| st_db := st_db s; st_clock := st_clock s; st_sched := st_sched s;
     st_disp := st_disp s; st_queue := q;
     st_workers := st_workers s; st_outbox := st_outbox s |}.

Definition with_workers (s : State) (ws : list Worker) : State :=
  {| st_db := st_db s; st_clock := st_clock s; st_sched := st_sched s;
     st_disp := st_disp s; st_queue := st_queue s;
     st_workers := ws; st_outbox := st_outbox s |}.

Definition with_outbox (s : State) (o : list SendTask) : State :=
  {| st_db := st_db s; st_clock := st_clock s; st_sched := st_sched s;
     st_disp := st_disp s; st_queue := st_queue s;
     st_workers := st_workers s; st_outbox := o |}.

Definition set_phase (d : Dispatcher) (p : DPhase) : Dispatcher :=
  {| d_job := d_job d; d_subject := d_subject d; d_body := d_body d;
     d_phase := p |}.

(** [go dispatchJob(id, subject, body)] *)
Definition spawn (r : option JobRow) : list Dispatcher :=
  match r with
  | Some r => [{| d_job := jr_id r; d_subject := jr_subject r;
                  d_body := jr_body r; d_phase := DStart |}]
  | None => []
  end.

(** The process after [main] has run on a new database, at time [t0]. *)
Definition init (t0 : Z) : State :=
  {| st_db := empty_store; st_clock := t0; st_sched := SIdle; st_disp := [];
     st_queue := []; st_workers := repeat WIdle workerCount;
     st_outbox := [] |}.

(** The process is stopped and [main] runs again on the database it left:
    no goroutine of the old process and nothing of its channel is left. *)
Definition restart (s : State) : State :=
  {| st_db := st_db s; st_clock := st_clock s; st_sched := SIdle;
     st_disp := []; st_queue := []; st_workers := repeat WIdle workerCount;
     st_outbox := st_outbox s |}.

(** One step is one database call or one channel operation of one
    goroutine, the passing of time, or the process being stopped and
    started again on the database it left. *)
Inductive step : State -> State -> Prop :=
  | step_time s d :
      (0 <= d)%Z ->
      step s (with_clock s (st_clock s + d))
  | step_restart s :
      step s (restart s)
  (* scheduleJobHandler: the INSERT of a validated request *)
  | step_schedule s id subject body ts db' :
      insert_job id subject body ts "pending" (st_clock s) (st_db s) = Some db' ->
      step s (with_db s db')
  (* uploadCSVHandler: the INSERT of one address *)
  | step_upload s id email db' :
      insert_subscriber id email (st_clock s) (st_db s) = Some db' ->
      step s (with_db s db')
  (* enqueueDueJobs *)
  | step_tick_query s (ok : bool) :
      st_sched s = SIdle ->
      step s (with_sched s
                (if ok then SRows (select_due_jobs (st_clock s) (st_db s))
                 else SIdle))
  | step_tick_row s r rest (scan_ok exec_ok : bool) db' spawned :
      st_sched s = SRows (r :: rest) ->
      claim_row scan_ok exec_ok r (st_db s) = (db', spawned) ->
      step s (with_disp (with_sched (with_db s db') (SRows rest))
                (st_disp s ++ spawn spawned))
  | step_tick_end s :
      st_sched s = SRows [] ->
      step s (with_sched s SIdle)
  (* dispatchJob *)
  | step_enum s ds1 d ds2 (ok : bool) :
      st_disp s = ds1 ++ d :: ds2 ->
      d_phase d = DStart ->
      step s (with_disp s
                (ds1 ++ set_phase d (match enumerate ok (st_db s) with
                                     | Some rows => DRows rows []
                                     | None => DEnumFailed
                                     end) :: ds2))
  | step_enum_failed s ds1 d ds2 (ok : bool) :
      st_disp s = ds1 ++ d :: ds2 ->
      d_phase d = DEnumFailed ->
      step s (with_disp
                (with_db s (fail_job (st_clock s) ok (d_job d) (st_db s)))
                (ds1 ++ ds2))
  | step_row s ds1 d ds2 r rest tasks (scan_ok : bool) id (exec_ok : bool) db' tasks' :
      st_disp s = ds1 ++ d :: ds2 ->
      d_phase d = DRows (r :: rest) tasks ->
      expand_row {| ie_scan_ok := scan_ok; ie_uuid := id;
                    ie_now := st_clock s; ie_exec_ok := exec_ok |}
                 (d_job d) (d_subject d) (d_body d) r (st_db s) tasks
        = (db', tasks') ->
      step s (with_disp (with_db s db')
                (ds1 ++ set_phase d (DRows rest tasks') :: ds2))
  | step_rows_end s ds1 d ds2 tasks :
      st_disp s = ds1 ++ d :: ds2 ->
      d_phase d = DRows [] tasks ->
      step s (with_disp s (ds1 ++ set_phase d (DSubmit tasks) :: ds2))
  | step_submit s ds1 d ds2 t rest :
      st_disp s = ds1 ++ d :: ds2 ->
      d_phase d = DSubmit (t :: rest) ->
      length (st_queue s) < taskQueueSize ->
      step s (with_queue
                (with_disp s (ds1 ++ set_phase d (DSubmit rest) :: ds2))
                (st_queue s ++ [t]))
  | step_submit_end s ds1 d ds2 :
      st_disp s = ds1 ++ d :: ds2 ->
      d_phase d = DSubmit [] ->
      step s (with_disp s (ds1 ++ set_phase d DPoll :: ds2))
  | step_poll s ds1 d ds2 (ok : bool) :
      st_disp s = ds1 ++ d :: ds2 ->
      d_phase d = DPoll ->
      step s (with_disp s
                (ds1 ++ set_phase d
                          (if (poll_remaining ok (d_job d) (st_db s) =? 0)%nat
                           then DCount else DPoll) :: ds2))
  | step_count s ds1 d ds2 (ok : bool) :
      st_disp s = ds1 ++ d :: ds2 ->
      d_phase d = DCount ->
      step s (with_disp s
                (ds1 ++ set_phase d
                          (DUpdate (count_failed ok (d_job d) (st_db s)))
                     :: ds2))
  | step_update s ds1 d ds2 failed (ok : bool) :
      st_disp s = ds1 ++ d :: ds2 ->
      d_phase d = DUpdate failed ->
      step s (with_disp
                (with_db s (finish_job failed (st_clock s) ok (d_job d)
                              (st_db s)))
                (ds1 ++ ds2))
  (* worker *)
  | step_recv s ws1 ws2 t q :
      st_workers s = ws1 ++ WIdle :: ws2 ->
      st_queue s = t :: q ->
      step s (with_queue (with_workers s (ws1 ++ WMark t :: ws2)) q)
  | step_mark s ws1 ws2 t (ok : bool) :
      st_workers s = ws1 ++ WMark t :: ws2 ->
      step s (with_workers (with_db s (worker_mark ok t (st_db s)))
                (ws1 ++ WSend t :: ws2))
  | step_send s ws1 ws2 t smtp (ok : bool) :
      st_workers s = ws1 ++ WSend t :: ws2 ->
      step s (with_outbox
                (with_workers
                   (with_db s (worker_record (doSend smtp t) (st_clock s) ok
                                 t (st_db s)))
                   (ws1 ++ WIdle :: ws2))
                (st_outbox s ++ [t])).

Inductive reachable : State -> Prop :=
  | reach_init t0 : reachable (init t0)
  | reach_step s s' : reachable s -> step s s' -> reachable s'.

(** [s'] is reached from [s] in zero or more steps. *)
Inductive steps : State -> State -> Prop :=
  | steps_refl s : steps s s
  | steps_next s s' s'' : steps s s' -> step s' s'' -> steps s s''.

(** A run: the states the system goes through, one step apart. *)
Inductive run : list State -> Prop :=
  | run_one s : run [s]
  | run_cons s s' rest : step s s' -> run (s' :: rest) -> run (s :: s' :: rest).

(** *** Statuses *)

Definition valid_job_status (st : string) : Prop :=
  st = "pending" \/ st = "running" \/ st = "completed" \/
  st = "completed_with_errors" \/ st = "failed".

Definition terminal_job_status (st : string) : Prop :=
  st = "completed" \/ st = "completed_with_errors" \/ st = "failed".

(** The edges of [pending -> running -> {completed, completed_with_errors,
    failed}]. *)
Definition job_edge (a b : string) : Prop :=
  (a = "pending" /\ b = "running") \/
  (a = "running" /\ terminal_job_status b).

Definition terminal_send_status (st : string) : Prop :=
  st = "sent" \/ st = "failed".

(** The job [id] is running after the step from [s] to [s'] and was not
    before it. *)
Definition enters_running (id : string) (s s' : State) : bool :=
  negb (match status_of_job id (st_db s) with
        | Some st => st =? "running"
        | None => false
        end)
  && match status_of_job id (st_db s') with
     | Some st => st =? "running"
     | None => false
     end.

(** The number of times the job [id] enters running along a run. *)
Fixpoint count_claims (id : string) (tr : list State) : nat :=
  match tr with
  | s :: ((s' :: _) as rest) =>
      (if enters_running id s s' then 1 else 0) + count_claims id rest
  | _ => 0
  end.

(** *** Invariants *)

(** The tasks a dispatcher has built and not yet put on the channel. *)
Definition phase_tasks (p : DPhase) : list SendTask :=
  match p with
  | DRows _ tasks => tasks
  | DSubmit tasks => tasks
  | _ => []
  end.

Definition worker_tasks (w : Worker) : list SendTask :=
  match w with
  | WIdle => []
  | WMark t => [t]
  | WSend t => [t]
  end.

(** The ids of the Sends some goroutine or the channel holds a task for. *)
Definition held (s : State) : list string :=
  map SendID (flat_map (fun d => phase_tasks (d_phase d)) (st_disp s)
              ++ st_queue s
              ++ flat_map worker_tasks (st_workers s)).

(** Occurrences of [id] in a list of ids. *)
Definition one (id x : string) : nat := if string_dec x id then 1 else 0.

Definition cnt (id : string) (l : list string) : nat :=
  count_occ string_dec l id.

Record jobs_inv (s : State) : Prop := {
  ji_nodup : NoDup (map job_id (jobs (st_db s)));
  ji_valid : forall j, In j (jobs (st_db s)) -> valid_job_status (job_status j);
  ji_rows_nodup : forall rows, st_sched s = SRows rows -> NoDup (map jr_id rows);
  ji_rows : forall rows r, st_sched s = SRows rows -> In r rows ->
      exists j, find_job (jr_id r) (st_db s) = Some j /\
                job_status j = "pending" /\
                (job_scheduled_at j <= st_clock s)%Z;
  ji_disp : forall id, In id (map d_job (st_disp s)) ->
      status_of_job id (st_db s) = Some "running";
  ji_disp_nodup : NoDup (map d_job (st_disp s))
}.

Record sends_inv (s : State) : Prop := {
  si_nodup : NoDup (map send_id (sends (st_db s)));
  si_held_nodup : NoDup (held s);
  si_held : forall id, In id (held s) ->
      status_of_send id (st_db s) = Some "queued" \/
      status_of_send id (st_db s) = Some "sending"
}.

(** The dispatcher of [id] is past its first loop: the job has been claimed
    and no [dispatchJob] for it is before or inside the loop that creates
    Sends. *)
Definition expanded (id : string) (s : State) : Prop :=
  (exists st, status_of_job id (st_db s) = Some st /\ st <> "pending") /\
  forall d, In d (st_disp s) -> d_job d = id ->
    match d_phase d with
    | DStart | DRows _ _ => False
    | _ => True
    end.

(** The ids of the Sends of one job, in the order of their insertion. *)
Definition send_ids_of (jobID : string) (db : Store) : list string :=
  map send_id (sends_of jobID db).

(** What the Sends of its job are while a dispatcher is in a phase: none
    before the first loop and in the error branch, one per task built so far
    inside the first loop. *)
Definition phase_ok (p : DPhase) (ids : list string) : Prop :=
  match p with
  | DStart | DEnumFailed => ids = []
  | DRows _ tasks => ids = map SendID tasks
  | _ => True
  end.

Record expand_inv (s : State) : Prop := {
  ei_pending : forall id,
      status_of_job id (st_db s) = None \/
      status_of_job id (st_db s) = Some "pending" ->
      send_ids_of id (st_db s) = [];
  ei_disp : forall d, In d (st_disp s) ->
      phase_ok (d_phase d) (send_ids_of (d_job d) (st_db s))
}.

End System.

Import System.

(** ** A run of the system

    One subscriber, one job due at once: the job is claimed, expanded into
    one Send, the Send is delivered by the mock transport and the job is
    finalized.  A second branch has the subscriber query fail. *)

Definition demo_row : JobRow :=
  {| jr_id := "j1"; jr_subject := "Hello"; jr_body := "World" |}.

Definition demo_sub : SubRow := {| sr_id := "u1"; sr_email := "a@example.com" |}.

Definition demo_task : SendTask :=
  {| SendID := "s1"; JobID := "j1"; Email := "a@example.com";
     Subject := "Hello"; Body := "World" |}.

Definition demo_d (p : DPhase) : Dispatcher :=
  {| d_job := "j1"; d_subject := "Hello"; d_body := "World"; d_phase := p |}.

Definition demo_mock : SmtpEnv := {| smtp_host := ""; smtp_sendmail := None |}.

Definition demo_db1 : Store :=
  with_subscribers empty_store
    [{| sub_id := "u1"; sub_email := "a@example.com"; sub_created_at := 100 |}].

Definition demo_db2 : Store :=
  with_jobs demo_db1
    [{| job_id := "j1"; job_subject := "Hello"; job_body := "World";
        job_scheduled_at := 100; job_status := "pending";
        job_created_at := 100; job_completed_at := None |}].

Definition demo_db4 : Store := update_job_status "running" "j1" demo_db2.

Definition demo_db7 : Store :=
  with_sends demo_db4
    [{| send_id := "s1"; send_job_id := "j1"; send_subscriber_id := "u1";
        send_email := "a@example.com"; send_status := "queued";
        send_attempts := 0; send_last_error := None; send_created_at := 100;
        send_sent_at := None |}].

Definition demo_s0 : State := init 100.
Definition demo_s1 : State := with_db demo_s0 demo_db1.
Definition demo_s2 : State := with_db demo_s1 demo_db2.
Definition demo_s3 : State := with_sched demo_s2 (SRows [demo_row]).
Definition demo_s4 : State :=
  with_disp (with_sched (with_db demo_s3 demo_db4) (SRows []))
    [demo_d DStart].
Definition demo_s5 : State := with_sched demo_s4 SIdle.
Definition demo_s6 : State := with_disp demo_s5 [demo_d (DRows [demo_sub] [])].
Definition demo_s7 : State :=
  with_disp (with_db demo_s6 demo_db7) [demo_d (DRows [] [demo_task])].
Definition demo_s8 : State := with_disp demo_s7 [demo_d (DSubmit [demo_task])].
Definition demo_s9 : State :=
  with_queue (with_disp demo_s8 [demo_d (DSubmit [])]) [demo_task].
Definition demo_s10 : State := with_disp demo_s9 [demo_d DPoll].
Definition demo_s11 : State :=
  with_queue (with_workers demo_s10 [WMark demo_task; WIdle; WIdle; WIdle]) [].
Definition demo_s12 : State :=
  with_workers
    (with_db demo_s11 (worker_mark true demo_task (st_db demo_s11)))
    [WSend demo_task; WIdle; WIdle; WIdle].
Definition demo_s13 : State :=
  with_outbox
    (with_workers
       (with_db demo_s12
          (worker_record (doSend demo_mock demo_task) 100 true demo_task
             (st_db demo_s12)))
       [WIdle; WIdle; WIdle; WIdle])
    [demo_task].
Definition demo_s14 : State := with_disp demo_s13 [demo_d DCount].
Definition demo_s15 : State := with_disp demo_s14 [demo_d (DUpdate 0)].
Definition demo_s16 : State :=
  with_disp (with_db demo_s15 (finish_job 0 100 true "j1" (st_db demo_s15))) [].

(** ** Two requests to [/schedule]

    The JSON texts [{"subject":"Hello","body":"World","scheduled_at":S}] with
    [S] the decimal integer 2^63 and with [S] empty, and the values the
    library calls of the handler have on them: the decoder yields the three
    fields, neither subject nor body has white space to trim, and neither
    [scheduled_at] is an RFC3339 timestamp. *)

Definition dq : string := String (ascii_of_nat 34) EmptyString.

Definition json_field (k v : string) : string :=
  String.append dq (String.append k (String.append dq
    (String.append ":" (String.append dq (String.append v dq))))).

Definition json_request (scheduled_at : string) : string :=
  String.append "{" (String.append (json_field "subject" "Hello")
    (String.append "," (String.append (json_field "body" "World")
      (String.append "," (String.append
        (json_field "scheduled_at" scheduled_at) "}"))))).

Definition demo_request_big : string := json_request "9223372036854775808".
Definition demo_request_now : string := json_request "".

Definition demo_decode (request : string) : option JobReq :=
  if request =? demo_request_big
  then Some {| req_subject := "Hello"; req_body := "World";
               req_scheduled_at := "9223372036854775808" |}
  else if request =? demo_request_now
  then Some {| req_subject := "Hello"; req_body := "World";
               req_scheduled_at := "" |}
  else None.

Definition demo_trim (s : string) : string := s.

Definition demo_rfc3339 (s : string) : option Z := None.

Definition demo_req_env (exec_ok : bool) : ReqEnv :=
  {| rq_now := 100; rq_uuid := "j1"; rq_created := 100;
     rq_exec_ok := exec_ok |}.

(** The branch in which the subscriber query fails. *)
Definition demo_f6 : State := with_disp demo_s5 [demo_d DEnumFailed].
Definition demo_f7 : State :=
  with_disp (with_db demo_f6 (fail_job 100 true "j1" (st_db demo_f6))) [].

Definition demo_trace : list State :=
  [demo_s0; demo_s1; demo_s2; demo_s3; demo_s4; demo_s5; demo_s6; demo_s7;
   demo_s8; demo_s9; demo_s10; demo_s11; demo_s12; demo_s13; demo_s14;
   demo_s15; demo_s16].

(** ** [buildMessage] *)

Definition CR : ascii := ascii_of_nat 13.
Definition LF : ascii := ascii_of_nat 10.

Definition crlf : string := String CR (String LF EmptyString).

(** The header lines that do not depend on the arguments. *)
Definition mime_lines : string :=
  String.append "MIME-Version: 1.0"
    (String.append crlf
       (String.append "Content-Type: text/plain; charset="
          (String.append dq (String.append "utf-8" (String.append dq crlf))))).

(** [buildMessage]: the [Sprintf]s of the three headers, the two constant
    lines, the empty line and the body, in the order of the
    [WriteString]s. *)
Definition buildMessage (from to subject body : string) : string :=
  String.append "From: " (String.append from (String.append crlf
    (String.append "To: " (String.append to (String.append crlf
      (String.append "Subject: " (String.append subject (String.append crlf
        (String.append mime_lines (String.append crlf body)))))))))).

(** How a reader of the message finds its body: the text after the first
    empty line, that is after the first CR LF CR LF. *)
Fixpoint after_blank_line (s : string) : option string :=
  match s with
  | EmptyString => None
  | String c rest =>
      if Ascii.eqb c CR
      then match rest with
           | String c2 (String c3 (String c4 rest')) =>
               if Ascii.eqb c2 LF && Ascii.eqb c3 CR && Ascii.eqb c4 LF
               then Some rest'
               else after_blank_line rest
           | _ => after_blank_line rest
           end
      else after_blank_line rest
  end.

(** No carriage return occurs in the string. *)
Fixpoint no_cr (s : string) : bool :=
  match s with
  | EmptyString => true
  | String c rest => negb (Ascii.eqb c CR) && no_cr rest
  end.

(** ** What [worker] does to the Send of one task *)

(** The row after the two UPDATEs of the loop body, for either outcome of
    each UPDATE. *)
Definition task_effect (e : WorkEnv) (t : SendTask) (x : Send) : Send :=
  let y := if we_mark_ok e then set_send_sending x else x in
  if we_record_ok e
  then match doSend (we_smtp e) t with
       | Some msg => set_send_failed msg y
       | None => set_send_sent (we_now e) y
       end
  else y.

(** ** [uploadCSVHandler] *)

(** What one [reader.Read()] returns before [io.EOF]: an error, on which
    the loop goes on, or a record. *)
Inductive CsvRead :=
  | ReadError
  | ReadRecord (rec : list string).

(** What the environment decides in one round of the loop: the value of
    [uuid.New()], the clock and whether the INSERT errs. *)
Record UploadEnv := mkUploadEnv {
  up_uuid : string;
  up_now : Z;
  up_exec_ok : bool
}.

(** The request as the handler sees it: [ParseMultipartForm] fails,
    [FormFile("file")] fails, or the file is read, round by round, until
    [io.EOF]. *)
Inductive UploadForm :=
  | FormInvalid
  | FormNoFile
  | FormFile (reads : list (CsvRead * UploadEnv)).

Inductive UploadResponse :=
  | UploadError (msg : string) (code : nat)
  | UploadAdded (added : nat).

Section Upload.

(** [strings.TrimSpace] *)
Variable TrimSpace : string -> string.

(** The address the loop takes from what [reader.Read()] returned, if it
    takes one. *)
Definition address_of (rd : CsvRead) : option string :=
  match rd with
  | ReadError => None
  | ReadRecord [] => None
  | ReadRecord (first :: _) =>
      if TrimSpace first =? "" then None else Some (TrimSpace first)
  end.

(** One round of the loop of [uploadCSVHandler]. *)
Definition upload_round (rd : CsvRead) (e : UploadEnv) (st : Store * nat)
    : Store * nat :=
  match rd with
  | ReadError => st
  | ReadRecord [] => st
  | ReadRecord (first :: _) =>
      let email := TrimSpace first in
      if email =? "" then st
      else if up_exec_ok e
      then match insert_subscriber (up_uuid e) email (up_now e) (fst st) with
           | Some db' => (db', S (snd st))
           | None => st
           end
      else st
  end.

Fixpoint upload_rounds (reads : list (CsvRead * UploadEnv))
    (st : Store * nat) : Store * nat :=
  match reads with
  | [] => st
  | (rd, e) :: rest => upload_rounds rest (upload_round rd e st)
  end.

Definition uploadCSVHandler (form : UploadForm) (db : Store)
    : Store * UploadResponse :=
  match form with
  | FormInvalid => (db, UploadError "file too large or invalid form" 400)
  | FormNoFile => (db, UploadError "file required" 400)
  | FormFile reads =>
      (fst (upload_rounds reads (db, 0)),
       UploadAdded (snd (upload_rounds reads (db, 0))))
  end.

(** Every address of the file is stored once the loop is over: in each
    round the address, if there is one, is a subscriber's already or its
    INSERT goes through. *)
Fixpoint all_stored (reads : list (CsvRead * UploadEnv)) (db : Store) : bool :=
  match reads with
  | [] => true
  | (rd, e) :: rest =>
      match address_of rd with
      | None => all_stored rest db
      | Some email =>
          if has_key sub_email email (subscribers db)
          then all_stored rest (fst (upload_round rd e (db, 0)))
          else up_exec_ok e
               && negb (has_key sub_id (up_uuid e) (subscribers db))
               && all_stored rest (fst (upload_round rd e (db, 0)))
      end
  end.

End Upload.

(** ** The example: a CSV file

    Two records with the same address, a read error and a record whose
    first field is empty. *)
Definition demo_reads : list (CsvRead * UploadEnv) :=
  [(ReadRecord ["a@example.com"],
    {| up_uuid := "u1"; up_now := 100; up_exec_ok := true |});
   (ReadRecord ["a@example.com"; "again"],
    {| up_uuid := "u2"; up_now := 100; up_exec_ok := true |});
   (ReadError, {| up_uuid := "u3"; up_now := 100; up_exec_ok := true |});
   (ReadRecord [""], {| up_uuid := "u4"; up_now := 100; up_exec_ok := true |})].

(** ** [listJobsHandler] *)

(** [type jobResp struct]; [CompletedAt] is a nil pointer for NULL. *)
Record JobResp := mkJobResp {
  resp_id : string;
  resp_subject : string;
  resp_body : string;
  resp_scheduled_at : Z;
  resp_status : string;
  resp_created_at : Z;
  resp_completed_at : option Z
}.

(** [rows.Scan] into a [jobResp]. *)
Definition resp_of_job (j : Job) : JobResp :=
  {| resp_id := job_id j; resp_subject := job_subject j;
     resp_body := job_body j; resp_scheduled_at := job_scheduled_at j;
     resp_status := job_status j; resp_created_at := job_created_at j;
     resp_completed_at := job_completed_at j |}.

(** [ORDER BY created_at DESC]: the rows are sorted by [created_at], newest
    first, and rows of equal [created_at] keep the order of the table (their
    order of insertion).  A row is put in front of the first row that is not
    newer than it. *)
Fixpoint insert_desc (j : Job) (l : list Job) : list Job :=
  match l with
  | [] => [j]
  | x :: rest =>
      if (job_created_at x <=? job_created_at j)%Z then j :: l
      else x :: insert_desc j rest
  end.

Definition order_by_created_desc (l : list Job) : list Job :=
  fold_right insert_desc [] l.

(** [SELECT id,subject,body,scheduled_at,status,created_at,completed_at
     FROM jobs ORDER BY created_at DESC] *)
Definition select_jobs (db : Store) : list Job :=
  order_by_created_desc (jobs db).

(** [out = append(out, j)] on a slice that is nil ([None]) or not. *)
Definition append_resp (out : option (list JobResp)) (r : JobResp)
    : option (list JobResp) :=
  match out with
  | None => Some [r]
  | Some l => Some (l ++ [r])
  end.

(** The loop [for rows.Next()]: a row whose scan fails is left out. *)
Fixpoint scan_jobs (scan_ok : string -> bool) (rows : list Job)
    (out : option (list JobResp)) : option (list JobResp) :=
  match rows with
  | [] => out
  | j :: rest =>
      scan_jobs scan_ok rest
        (if scan_ok (job_id j) then append_resp out (resp_of_job j) else out)
  end.

(** The response: an error, or the slice handed to the JSON encoder. *)
Inductive ListResponse :=
  | ListError (msg : string) (code : nat)
  | ListJobs (out : option (list JobResp)).

Definition listJobsHandler (query_ok : bool) (scan_ok : string -> bool)
    (db : Store) : ListResponse :=
  if query_ok then ListJobs (scan_jobs scan_ok (select_jobs db) None)
  else ListError "db error" 500.

(** The entries of a response. *)
Definition listed (r : ListResponse) : list JobResp :=
  match r with
  | ListJobs (Some l) => l
  | _ => []
  end.

Definition created_ge (a b : Job) : Prop :=
  (job_created_at b <= job_created_at a)%Z.

Definition newer_first (a b : JobResp) : Prop :=
  (resp_created_at b <= resp_created_at a)%Z.

(** ** [schedulerLoop] *)

(** [for range ticker.C { enqueueDueJobs() }] on the ticks that have come so
    far: the store after them and the [dispatchJob] calls started, in
    order. *)
Fixpoint schedulerLoop (ticks : list TickEnv) (db : Store)
    : Store * list JobRow :=
  match ticks with
  | [] => (db, [])
  | e :: rest =>
      (fst (schedulerLoop rest (fst (enqueueDueJobs e db))),
       snd (enqueueDueJobs e db)
       ++ snd (schedulerLoop rest (fst (enqueueDueJobs e db))))
  end.

(** The tick does not get to claim the job [id] of due time [due]: it comes
    too early, or its query, or the scan or the UPDATE of the job's row,
    returns an error. *)
Definition tick_misses (id : string) (due : Z) (e : TickEnv) : bool :=
  (te_now e <? due)%Z || negb (te_query_ok e) || negb (te_scan_ok e id)
  || negb (te_exec_ok e id).

(** ** The example: three ticks

    One before the due time of the job "j1", one whose UPDATE returns an
    error, one that goes through. *)
Definition demo_job : Job :=
  {| job_id := "j1"; job_subject := "Hello"; job_body := "World";
     job_scheduled_at := 100; job_status := "pending"; job_created_at := 100;
     job_completed_at := None |}.

Definition demo_tick (now : Z) (exec_ok : bool) : TickEnv :=
  {| te_now := now; te_query_ok := true; te_scan_ok := fun _ => true;
     te_exec_ok := fun _ => exec_ok |}.

(** ** Well-formed rows *)

(** A job row: without a completion time it is pending or running; with
    one it is completed, completed_with_errors or failed. *)
Definition job_shape (j : Job) : Prop :=
  match job_completed_at j with
  | None => job_status j = "pending" \/ job_status j = "running"
  | Some _ => System.terminal_job_status (job_status j)
  end.

(** A Send row: queued and never tried; sending after one try; sent, with
    the time it was sent and no error; or failed, with the error and no
    sent time; tried once at most. *)
Definition send_wf (x : Send) : Prop :=
  (send_status x = "queued" /\ send_attempts x = 0%Z /\
   send_sent_at x = None /\ send_last_error x = None)
  \/ (send_status x = "sending" /\ send_attempts x = 1%Z /\
      send_sent_at x = None /\ send_last_error x = None)
  \/ (send_status x = "sent" /\ (0 <= send_attempts x <= 1)%Z /\
      send_sent_at x <> None /\ send_last_error x = None)
  \/ (send_status x = "failed" /\ (0 <= send_attempts x <= 1)%Z /\
      send_sent_at x = None /\ send_last_error x <> None).

(** The tasks of the workers that have not marked them yet, and of those
    that have. *)
Definition wmark_tasks (w : System.Worker) : list SendTask :=
  match w with
  | System.WMark t => [t]
  | _ => []
  end.

Definition wsend_tasks (w : System.Worker) : list SendTask :=
  match w with
  | System.WSend t => [t]
  | _ => []
  end.

(** The ids of the Sends whose task has not reached the first UPDATE of a
    worker: the task is with its dispatcher, on the channel, or with a
    worker that has just received it. *)
Definition unmarked (s : System.State) : list string :=
  map SendID (flat_map (fun d => System.phase_tasks (System.d_phase d))
                (System.st_disp s)
              ++ System.st_queue s
              ++ flat_map wmark_tasks (System.st_workers s)).

Definition marked (s : System.State) : list string :=
  map SendID (flat_map wsend_tasks (System.st_workers s)).

Record send_rows_inv (s : State) : Prop := {
  sr_unmarked : forall id, In id (unmarked s) ->
      status_of_send id (st_db s) = Some "queued";
  sr_wf : forall x, In x (sends (st_db s)) -> send_wf x
}.

(** The calls of [doSend] so far and the tasks still to be delivered: no
    Send has two of them; every call was for a Send of the store; a Send
    that is sent or failed has had its call. *)
Record delivery_inv (s : System.State) : Prop := {
  dl_once : forall i,
      System.cnt i (map SendID (System.st_outbox s))
      + System.cnt i (System.held s) <= 1;
  dl_exists : forall t, In t (System.st_outbox s) ->
      status_of_send (SendID t) (System.st_db s) <> None;
  dl_terminal : forall id st,
      status_of_send id (System.st_db s) = Some st ->
      System.terminal_send_status st ->
      In id (map SendID (System.st_outbox s))
}.

(** The rows a dispatcher in its first loop still has to go through are
    rows of the subscribers table. *)
Definition rows_known (db : Store) (p : DPhase) : Prop :=
  match p with
  | DRows rows _ => incl rows (select_subscribers db)
  | _ => True
  end.

(** What the Sends refer to: a failed job has none; the rows in the hands of
    the dispatchers are subscribers; every Send is for a subscriber. *)
Record refs_inv (s : State) : Prop := {
  rf_failed : forall id,
      status_of_job id (st_db s) = Some "failed" ->
      send_ids_of id (st_db s) = [];
  rf_rows : forall d, In d (st_disp s) -> rows_known (st_db s) (d_phase d);
  rf_sub : forall x, In x (sends (st_db s)) ->
      In {| sr_id := send_subscriber_id x; sr_email := send_email x |}
         (select_subscribers (st_db s))
}.

(** Every task there is: with a dispatcher, on the channel, with a worker,
    or handed to [doSend]. *)
Definition tasks_of (s : State) : list SendTask :=
  flat_map (fun d => phase_tasks (d_phase d)) (st_disp s)
  ++ st_queue s
  ++ flat_map worker_tasks (st_workers s)
  ++ st_outbox s.

(** The job [id] is in the table with this subject and this body. *)
Definition job_text (db : Store) (id subject body : string) : Prop :=
  exists j, find_job id db = Some j /\
            job_subject j = subject /\ job_body j = body.

(** The task is the one of its Send: the Send is in the table, for the
    task's job and the task's address, and the task carries the subject and
    the body of that job. *)
Definition task_ok (db : Store) (t : SendTask) : Prop :=
  (exists x, find_send (SendID t) db = Some x /\
             send_job_id x = JobID t /\ send_email x = Email t) /\
  job_text db (JobID t) (Subject t) (Body t).

Record tasks_inv (s : State) : Prop := {
  tk_rows : forall rows r, st_sched s = SRows rows -> In r rows ->
      job_text (st_db s) (jr_id r) (jr_subject r) (jr_body r);
  tk_disp : forall d, In d (st_disp s) ->
      job_text (st_db s) (d_job d) (d_subject d) (d_body d);
  tk_tasks : forall t, In t (tasks_of s) -> task_ok (st_db s) t
}.

(** The addresses of the Sends of one job, in the order of their
    insertion. *)
Definition emails_of (jobID : string) (db : Store) : list string :=
  map send_email (sends_of jobID db).

(** A dispatcher in its first loop has no address twice among the Sends of
    its job and the rows it still has to go through. *)
Definition rows_uniq (db : Store) (d : Dispatcher) : Prop :=
  match d_phase d with
  | DRows rest _ => NoDup (emails_of (d_job d) db ++ map sr_email rest)
  | _ => True
  end.

Record uniq_inv (s : State) : Prop := {
  uq_ids : NoDup (map sub_id (subscribers (st_db s)));
  uq_emails : NoDup (map sub_email (subscribers (st_db s)));
  uq_sends : forall id, NoDup (emails_of id (st_db s));
  uq_disp : forall d, In d (st_disp s) -> rows_uniq (st_db s) d
}.

(** ** [doSend] over SMTP *)







(** ** Further runs of the example

    After the run: time passes and a tick of the scheduler finds nothing
    due. *)
Definition demo_s17 : State := with_clock demo_s16 105.
Definition demo_s18 : State := with_sched demo_s17 (SRows []).
Definition demo_s19 : State := with_sched demo_s18 SIdle.

(** The worker's second UPDATE returns an error: the Send has been
    delivered and stays sending, and the dispatcher polls on. *)
Definition demo_o13 : State :=
  with_outbox
    (with_workers
       (with_db demo_s12
          (worker_record (doSend demo_mock demo_task) 100 false demo_task
             (st_db demo_s12)))
       [WIdle; WIdle; WIdle; WIdle])
    [demo_task].
Definition demo_o14 : State := with_disp demo_o13 [demo_d DPoll].
Definition demo_o15 : State := with_clock demo_o14 101.
Definition demo_o16 : State := with_disp demo_o15 [demo_d DPoll].

(** The process is stopped while the task of the Send is on the channel and
    started again; the new process gets a second job, and its scheduler
    claims that one. *)
Definition demo_job2 : Job :=
  {| job_id := "j2"; job_subject := "Again"; job_body := "Text";
     job_scheduled_at := 100; job_status := "pending"; job_created_at := 100;
     job_completed_at := None |}.

Definition demo_rdb1 : Store :=
  with_jobs (st_db demo_s9) (jobs (st_db demo_s9) ++ [demo_job2]).

Definition demo_rdb2 : Store := update_job_status "running" "j2" demo_rdb1.

Definition demo_r0 : State := restart demo_s9.
Definition demo_r1 : State := with_db demo_r0 demo_rdb1.
Definition demo_r2 : State := with_clock demo_r1 105.
Definition demo_r3 : State := with_sched demo_r2 (SRows [row_of_job demo_job2]).
Definition demo_r4 : State :=
  with_disp (with_sched (with_db demo_r3 demo_rdb2) (SRows []))
    [{| d_job := "j2"; d_subject := "Again"; d_body := "Text";
        d_phase := DStart |}].
Definition demo_r5 : State := with_sched demo_r4 SIdle.





(** ** The outcome of a job *)

(** No Send of the job is waiting: each is sent or failed. *)
Definition settled (jobID : string) (db : Store) : Prop :=
  forall x, In x (sends_of jobID db) ->
    send_status x = "sent" \/ send_status x = "failed".

(** The two counting queries of [dispatchJob] give the right number in the
    step from [s] to [s']: a dispatcher leaves its polling loop only when
    no Send of its job is queued or sending, and the number of failed Sends
    it goes on with is the number of failed Sends of its job.  The queries
    give these numbers when they return no error; when one returns an
    error the code goes on with 0. *)
Definition counts_right (s s' : State) : Prop :=
  (forall d, In d (st_disp s) -> d_phase d = DPoll ->
     In (set_phase d DCount) (st_disp s') ->
     count_unfinished (d_job d) (st_db s) = 0) /\
  (forall d n, In d (st_disp s) -> d_phase d = DCount ->
     In (set_phase d (DUpdate n)) (st_disp s') ->
     n = count_status (d_job d) "failed" (st_db s)).

(** The states of the runs in which the counting queries give the right
    number. *)
Inductive reachable_counted : State -> Prop :=
  | rc_init t0 : reachable_counted (init t0)
  | rc_step s s' :
      reachable_counted s -> step s s' -> counts_right s s' ->
      reachable_counted s'.

(** What a dispatcher past its polling loop knows of the Sends of its
    job. *)
Definition counted_ok (db : Store) (d : Dispatcher) : Prop :=
  match d_phase d with
  | DCount => settled (d_job d) db
  | DUpdate n =>
      settled (d_job d) db /\ n = count_status (d_job d) "failed" db
  | _ => True
  end.

Record outcome_inv (s : State) : Prop := {
  oc_disp : forall d, In d (st_disp s) -> counted_ok (st_db s) d;
  oc_done : forall id,
      status_of_job id (st_db s) = Some "completed" ->
      forall x, In x (sends_of id (st_db s)) -> send_status x = "sent";
  oc_errors : forall id,
      status_of_job id (st_db s) = Some "completed_with_errors" ->
      settled id (st_db s) /\
      exists x, In x (sends_of id (st_db s)) /\ send_status x = "failed"
}.

(** ** Examples with errors of the database calls *)


(** The state a dispatcher leaves when it returns from its error branch:
    the result of the UPDATE is [ok]. *)
Definition after_enum_failure (s : State) (ds1 : list Dispatcher)
    (d : Dispatcher) (ds2 : list Dispatcher) (ok : bool) : State :=
  with_disp (with_db s (fail_job (st_clock s) ok (d_job d) (st_db s)))
    (ds1 ++ ds2).

(** The subscriber query fails and so does the UPDATE that follows. *)
Definition demo_g7 : State :=
  after_enum_failure demo_f6 [] (demo_d DEnumFailed) [] false.

(** Two Sends of the job, the first to an address the transport refuses. *)
Definition demo_db_two : Store :=
  with_sends demo_db4
    [{| send_id := "s1"; send_job_id := "j1"; send_subscriber_id := "u1";
        send_email := "a@example.com"; send_status := "queued";
        send_attempts := 0; send_last_error := None; send_created_at := 100;
        send_sent_at := None |};
     {| send_id := "s2"; send_job_id := "j1"; send_subscriber_id := "u2";
        send_email := "b@example.com"; send_status := "queued";
        send_attempts := 0; send_last_error := None; send_created_at := 100;
        send_sent_at := None |}].

Definition demo_task2 : SendTask :=
  {| SendID := "s2"; JobID := "j1"; Email := "b@example.com";
     Subject := "Hello"; Body := "World" |}.

Definition demo_refusing : SmtpEnv :=
  {| smtp_host := "mail.example.com";
     smtp_sendmail := Some "connection refused" |}.

Definition demo_work_env (id : string) : WorkEnv :=
  {| we_mark_ok := true;
     we_smtp := if id =? "s1" then demo_refusing else demo_mock;
     we_now := 100; we_record_ok := true |}.

(** After the error branch: time passes and a tick finds nothing due. *)
Definition demo_f8 : State := with_clock demo_f7 105.
Definition demo_f9 : State := with_sched demo_f8 (SRows []).
Definition demo_f10 : State := with_sched demo_f9 SIdle.

(** * Facts about the SQL statements *)

Section Tables.

Context {A : Type}.
Variable key : A -> string.

Lemma update_where_keys (id : string) (f : A -> A) (rows : list A) :
  (forall r, key (f r) = key r) ->
  map key (update_where key id f rows) = map key rows.
Proof.
  intros Hf. unfold update_where. rewrite map_map.
  apply map_ext. intros r. destruct (key r =? id); auto.
Qed.

Lemma find_update_same (id : string) (f : A -> A) (rows : list A) :
  (forall r, key (f r) = key r) ->
  find (fun r => key r =? id) (update_where key id f rows)
  = option_map f (find (fun r => key r =? id) rows).
Proof.
  intros Hf. induction rows as [|r rows IH]; simpl; auto.
  destruct (key r =? id) eqn:E.
  - rewrite Hf, E. reflexivity.
  - rewrite E. exact IH.
Qed.

Lemma find_update_other (id id' : string) (f : A -> A) (rows : list A) :
  (forall r, key (f r) = key r) ->
  id' <> id ->
  find (fun r => key r =? id') (update_where key id f rows)
  = find (fun r => key r =? id') rows.
Proof.
  intros Hf Hne. induction rows as [|r rows IH]; simpl; auto.
  destruct (key r =? id) eqn:E.
  - rewrite Hf. apply String.eqb_eq in E.
    destruct (key r =? id') eqn:E'.
    + apply String.eqb_eq in E'. congruence.
    + exact IH.
  - destruct (key r =? id'); auto.
Qed.

Lemma in_update_where (id : string) (f : A -> A) (rows : list A) (r' : A) :
  In r' (update_where key id f rows) ->
  exists r, In r rows /\ (r' = r \/ (key r = id /\ r' = f r)).
Proof.
  unfold update_where. rewrite in_map_iff. intros [r [E Hin]].
  exists r. split; auto.
  destruct (key r =? id) eqn:K; auto.
  apply String.eqb_eq in K. auto.
Qed.

Lemma has_key_false (id : string) (rows : list A) :
  has_key key id rows = false <-> ~ In id (map key rows).
Proof.
  unfold has_key. induction rows as [|r rows IH]; simpl.
  - tauto.
  - rewrite orb_false_iff, IH, String.eqb_neq. tauto.
Qed.

Lemma find_none_iff (id : string) (rows : list A) :
  find (fun r => key r =? id) rows = None <-> ~ In id (map key rows).
Proof.
  induction rows as [|r rows IH]; simpl.
  - tauto.
  - destruct (key r =? id) eqn:E.
    + apply String.eqb_eq in E. split; [discriminate | tauto].
    + apply String.eqb_neq in E. rewrite IH. tauto.
Qed.

Lemma find_some_key (id : string) (rows : list A) (r : A) :
  find (fun r => key r =? id) rows = Some r -> In r rows /\ key r = id.
Proof.
  intros H. apply find_some in H. rewrite String.eqb_eq in H. exact H.
Qed.

Lemma find_in_nodup (rows : list A) (r : A) :
  NoDup (map key rows) -> In r rows ->
  find (fun x => key x =? key r) rows = Some r.
Proof.
  induction rows as [|x rows IH]; simpl; intros Hnd Hin; [tauto|].
  inversion Hnd as [|? ? Hx Hnd']; subst.
  destruct Hin as [->|Hin].
  - rewrite String.eqb_refl. reflexivity.
  - destruct (key x =? key r) eqn:E.
    + apply String.eqb_eq in E. exfalso. apply Hx. rewrite E.
      apply in_map. exact Hin.
    + auto.
Qed.

Lemma find_app_new (id : string) (rows : list A) (x : A) :
  find (fun r => key r =? id) (rows ++ [x])
  = match find (fun r => key r =? id) rows with
    | Some r => Some r
    | None => if key x =? id then Some x else None
    end.
Proof.
  induction rows as [|r rows IH]; simpl; auto.
  destruct (key r =? id); auto.
Qed.

Lemma rows_affected_nodup (id : string) (rows : list A) :
  NoDup (map key rows) -> In id (map key rows) ->
  rows_affected key id rows = 1.
Proof.
  unfold rows_affected.
  induction rows as [|r rows IH]; simpl; intros Hnd Hin; [tauto|].
  inversion Hnd as [|? ? Hx Hnd']; subst.
  destruct (key r =? id) eqn:E.
  - apply String.eqb_eq in E. subst id. simpl. f_equal.
    clear IH Hin Hnd. induction rows as [|y rows IH]; simpl; auto.
    simpl in Hx. destruct (key y =? key r) eqn:E.
    + apply String.eqb_eq in E. tauto.
    + apply IH.
      * tauto.
      * inversion Hnd'; auto.
  - apply String.eqb_neq in E. destruct Hin as [H|H]; [congruence|auto].
Qed.

Lemma rows_affected_pos (id : string) (rows : list A) :
  In id (map key rows) -> 1 <= rows_affected key id rows.
Proof.
  unfold rows_affected.
  induction rows as [|r rows IH]; simpl; intros Hin; [tauto|].
  destruct (key r =? id) eqn:E; simpl; [lia|].
  apply String.eqb_neq in E. destruct Hin as [H|H]; [congruence|auto].
Qed.

Lemma nodup_filter_keys (p : A -> bool) (rows : list A) :
  NoDup (map key rows) -> NoDup (map key (filter p rows)).
Proof.
  induction rows as [|r rows IH]; simpl; intros Hnd; auto.
  inversion Hnd as [|? ? Hx Hnd']; subst.
  destruct (p r); simpl; auto.
  constructor; auto.
  intros Hin. apply Hx. rewrite in_map_iff in *.
  destruct Hin as [y [E Hy]]. exists y. split; auto.
  apply filter_In in Hy. tauto.
Qed.

End Tables.

(** * Facts about the jobs table *)

Lemma find_job_update_status st id id' db :
  find_job id' (update_job_status st id db)
  = if id' =? id then option_map (set_job_status st) (find_job id' db)
    else find_job id' db.
Proof.
  unfold find_job, update_job_status. simpl.
  destruct (id' =? id) eqn:E.
  - apply String.eqb_eq in E. subst. apply find_update_same. reflexivity.
  - apply String.eqb_neq in E. apply find_update_other; auto.
Qed.

Lemma find_job_update_done st now id id' db :
  find_job id' (update_job_done st now id db)
  = if id' =? id then option_map (set_job_done st now) (find_job id' db)
    else find_job id' db.
Proof.
  unfold find_job, update_job_done. simpl.
  destruct (id' =? id) eqn:E.
  - apply String.eqb_eq in E. subst. apply find_update_same. reflexivity.
  - apply String.eqb_neq in E. apply find_update_other; auto.
Qed.

Lemma find_job_insert id subject body ts st now db db' id' :
  insert_job id subject body ts st now db = Some db' ->
  find_job id db = None /\
  find_job id' db'
  = match find_job id' db with
    | Some j => Some j
    | None =>
        if id =? id'
        then Some {| job_id := id; job_subject := subject; job_body := body;
                     job_scheduled_at := ts; job_status := st;
                     job_created_at := now; job_completed_at := None |}
        else None
    end.
Proof.
  unfold insert_job. destruct (has_key job_id id (jobs db)) eqn:K; [discriminate|].
  intros H. inversion H; subst; clear H. split.
  - unfold find_job. apply find_none_iff. apply has_key_false. exact K.
  - unfold find_job. simpl. apply find_app_new.
Qed.

Lemma status_of_job_update_status st id id' db :
  status_of_job id' (update_job_status st id db)
  = if id' =? id then option_map (fun _ => st) (status_of_job id' db)
    else status_of_job id' db.
Proof.
  unfold status_of_job. rewrite find_job_update_status.
  destruct (id' =? id); auto. destruct (find_job id' db); reflexivity.
Qed.

Lemma status_of_job_update_done st now id id' db :
  status_of_job id' (update_job_done st now id db)
  = if id' =? id then option_map (fun _ => st) (status_of_job id' db)
    else status_of_job id' db.
Proof.
  unfold status_of_job. rewrite find_job_update_done.
  destruct (id' =? id); auto. destruct (find_job id' db); reflexivity.
Qed.

Lemma status_of_job_insert id subject body ts st now db db' id' :
  insert_job id subject body ts st now db = Some db' ->
  status_of_job id db = None /\
  status_of_job id' db'
  = match status_of_job id' db with
    | Some x => Some x
    | None => if id =? id' then Some st else None
    end.
Proof.
  intros H. destruct (find_job_insert _ _ _ _ _ _ _ _ id' H) as [Hn He].
  unfold status_of_job. rewrite Hn, He. split; auto.
  destruct (find_job id' db); simpl; auto. destruct (id =? id'); auto.
Qed.

Lemma status_of_job_in id db st :
  status_of_job id db = Some st -> In id (map job_id (jobs db)).
Proof.
  unfold status_of_job, find_job. intros H.
  destruct (find _ _) as [j|] eqn:F; [|discriminate].
  apply find_some_key in F. destruct F as [Hin <-]. apply in_map. exact Hin.
Qed.

Lemma final_status_terminal failed : terminal_job_status (final_status failed).
Proof.
  unfold final_status, terminal_job_status. destruct (0 <? failed)%nat; auto.
Qed.

Lemma terminal_valid st : terminal_job_status st -> valid_job_status st.
Proof. unfold terminal_job_status, valid_job_status. tauto. Qed.

Lemma map_job_replace ds1 d ds2 p :
  map d_job (ds1 ++ set_phase d p :: ds2) = map d_job (ds1 ++ d :: ds2).
Proof. rewrite !map_app. reflexivity. Qed.

Lemma NoDup_snoc {A : Type} (l : list A) (x : A) :
  NoDup l -> ~ In x l -> NoDup (l ++ [x]).
Proof.
  induction l as [|y l IH]; simpl; intros Hnd Hx.
  - constructor; [tauto|constructor].
  - inversion Hnd; subst. constructor.
    + intros Hin. apply in_app_or in Hin. simpl in Hin.
      destruct Hin as [Hin|[Hin|[]]]; [tauto|]. apply Hx. auto.
    + apply IH; auto.
Qed.

(** * The jobs invariant *)

Lemma find_job_jobs id db db' :
  jobs db' = jobs db -> find_job id db' = find_job id db.
Proof. unfold find_job. intros ->. reflexivity. Qed.

Lemma status_of_job_jobs id db db' :
  jobs db' = jobs db -> status_of_job id db' = status_of_job id db.
Proof. unfold status_of_job. intros H. rewrite (find_job_jobs id _ _ H). reflexivity. Qed.

Lemma jobs_inv_same s s' :
  jobs (st_db s') = jobs (st_db s) ->
  st_clock s' = st_clock s ->
  st_sched s' = st_sched s ->
  map d_job (st_disp s') = map d_job (st_disp s) ->
  jobs_inv s -> jobs_inv s'.
Proof.
  intros Hj Hc Hs Hd [I1 I2 I3 I4 I5 I6].
  constructor.
  - rewrite Hj. exact I1.
  - rewrite Hj. exact I2.
  - rewrite Hs. exact I3.
  - rewrite Hs, Hc. intros rows r Hr Hin.
    rewrite (find_job_jobs _ _ _ Hj). eauto.
  - rewrite Hd. intros id Hin. rewrite (status_of_job_jobs _ _ _ Hj). auto.
  - rewrite Hd. exact I6.
Qed.

Lemma jobs_inv_init t0 : jobs_inv (init t0).
Proof.
  constructor; simpl; try constructor; try tauto; try discriminate.
Qed.

Lemma exec_jobs_done ok st now id db :
  exec ok (update_job_done st now id) db = db \/
  exec ok (update_job_done st now id) db = update_job_done st now id db.
Proof. destruct ok; simpl; auto. Qed.

(** The last write of a dispatcher (failed, completed or
    completed_with_errors), after which the goroutine is gone. *)
Lemma jobs_inv_finish s ds1 d ds2 st now ok :
  jobs_inv s ->
  st_disp s = ds1 ++ d :: ds2 ->
  terminal_job_status st ->
  jobs_inv (with_disp
              (with_db s (exec ok (update_job_done st now (d_job d)) (st_db s)))
              (ds1 ++ ds2)).
Proof.
  intros [I1 I2 I3 I4 I5 I6] Hd Hst.
  rewrite Hd in I5, I6. rewrite map_app in I5, I6. simpl in I5, I6.
  assert (Hrun : status_of_job (d_job d) (st_db s) = Some "running").
  { apply I5. apply in_or_app. right. left. reflexivity. }
  assert (Hnd : NoDup (map d_job (ds1 ++ ds2))).
  { rewrite map_app. eapply NoDup_remove_1. exact I6. }
  assert (Hnot : ~ In (d_job d) (map d_job (ds1 ++ ds2))).
  { rewrite map_app. eapply NoDup_remove_2. exact I6. }
  assert (Hothers : forall id, In id (map d_job (ds1 ++ ds2)) ->
                      status_of_job id (st_db s) = Some "running").
  { intros id Hin. apply I5. rewrite map_app in Hin.
    apply in_app_or in Hin. apply in_or_app. simpl. tauto. }
  destruct (exec_jobs_done ok st now (d_job d) (st_db s)) as [E|E]; rewrite E.
  - constructor; simpl; auto.
  - constructor; simpl; auto.
    + rewrite update_where_keys; auto.
    + intros j Hin. apply in_update_where in Hin.
      destruct Hin as [r [Hr [->|[_ ->]]]]; auto.
      simpl. apply terminal_valid. exact Hst.
    + intros rows r Hr Hin.
      destruct (I4 rows r Hr Hin) as [j [Hf [Hp Hs]]].
      exists j. rewrite find_job_update_done.
      destruct (jr_id r =? d_job d) eqn:K; auto.
      apply String.eqb_eq in K. unfold status_of_job in Hrun.
      rewrite <- K, Hf in Hrun. simpl in Hrun. congruence.
    + intros id Hin. rewrite status_of_job_update_done.
      destruct (id =? d_job d) eqn:K; auto.
      apply String.eqb_eq in K. subst. tauto.
Qed.

Lemma step_jobs_inv s s' : jobs_inv s -> step s s' -> jobs_inv s'.
Proof.
  intros I Hstep.
  destruct Hstep;
    try (eapply jobs_inv_same; [| | | | exact I]; simpl;
         try reflexivity;
         try (rewrite H; apply map_job_replace);
         fail).
  - (* time *)
    destruct I as [I1 I2 I3 I4 I5 I6]. constructor; simpl; auto.
    intros rows r Hr Hin. destruct (I4 rows r Hr Hin) as [j [Hf [Hp Hs]]].
    exists j. repeat split; auto. lia.
  - (* restart *)
    destruct I as [I1 I2 I3 I4 I5 I6]. constructor; simpl; auto;
      try discriminate; try tauto. constructor.
  - (* schedule *)
    destruct I as [I1 I2 I3 I4 I5 I6].
    pose proof (fun id' => find_job_insert _ _ _ _ _ _ _ _ id' H) as Hfind.
    pose proof (fun id' => status_of_job_insert _ _ _ _ _ _ _ _ id' H) as Hstat.
    unfold insert_job in H.
    destruct (has_key job_id id (jobs (st_db s))) eqn:K; [discriminate|].
    inversion H; subst db'; clear H.
    constructor; simpl; auto.
    + rewrite map_app. simpl. apply NoDup_snoc; auto.
      apply has_key_false in K. exact K.
    + intros j Hin. apply in_app_or in Hin. destruct Hin as [Hin|[<-|[]]]; auto.
      simpl. unfold valid_job_status. auto.
    + intros rows r Hr Hin. destruct (I4 rows r Hr Hin) as [j [Hf [Hp Hs]]].
      exists j. destruct (Hfind (jr_id r)) as [_ ->]. rewrite Hf. auto.
    + intros id' Hin. destruct (Hstat id') as [_ ->].
      rewrite (I5 id' Hin). reflexivity.
  - (* upload *)
    eapply jobs_inv_same; [| | | | exact I]; simpl; try reflexivity.
    unfold insert_subscriber in H.
    destruct (_ || _); [discriminate|]. inversion H; reflexivity.
  - (* tick_query *)
    destruct I as [I1 I2 I3 I4 I5 I6]. constructor; simpl; auto.
    + intros rows Hr. destruct ok; [|discriminate].
      inversion Hr; subst rows. unfold select_due_jobs.
      rewrite map_map. simpl.
      apply (nodup_filter_keys job_id). exact I1.
    + intros rows r Hr Hin. destruct ok; [|discriminate].
      inversion Hr; subst rows. unfold select_due_jobs in Hin.
      apply in_map_iff in Hin. destruct Hin as [j [<- Hj]].
      apply filter_In in Hj. destruct Hj as [Hj Hdue].
      exists j. unfold is_due in Hdue. apply andb_true_iff in Hdue.
      destruct Hdue as [Hp Hs]. apply String.eqb_eq in Hp.
      apply Z.leb_le in Hs. repeat split; auto.
      simpl. unfold find_job. apply find_in_nodup; auto.
  - (* tick_row *)
    destruct I as [I1 I2 I3 I4 I5 I6].
    pose proof (I3 _ H) as Hnd. simpl in Hnd.
    inversion Hnd as [|? ? Hnotin Hnd']; subst.
    destruct (I4 _ r H (or_introl eq_refl)) as [jr [Hfr [Hpr Hsr]]].
    assert (Hnew : ~ In (jr_id r) (map d_job (st_disp s))).
    { intros Hin. apply I5 in Hin. unfold status_of_job in Hin.
      rewrite Hfr in Hin. simpl in Hin. congruence. }
    unfold claim_row in H0.
    destruct scan_ok, exec_ok; inversion H0; subst db' spawned; clear H0;
      simpl; rewrite ?app_nil_r.
    + constructor; simpl; auto.
      * rewrite update_where_keys; auto.
      * intros j Hin. apply in_update_where in Hin.
        destruct Hin as [x [Hx [->|[_ ->]]]]; auto.
        simpl. unfold valid_job_status. auto.
      * intros rows Hr. inversion Hr; subst; auto.
      * intros rows r' Hr Hin. inversion Hr; subst rows.
        destruct (I4 _ r' H (or_intror Hin)) as [j [Hf [Hp Hs]]].
        exists j. rewrite find_job_update_status.
        destruct (jr_id r' =? jr_id r) eqn:K; auto.
        apply String.eqb_eq in K. exfalso. apply Hnotin. rewrite <- K.
        apply in_map. exact Hin.
      * intros id' Hin. rewrite status_of_job_update_status.
        rewrite map_app in Hin. apply in_app_or in Hin.
        destruct Hin as [Hin|[<-|[]]].
        -- rewrite (I5 _ Hin). destruct (id' =? jr_id r); reflexivity.
        -- simpl. rewrite String.eqb_refl. unfold status_of_job.
           rewrite Hfr. reflexivity.
      * rewrite map_app. simpl. apply NoDup_snoc; auto.
    + constructor; simpl; auto.
      * intros rows Hr. inversion Hr; subst; auto.
      * intros rows r' Hr Hin. inversion Hr; subst rows.
        apply (I4 _ r' H). right. exact Hin.
    + constructor; simpl; auto.
      * intros rows Hr. inversion Hr; subst; auto.
      * intros rows r' Hr Hin. inversion Hr; subst rows.
        apply (I4 _ r' H). right. exact Hin.
    + constructor; simpl; auto.
      * intros rows Hr. inversion Hr; subst; auto.
      * intros rows r' Hr Hin. inversion Hr; subst rows.
        apply (I4 _ r' H). right. exact Hin.
  - (* tick_end *)
    destruct I as [I1 I2 I3 I4 I5 I6]. constructor; simpl; auto; discriminate.
  - (* enum_failed *)
    unfold fail_job. apply jobs_inv_finish; auto.
    unfold terminal_job_status. auto.
  - (* row *)
    eapply jobs_inv_same; [| | | | exact I]; simpl; try reflexivity.
    + unfold expand_row in H1. simpl in H1.
      destruct scan_ok, exec_ok; try (inversion H1; reflexivity).
      unfold insert_send in H1. destruct (has_key _ _ _).
      * inversion H1; reflexivity.
      * inversion H1; reflexivity.
    + rewrite H. apply map_job_replace.
  - (* update *)
    unfold finish_job. apply jobs_inv_finish; auto.
    apply final_status_terminal.
  - (* mark *)
    eapply jobs_inv_same; [| | | | exact I]; simpl; try reflexivity.
    unfold worker_mark. destruct ok; reflexivity.
  - (* send *)
    eapply jobs_inv_same; [| | | | exact I]; simpl; try reflexivity.
    unfold worker_record. destruct (doSend smtp t), ok; reflexivity.
Qed.

Lemma reachable_jobs_inv s : reachable s -> jobs_inv s.
Proof.
  induction 1 as [t0|s s' _ IH Hstep].
  - apply jobs_inv_init.
  - eapply step_jobs_inv; eauto.
Qed.

(** * How one step changes the jobs table *)

Lemma exec_cases ok stmt db : exec ok stmt db = db \/ exec ok stmt db = stmt db.
Proof. destruct ok; simpl; auto. Qed.

Lemma expand_row_jobs e jobID subject body r db tasks db' tasks' :
  expand_row e jobID subject body r db tasks = (db', tasks') ->
  jobs db' = jobs db /\ subscribers db' = subscribers db.
Proof.
  unfold expand_row, insert_send.
  destruct (ie_scan_ok e), (ie_exec_ok e); try (intros H; inversion H; auto; fail).
  destruct (has_key _ _ _); intros H; inversion H; auto.
Qed.

Lemma worker_mark_jobs ok t db :
  jobs (worker_mark ok t db) = jobs db.
Proof. unfold worker_mark. destruct ok; reflexivity. Qed.

Lemma worker_record_jobs err now ok t db :
  jobs (worker_record err now ok t db) = jobs db.
Proof. unfold worker_record. destruct err, ok; reflexivity. Qed.

(** A step leaves the jobs table alone, or inserts a pending job, or is the
    scheduler's claim of the row it stands on, or is the last write of a
    live dispatcher. *)
Lemma step_job_effect s s' :
  step s s' ->
  jobs (st_db s') = jobs (st_db s)
  \/ (exists id subject body ts,
        insert_job id subject body ts "pending" (st_clock s) (st_db s)
        = Some (st_db s'))
  \/ (exists r rest,
        st_sched s = SRows (r :: rest) /\
        st_db s' = update_job_status "running" (jr_id r) (st_db s))
  \/ (exists id st,
        In id (map d_job (st_disp s)) /\ terminal_job_status st /\
        st_db s' = update_job_done st (st_clock s) id (st_db s)).
Proof.
  intros Hstep. destruct Hstep; simpl; auto.
  - right. left. eauto.
  - unfold insert_subscriber in H. destruct (_ || _); [discriminate|].
    inversion H. auto.
  - unfold claim_row in H0.
    destruct scan_ok, exec_ok; inversion H0; subst; auto.
    right. right. left. eauto.
  - unfold fail_job. destruct (exec_cases ok
      (update_job_done "failed" (st_clock s) (d_job d)) (st_db s)) as [E|E];
      rewrite E; auto.
    right. right. right. exists (d_job d), "failed". repeat split.
    + rewrite H, map_app. apply in_or_app. right. left. reflexivity.
    + unfold terminal_job_status. auto.
  - left. eapply expand_row_jobs. eauto.
  - unfold finish_job. destruct (exec_cases ok
      (update_job_done (final_status failed) (st_clock s) (d_job d)) (st_db s))
      as [E|E]; rewrite E; auto.
    right. right. right. exists (d_job d), (final_status failed). repeat split.
    + rewrite H, map_app. apply in_or_app. right. left. reflexivity.
    + apply final_status_terminal.
  - left. apply worker_mark_jobs.
  - left. apply worker_record_jobs.
Qed.

(** What a step does to one job row: the row stays, with its due time, and
    its status stays or moves along one edge; the edge out of pending is
    taken only when the job is due. *)
Lemma step_job s s' id j :
  jobs_inv s -> step s s' ->
  find_job id (st_db s) = Some j ->
  exists j',
    find_job id (st_db s') = Some j' /\
    job_scheduled_at j' = job_scheduled_at j /\
    (job_status j' = job_status j
     \/ (job_status j = "pending" /\ job_status j' = "running" /\
         (job_scheduled_at j <= st_clock s)%Z)
     \/ (job_status j = "running" /\ terminal_job_status (job_status j'))).
Proof.
  intros I Hstep Hf.
  destruct (step_job_effect _ _ Hstep)
    as [E|[[i [sj [bd [ts E]]]]|[[r [rest [Hs E]]]|[i [st [Hin [Ht E]]]]]]].
  - exists j. rewrite (find_job_jobs _ _ _ E). auto.
  - exists j. destruct (find_job_insert _ _ _ _ _ _ _ _ id E) as [_ ->].
    rewrite Hf. auto.
  - rewrite E, find_job_update_status, Hf.
    destruct (id =? jr_id r) eqn:K.
    + apply String.eqb_eq in K. subst id.
      destruct (ji_rows s I _ r Hs (or_introl eq_refl)) as [j0 [Hf0 [Hp Hd]]].
      rewrite Hf in Hf0. inversion Hf0; subst j0.
      eexists. split; [reflexivity|]. simpl. tauto.
    + exists j. auto.
  - rewrite E, find_job_update_done, Hf.
    destruct (id =? i) eqn:K.
    + apply String.eqb_eq in K. subst id.
      pose proof (ji_disp s I _ Hin) as Hr. unfold status_of_job in Hr.
      rewrite Hf in Hr. simpl in Hr. inversion Hr.
      eexists. split; [reflexivity|]. simpl. tauto.
    + exists j. auto.
Qed.

(** A job row that does not exist appears, if it does, as a pending one. *)
Lemma step_job_new s s' id :
  step s s' ->
  status_of_job id (st_db s) = None ->
  status_of_job id (st_db s') = None \/
  status_of_job id (st_db s') = Some "pending".
Proof.
  intros Hstep Hn.
  destruct (step_job_effect _ _ Hstep)
    as [E|[[i [sj [bd [ts E]]]]|[[r [rest [Hs E]]]|[i [st [Hin [Ht E]]]]]]].
  - rewrite (status_of_job_jobs _ _ _ E). auto.
  - destruct (status_of_job_insert _ _ _ _ _ _ _ _ id E) as [_ ->].
    rewrite Hn. destruct (i =? id); auto.
  - rewrite E, status_of_job_update_status, Hn. destruct (id =? jr_id r); auto.
  - rewrite E, status_of_job_update_done, Hn. destruct (id =? i); auto.
Qed.

Lemma step_job_status s s' id st :
  jobs_inv s -> step s s' ->
  status_of_job id (st_db s) = Some st ->
  exists st', status_of_job id (st_db s') = Some st' /\
              (st' = st \/ job_edge st st').
Proof.
  intros I Hstep Hs. unfold status_of_job in Hs.
  destruct (find_job id (st_db s)) as [j|] eqn:Hf; [|discriminate].
  simpl in Hs. inversion Hs; subst st.
  destruct (step_job _ _ _ _ I Hstep Hf) as [j' [Hf' [_ Hst]]].
  exists (job_status j'). unfold status_of_job. rewrite Hf'. split; auto.
  unfold job_edge. destruct Hst as [H|[[H1 [H2 _]]|[H1 H2]]]; auto.
Qed.

(** * Facts about the sends table *)

Lemma status_of_send_sends id db db' :
  sends db' = sends db -> status_of_send id db' = status_of_send id db.
Proof. unfold status_of_send, find_send. intros ->. reflexivity. Qed.

Lemma find_send_update (f : Send -> Send) id id' db :
  (forall x, send_id (f x) = send_id x) ->
  find_send id' (with_sends db (update_where send_id id f (sends db)))
  = if id' =? id then option_map f (find_send id' db) else find_send id' db.
Proof.
  intros Hf. unfold find_send. simpl.
  destruct (id' =? id) eqn:E.
  - apply String.eqb_eq in E. subst. apply find_update_same. exact Hf.
  - apply String.eqb_neq in E. apply find_update_other; auto.
Qed.

Lemma status_of_send_sending id id' db :
  status_of_send id' (update_send_sending id db)
  = if id' =? id then option_map (fun _ => "sending") (status_of_send id' db)
    else status_of_send id' db.
Proof.
  unfold status_of_send, update_send_sending.
  rewrite find_send_update by reflexivity.
  destruct (id' =? id); auto. destruct (find_send id' db); reflexivity.
Qed.

Lemma status_of_send_failed msg id id' db :
  status_of_send id' (update_send_failed msg id db)
  = if id' =? id then option_map (fun _ => "failed") (status_of_send id' db)
    else status_of_send id' db.
Proof.
  unfold status_of_send, update_send_failed.
  rewrite find_send_update by reflexivity.
  destruct (id' =? id); auto. destruct (find_send id' db); reflexivity.
Qed.

Lemma status_of_send_sent now id id' db :
  status_of_send id' (update_send_sent now id db)
  = if id' =? id then option_map (fun _ => "sent") (status_of_send id' db)
    else status_of_send id' db.
Proof.
  unfold status_of_send, update_send_sent.
  rewrite find_send_update by reflexivity.
  destruct (id' =? id); auto. destruct (find_send id' db); reflexivity.
Qed.

Lemma find_send_insert id jobID sid email st now db db' id' :
  insert_send id jobID sid email st now db = Some db' ->
  find_send id db = None /\
  jobs db' = jobs db /\
  find_send id' db'
  = match find_send id' db with
    | Some x => Some x
    | None =>
        if id =? id'
        then Some {| send_id := id; send_job_id := jobID;
                     send_subscriber_id := sid; send_email := email;
                     send_status := st; send_attempts := 0%Z;
                     send_last_error := None; send_created_at := now;
                     send_sent_at := None |}
        else None
    end.
Proof.
  unfold insert_send.
  destruct (has_key send_id id (sends db)) eqn:K; [discriminate|].
  intros H. inversion H; subst; clear H. repeat split.
  - unfold find_send. apply find_none_iff. apply has_key_false. exact K.
  - unfold find_send. simpl. apply find_app_new.
Qed.

Lemma status_of_send_insert id jobID sid email st now db db' id' :
  insert_send id jobID sid email st now db = Some db' ->
  status_of_send id db = None /\
  status_of_send id' db'
  = match status_of_send id' db with
    | Some x => Some x
    | None => if id =? id' then Some st else None
    end.
Proof.
  intros H. destruct (find_send_insert _ _ _ _ _ _ _ _ id' H) as [Hn [_ He]].
  unfold status_of_send. rewrite Hn, He. split; auto.
  destruct (find_send id' db); simpl; auto. destruct (id =? id'); auto.
Qed.

Lemma insert_send_keys id jobID sid email st now db db' :
  insert_send id jobID sid email st now db = Some db' ->
  ~ In id (map send_id (sends db)) /\
  map send_id (sends db') = map send_id (sends db) ++ [id].
Proof.
  unfold insert_send.
  destruct (has_key send_id id (sends db)) eqn:K; [discriminate|].
  intros H. inversion H; subst; clear H. split.
  - apply has_key_false. exact K.
  - simpl. rewrite map_app. reflexivity.
Qed.

(** * Counting the holders of a task *)

Lemma cnt_nil id : cnt id [] = 0.
Proof. reflexivity. Qed.

Lemma cnt_cons id x l : cnt id (x :: l) = one id x + cnt id l.
Proof.
  unfold cnt, one. simpl. destruct (string_dec x id); reflexivity.
Qed.

Lemma cnt_app id l l' : cnt id (l ++ l') = cnt id l + cnt id l'.
Proof. unfold cnt. apply count_occ_app. Qed.

Lemma cnt_in id l : In id l <-> 0 < cnt id l.
Proof. unfold cnt. apply count_occ_In. Qed.

Lemma cnt_nodup l : NoDup l <-> forall id, cnt id l <= 1.
Proof. unfold cnt. apply NoDup_count_occ. Qed.

Lemma one_same id : one id id = 1.
Proof. unfold one. destruct (string_dec id id); congruence. Qed.

Lemma one_other id x : x <> id -> one id x = 0.
Proof. unfold one. destruct (string_dec x id); congruence. Qed.

(** Brings [cnt id (held s)] to a sum over the parts of the state. *)
Ltac held_hyp :=
  match goal with
  | H : st_disp _ = _ |- _ => rewrite H
  | H : st_workers _ = _ |- _ => rewrite H
  | H : st_queue _ = _ |- _ => rewrite H
  | H : d_phase _ = _ |- _ => rewrite H
  end.

Ltac held_sum :=
  unfold held;
  cbn [st_db st_clock st_sched st_disp st_queue st_workers st_outbox
       with_db with_clock with_sched with_disp with_queue with_workers
       with_outbox restart];
  repeat first
    [ held_hyp
    | rewrite flat_map_app
    | rewrite map_app
    | rewrite cnt_app
    | rewrite cnt_cons
    | rewrite cnt_nil
    | progress cbn [flat_map map app phase_tasks worker_tasks d_phase
                    set_phase spawn SendID] ].

(** * The sends invariant *)

Lemma sends_inv_same s s' :
  sends (st_db s') = sends (st_db s) ->
  (forall id, cnt id (held s') <= cnt id (held s)) ->
  sends_inv s -> sends_inv s'.
Proof.
  intros Hs Hc [S1 S2 S3]. constructor.
  - rewrite Hs. exact S1.
  - apply cnt_nodup. intros id. rewrite cnt_nodup in S2.
    specialize (S2 id). specialize (Hc id). lia.
  - intros id Hin. rewrite (status_of_send_sends _ _ _ Hs). apply S3.
    apply cnt_in. apply cnt_in in Hin. specialize (Hc id). lia.
Qed.

Lemma sends_inv_init t0 : sends_inv (init t0).
Proof.
  constructor; simpl.
  - constructor.
  - unfold held. simpl. constructor.
  - unfold held. simpl. tauto.
Qed.

Lemma expand_row_cases e jobID subject body r db tasks db' tasks' :
  expand_row e jobID subject body r db tasks = (db', tasks') ->
  (db' = db /\ tasks' = tasks)
  \/ (insert_send (ie_uuid e) jobID (sr_id r) (sr_email r) "queued" (ie_now e) db
      = Some db' /\
      tasks' = tasks ++ [{| SendID := ie_uuid e; JobID := jobID;
                            Email := sr_email r; Subject := subject;
                            Body := body |}]).
Proof.
  unfold expand_row.
  destruct (ie_scan_ok e), (ie_exec_ok e);
    try (intros H; inversion H; auto; fail).
  destruct (insert_send _ _ _ _ _ _ _) as [db1|]; intros H; inversion H; auto.
Qed.

Lemma worker_record_status err now ok t id db :
  status_of_send id (worker_record err now ok t db) = status_of_send id db
  \/ (id = SendID t /\
      exists st, terminal_send_status st /\
        status_of_send id (worker_record err now ok t db)
        = option_map (fun _ => st) (status_of_send id db)).
Proof.
  unfold worker_record.
  destruct err as [msg|], ok; simpl; auto.
  - rewrite status_of_send_failed. destruct (id =? SendID t) eqn:E; auto.
    apply String.eqb_eq in E. right. split; auto.
    exists "failed". unfold terminal_send_status. auto.
  - rewrite status_of_send_sent. destruct (id =? SendID t) eqn:E; auto.
    apply String.eqb_eq in E. right. split; auto.
    exists "sent". unfold terminal_send_status. auto.
Qed.

Lemma worker_record_keys err now ok t db :
  map send_id (sends (worker_record err now ok t db)) = map send_id (sends db).
Proof.
  unfold worker_record. destruct err, ok; simpl; auto;
    apply update_where_keys; reflexivity.
Qed.

Lemma worker_mark_keys ok t db :
  map send_id (sends (worker_mark ok t db)) = map send_id (sends db).
Proof.
  unfold worker_mark. destruct ok; simpl; auto.
  apply update_where_keys; reflexivity.
Qed.

Lemma worker_mark_status ok t id db :
  status_of_send id (worker_mark ok t db) = status_of_send id db
  \/ (id = SendID t /\
      status_of_send id (worker_mark ok t db)
      = option_map (fun _ => "sending") (status_of_send id db)).
Proof.
  unfold worker_mark. destruct ok; simpl; auto.
  rewrite status_of_send_sending. destruct (id =? SendID t) eqn:E; auto.
  apply String.eqb_eq in E. auto.
Qed.

Lemma step_sends_inv s s' : sends_inv s -> step s s' -> sends_inv s'.
Proof.
  intros I Hstep.
  destruct Hstep;
    try (apply (sends_inv_same s); [reflexivity | | exact I];
         intros i; held_sum; lia).
  - (* schedule *)
    apply (sends_inv_same s); [| | exact I].
    + unfold insert_job in H. destruct (has_key _ _ _); [discriminate|].
      inversion H. reflexivity.
    + intros i. held_sum. lia.
  - (* upload *)
    apply (sends_inv_same s); [| | exact I].
    + unfold insert_subscriber in H. destruct (_ || _); [discriminate|].
      inversion H. reflexivity.
    + intros i. held_sum. lia.
  - (* tick_row *)
    apply (sends_inv_same s); [| | exact I].
    + unfold claim_row in H0.
      destruct scan_ok, exec_ok; inversion H0; reflexivity.
    + intros i. destruct spawned; held_sum; lia.
  - (* enum *)
    apply (sends_inv_same s); [reflexivity | | exact I].
    intros i. destruct (enumerate ok (st_db s)); held_sum; lia.
  - (* enum_failed *)
    apply (sends_inv_same s); [| | exact I].
    + unfold fail_job. destruct ok; reflexivity.
    + intros i. held_sum. lia.
  - (* row *)
    destruct (expand_row_cases _ _ _ _ _ _ _ _ _ H1) as [[-> ->]|[Hins ->]].
    + apply (sends_inv_same s); [reflexivity | | exact I].
      intros i. held_sum. lia.
    + simpl in Hins. destruct I as [S1 S2 S3].
      destruct (insert_send_keys _ _ _ _ _ _ _ _ Hins) as [Hfresh Hkeys].
      assert (Hnew : cnt id (held s) = 0).
      { destruct (cnt id (held s)) eqn:C; auto. exfalso.
        assert (Hin : In id (held s)) by (apply cnt_in; lia).
        apply S3 in Hin.
        destruct (status_of_send_insert _ _ _ _ _ _ _ _ id Hins) as [Hn _].
        rewrite Hn in Hin. destruct Hin; discriminate. }
      assert (Hcnt : forall i, cnt i (held (with_disp (with_db s db')
                 (ds1 ++ set_phase d (DRows rest (tasks ++
                    [{| SendID := id; JobID := d_job d; Email := sr_email r;
                        Subject := d_subject d; Body := d_body d |}])) :: ds2)))
               = cnt i (held s) + one i id).
      { intros i. held_sum. lia. }
      constructor.
      * simpl. rewrite Hkeys. apply NoDup_snoc; auto.
      * apply cnt_nodup. intros i. rewrite Hcnt.
        rewrite cnt_nodup in S2. specialize (S2 i).
        destruct (string_dec id i) as [->|Hne].
        -- rewrite Hnew, one_same. lia.
        -- rewrite one_other by auto. lia.
      * intros i Hin. apply cnt_in in Hin. rewrite Hcnt in Hin. simpl.
        destruct (status_of_send_insert _ _ _ _ _ _ _ _ i Hins) as [Hn ->].
        destruct (string_dec id i) as [->|Hne].
        -- rewrite Hn, String.eqb_refl. auto.
        -- rewrite one_other in Hin by auto.
           assert (Hi : In i (held s)) by (apply cnt_in; lia).
           apply S3 in Hi. destruct Hi as [-> | ->]; auto.
  - (* poll *)
    apply (sends_inv_same s); [reflexivity | | exact I].
    intros i. destruct (poll_remaining ok (d_job d) (st_db s) =? 0)%nat;
      held_sum; lia.
  - (* update *)
    apply (sends_inv_same s); [| | exact I].
    + unfold finish_job. destruct ok; reflexivity.
    + intros i. held_sum. lia.
  - (* mark *)
    destruct I as [S1 S2 S3].
    assert (Hcnt : forall i, cnt i (held (with_workers
                 (with_db s (worker_mark ok t (st_db s)))
                 (ws1 ++ WSend t :: ws2))) = cnt i (held s)).
    { intros i. held_sum. lia. }
    constructor.
    + simpl. rewrite worker_mark_keys. exact S1.
    + apply cnt_nodup. intros i. rewrite Hcnt. apply cnt_nodup. exact S2.
    + intros i Hin. apply cnt_in in Hin. rewrite Hcnt in Hin.
      apply cnt_in in Hin. apply S3 in Hin. simpl.
      destruct (worker_mark_status ok t i (st_db s)) as [-> | [_ ->]]; auto.
      destruct Hin as [-> | ->]; auto.
  - (* send *)
    destruct I as [S1 S2 S3].
    assert (Hcnt : forall i, cnt i (held s)
               = cnt i (held (with_outbox (with_workers
                   (with_db s (worker_record (doSend smtp t) (st_clock s) ok t
                                 (st_db s)))
                   (ws1 ++ WIdle :: ws2)) (st_outbox s ++ [t])))
                 + one i (SendID t)).
    { intros i. held_sum. lia. }
    constructor.
    + simpl. rewrite worker_record_keys. exact S1.
    + apply cnt_nodup. intros i. rewrite cnt_nodup in S2.
      specialize (S2 i). rewrite Hcnt in S2. lia.
    + intros i Hin. apply cnt_in in Hin.
      rewrite cnt_nodup in S2. specialize (S2 i). rewrite Hcnt in S2.
      assert (Hi : In i (held s)) by (apply cnt_in; rewrite Hcnt; lia).
      apply S3 in Hi. simpl.
      destruct (worker_record_status (doSend smtp t) (st_clock s) ok t i
                  (st_db s)) as [-> | [-> _]]; auto.
      rewrite one_same in S2. lia.
Qed.

Lemma reachable_sends_inv s : reachable s -> sends_inv s.
Proof.
  induction 1 as [t0|s s' _ IH Hstep].
  - apply sends_inv_init.
  - eapply step_sends_inv; eauto.
Qed.

(** * How one step changes the sends table *)

Lemma in_held_worker s ws1 w ws2 t :
  st_workers s = ws1 ++ w :: ws2 ->
  worker_tasks w = [t] ->
  In (SendID t) (held s).
Proof.
  intros Hw Ht. apply cnt_in. held_sum. rewrite Ht. held_sum.
  rewrite one_same. lia.
Qed.

(** A step leaves the sends table alone, or is the INSERT of a dispatcher
    that stands in its first loop, or is an UPDATE by the worker that holds
    the task of that Send; the UPDATE keeps id and job id. *)
Lemma step_send_effect s s' :
  step s s' ->
  sends (st_db s') = sends (st_db s)
  \/ (exists d r rest tasks id,
        In d (st_disp s) /\ d_phase d = DRows (r :: rest) tasks /\
        insert_send id (d_job d) (sr_id r) (sr_email r) "queued" (st_clock s)
                    (st_db s) = Some (st_db s'))
  \/ (exists id f,
        In id (held s) /\
        (forall x, send_id (f x) = send_id x /\
                   send_job_id (f x) = send_job_id x /\
                   send_subscriber_id (f x) = send_subscriber_id x) /\
        (forall x, send_status (f x) = "sending" \/
                   terminal_send_status (send_status (f x))) /\
        st_db s' = with_sends (st_db s)
                     (update_where send_id id f (sends (st_db s)))).
Proof.
  intros Hstep. destruct Hstep; simpl; auto.
  - unfold insert_job in H. destruct (has_key _ _ _); [discriminate|].
    inversion H. auto.
  - unfold insert_subscriber in H. destruct (_ || _); [discriminate|].
    inversion H. auto.
  - unfold claim_row in H0.
    destruct scan_ok, exec_ok; inversion H0; subst; auto.
  - unfold fail_job. destruct ok; auto.
  - destruct (expand_row_cases _ _ _ _ _ _ _ _ _ H1) as [[-> ->]|[Hins ->]];
      auto.
    right. left. exists d, r, rest, tasks, id. repeat split; auto.
    rewrite H. apply in_or_app. right. left. reflexivity.
  - unfold finish_job. destruct ok; auto.
  - unfold worker_mark. destruct ok; simpl; auto.
    right. right. exists (SendID t), set_send_sending. repeat split; auto.
    eapply in_held_worker; eauto.
  - assert (Hheld : In (SendID t) (held s))
      by (eapply in_held_worker; eauto).
    unfold worker_record. destruct (doSend smtp t) as [msg|], ok; simpl; auto.
    + right. right. exists (SendID t), (set_send_failed msg).
      repeat split; auto. intros x. right. right. reflexivity.
    + right. right. exists (SendID t), (set_send_sent (st_clock s)).
      repeat split; auto. intros x. right. left. reflexivity.
Qed.

(** A Send whose status is sent or failed is left as it is by every step. *)
Lemma step_send_terminal s s' id x :
  sends_inv s -> step s s' ->
  find_send id (st_db s) = Some x ->
  terminal_send_status (send_status x) ->
  find_send id (st_db s') = Some x.
Proof.
  intros I Hstep Hf Ht.
  destruct (step_send_effect _ _ Hstep)
    as [E|[[d [r [rest [tasks [i [_ [_ E]]]]]]]|[i [f [Hin [Hk [_ E]]]]]]].
  - unfold find_send in *. rewrite E. exact Hf.
  - destruct (find_send_insert _ _ _ _ _ _ _ _ id E) as [_ [_ ->]].
    rewrite Hf. reflexivity.
  - rewrite E, find_send_update by (intros y; apply Hk). clear E.
    destruct (id =? i) eqn:K; auto.
    apply String.eqb_eq in K. subst i.
    apply (si_held s I) in Hin. unfold status_of_send in Hin.
    rewrite Hf in Hin. simpl in Hin. unfold terminal_send_status in Ht.
    destruct Hin as [Hin|Hin]; inversion Hin; destruct Ht; congruence.
Qed.

(** * The Sends of one job *)

Lemma sends_of_sends id db db' :
  sends db' = sends db -> sends_of id db' = sends_of id db.
Proof. unfold sends_of. intros ->. reflexivity. Qed.

Lemma sends_of_update id i f db :
  (forall x, send_job_id (f x) = send_job_id x) ->
  sends_of id (with_sends db (update_where send_id i f (sends db)))
  = update_where send_id i f (sends_of id db).
Proof.
  intros Hf. unfold sends_of. simpl.
  induction (sends db) as [|x l IH]; simpl; auto.
  destruct (send_id x =? i) eqn:K.
  - rewrite Hf. destruct (send_job_id x =? id); simpl; rewrite ?K, IH; auto.
  - destruct (send_job_id x =? id); simpl; rewrite ?K, IH; auto.
Qed.

Lemma sends_of_insert id' id jobID sid email st now db db' :
  insert_send id jobID sid email st now db = Some db' ->
  sends_of id' db'
  = sends_of id' db ++
    (if jobID =? id'
     then [{| send_id := id; send_job_id := jobID; send_subscriber_id := sid;
              send_email := email; send_status := st; send_attempts := 0%Z;
              send_last_error := None; send_created_at := now;
              send_sent_at := None |}]
     else []).
Proof.
  unfold insert_send. destruct (has_key _ _ _); [discriminate|].
  intros H. inversion H; subst; clear H.
  unfold sends_of. simpl. rewrite filter_app. simpl.
  destruct (jobID =? id'); reflexivity.
Qed.

Lemma send_ids_of_sends id db db' :
  sends db' = sends db -> send_ids_of id db' = send_ids_of id db.
Proof. unfold send_ids_of. intros H. rewrite (sends_of_sends _ _ _ H). reflexivity. Qed.

Lemma send_ids_of_update id i f db :
  (forall x, send_id (f x) = send_id x) ->
  (forall x, send_job_id (f x) = send_job_id x) ->
  send_ids_of id (with_sends db (update_where send_id i f (sends db)))
  = send_ids_of id db.
Proof.
  intros Hk Hj. unfold send_ids_of. rewrite sends_of_update by exact Hj.
  apply update_where_keys. exact Hk.
Qed.

Lemma send_ids_of_insert id' id jobID sid email st now db db' :
  insert_send id jobID sid email st now db = Some db' ->
  send_ids_of id' db'
  = send_ids_of id' db ++ (if jobID =? id' then [id] else []).
Proof.
  intros H. unfold send_ids_of.
  rewrite (sends_of_insert id' _ _ _ _ _ _ _ _ H), map_app.
  destruct (jobID =? id'); reflexivity.
Qed.

(** The Sends of a job change in one step only by the INSERT of a
    dispatcher of that job that stands in its first loop. *)
Lemma step_send_ids s s' id :
  step s s' ->
  send_ids_of id (st_db s') = send_ids_of id (st_db s)
  \/ (exists d r rest tasks new,
        In d (st_disp s) /\ d_job d = id /\
        d_phase d = DRows (r :: rest) tasks /\
        send_ids_of id (st_db s') = send_ids_of id (st_db s) ++ [new]).
Proof.
  intros Hstep.
  destruct (step_send_effect _ _ Hstep)
    as [E|[[d [r [rest [tasks [i [Hin [Hp E]]]]]]]|[i [f [Hin [Hk [_ E]]]]]]].
  - left. apply send_ids_of_sends. exact E.
  - rewrite (send_ids_of_insert id _ _ _ _ _ _ _ _ E).
    destruct (d_job d =? id) eqn:K.
    + apply String.eqb_eq in K. right. exists d, r, rest, tasks, i. auto.
    + left. apply app_nil_r.
  - left. rewrite E. apply send_ids_of_update; intros x; apply Hk.
Qed.

(** No step makes a job pending that was claimed before. *)
Lemma step_status_back s s' id :
  jobs_inv s -> step s s' ->
  status_of_job id (st_db s') = None \/
  status_of_job id (st_db s') = Some "pending" ->
  status_of_job id (st_db s) = None \/
  status_of_job id (st_db s) = Some "pending".
Proof.
  intros J Hstep H'.
  destruct (status_of_job id (st_db s)) as [st|] eqn:Hs; auto.
  destruct (step_job_status _ _ _ _ J Hstep Hs) as [st' [Hs' Hst]].
  rewrite Hs' in H'. destruct H' as [H'|H']; [discriminate|].
  inversion H'; subst st'. right. f_equal.
  unfold job_edge, terminal_job_status in Hst.
  destruct Hst as [H|[[_ H]|[_ [H|[H|H]]]]]; congruence.
Qed.

(** * The expansion invariant *)

Lemma send_ids_of_exec_job ok st now jobID id db :
  send_ids_of id (exec ok (update_job_done st now jobID) db) = send_ids_of id db.
Proof. destruct ok; reflexivity. Qed.

Lemma send_ids_of_mark ok t id db :
  send_ids_of id (worker_mark ok t db) = send_ids_of id db.
Proof.
  unfold worker_mark. destruct ok; simpl; auto.
  apply send_ids_of_update; reflexivity.
Qed.

Lemma send_ids_of_record err now ok t id db :
  send_ids_of id (worker_record err now ok t db) = send_ids_of id db.
Proof.
  unfold worker_record. destruct err, ok; simpl; auto;
    apply send_ids_of_update; reflexivity.
Qed.

Lemma send_ids_of_claim scan_ok exec_ok r db db' spawned id :
  claim_row scan_ok exec_ok r db = (db', spawned) ->
  send_ids_of id db' = send_ids_of id db.
Proof.
  unfold claim_row. destruct scan_ok, exec_ok; intros H; inversion H; reflexivity.
Qed.

Lemma in_middle {A : Type} (l1 l2 : list A) (x y : A) :
  In y (l1 ++ x :: l2) <-> y = x \/ In y (l1 ++ l2).
Proof. rewrite !in_app_iff. simpl. intuition congruence. Qed.

Lemma nodup_middle_job ds1 d ds2 d' :
  NoDup (map d_job (ds1 ++ d :: ds2)) ->
  In d' (ds1 ++ ds2) -> d_job d' <> d_job d.
Proof.
  rewrite map_app. simpl. intros Hnd Hin Heq.
  apply NoDup_remove_2 in Hnd. apply Hnd. rewrite <- map_app, <- Heq.
  apply in_map. exact Hin.
Qed.

Lemma step_ei_pending s s' id :
  jobs_inv s -> expand_inv s -> step s s' ->
  status_of_job id (st_db s') = None \/
  status_of_job id (st_db s') = Some "pending" ->
  send_ids_of id (st_db s') = [].
Proof.
  intros J [E1 E2] Hstep H'.
  pose proof (step_status_back _ _ _ J Hstep H') as Hs.
  destruct (step_send_ids _ _ id Hstep)
    as [->|[d [r [rest [tasks [new [Hin [Hj [_ _]]]]]]]]]; auto.
  exfalso. subst id.
  rewrite (ji_disp s J (d_job d)) in Hs by (apply in_map; exact Hin).
  destruct Hs; discriminate.
Qed.

(** The other dispatchers keep what the invariant says of them when one
    dispatcher moves on and the Sends of their jobs stay. *)
Lemma ei_disp_replace s ds1 d ds2 p db' :
  expand_inv s ->
  st_disp s = ds1 ++ d :: ds2 ->
  (forall d', In d' (ds1 ++ ds2) ->
     send_ids_of (d_job d') db' = send_ids_of (d_job d') (st_db s)) ->
  phase_ok p (send_ids_of (d_job d) db') ->
  forall d', In d' (ds1 ++ set_phase d p :: ds2) ->
    phase_ok (d_phase d') (send_ids_of (d_job d') db').
Proof.
  intros [E1 E2] Hd Hsame Hp d' Hin.
  apply in_middle in Hin. destruct Hin as [->|Hin].
  - exact Hp.
  - rewrite Hsame by exact Hin. apply E2. rewrite Hd.
    apply in_middle. auto.
Qed.

Lemma step_expand_inv s s' :
  jobs_inv s -> expand_inv s -> step s s' -> expand_inv s'.
Proof.
  intros J E Hstep. constructor.
  { intros id. apply (step_ei_pending s); auto. }
  pose proof E as [E1 E2].
  destruct Hstep; cbn [st_db st_disp with_db with_clock with_sched with_disp
                       with_queue with_workers with_outbox restart];
    try exact E2;
    try (apply (ei_disp_replace s); auto; simpl; exact I).
  - (* restart *) intros d [].
  - (* schedule *)
    intros d Hin. rewrite (send_ids_of_sends (d_job d) (st_db s) db'); auto.
    unfold insert_job in H. destruct (has_key _ _ _); [discriminate|].
    inversion H. reflexivity.
  - (* upload *)
    intros d Hin. rewrite (send_ids_of_sends (d_job d) (st_db s) db'); auto.
    unfold insert_subscriber in H. destruct (_ || _); [discriminate|].
    inversion H. reflexivity.
  - (* tick_row *)
    intros d Hin. rewrite (send_ids_of_claim _ _ _ _ _ _ (d_job d) H0).
    apply in_app_or in Hin. destruct Hin as [Hin|Hin]; auto.
    destruct spawned as [r'|]; [|destruct Hin].
    destruct Hin as [<-|[]]. simpl.
    unfold claim_row in H0.
    destruct scan_ok, exec_ok; inversion H0; subst r'.
    apply E1. right.
    destruct (ji_rows s J _ r H (or_introl eq_refl)) as [j [Hf [Hp _]]].
    unfold status_of_job. rewrite Hf. simpl. congruence.
  - (* enum *)
    apply (ei_disp_replace s); auto.
    assert (Hd : send_ids_of (d_job d) (st_db s) = []).
    { specialize (E2 d). rewrite H0 in E2. apply E2. rewrite H.
      apply in_middle. auto. }
    destruct (enumerate ok (st_db s)); simpl; exact Hd.
  - (* enum_failed *)
    intros d' Hin. unfold fail_job. rewrite send_ids_of_exec_job.
    apply E2. rewrite H. apply in_middle. auto.
  - (* row *)
    pose proof (ji_disp_nodup s J) as Hnd. rewrite H in Hnd.
    assert (Hd : send_ids_of (d_job d) (st_db s) = map SendID tasks).
    { specialize (E2 d). rewrite H0 in E2. apply E2. rewrite H.
      apply in_middle. auto. }
    destruct (expand_row_cases _ _ _ _ _ _ _ _ _ H1) as [[-> ->]|[Hins ->]].
    + apply (ei_disp_replace s); auto.
    + simpl in Hins. apply (ei_disp_replace s); auto.
      * intros d' Hin.
        rewrite (send_ids_of_insert (d_job d') _ _ _ _ _ _ _ _ Hins).
        pose proof (nodup_middle_job _ _ _ _ Hnd Hin) as Hne.
        destruct (d_job d =? d_job d') eqn:K.
        -- apply String.eqb_eq in K. congruence.
        -- apply app_nil_r.
      * simpl. rewrite (send_ids_of_insert (d_job d) _ _ _ _ _ _ _ _ Hins).
        rewrite String.eqb_refl, Hd, map_app. reflexivity.
  - (* poll *)
    apply (ei_disp_replace s); auto.
    destruct (poll_remaining ok (d_job d) (st_db s) =? 0)%nat; exact I.
  - (* update *)
    intros d' Hin. unfold finish_job. rewrite send_ids_of_exec_job.
    apply E2. rewrite H. apply in_middle. auto.
  - (* mark *)
    intros d Hin. rewrite send_ids_of_mark. auto.
  - (* send *)
    intros d Hin. rewrite send_ids_of_record. auto.
Qed.

Lemma expand_inv_init t0 : expand_inv (init t0).
Proof. constructor; simpl; auto. intros d []. Qed.

Lemma reachable_expand_inv s : reachable s -> expand_inv s.
Proof.
  induction 1 as [t0|s s' Hr IH Hstep].
  - apply expand_inv_init.
  - eapply step_expand_inv; eauto. apply reachable_jobs_inv. exact Hr.
Qed.

(** * [enqueueDueJobs] as a function *)

Lemma in_select_due now db r :
  In r (select_due_jobs now db) <->
  exists j, In j (jobs db) /\ r = row_of_job j /\
            job_status j = "pending" /\ (job_scheduled_at j <= now)%Z.
Proof.
  unfold select_due_jobs. rewrite in_map_iff. split.
  - intros [j [<- Hj]]. apply filter_In in Hj. destruct Hj as [Hj Hd].
    unfold is_due in Hd. apply andb_true_iff in Hd. destruct Hd as [Hp Hs].
    apply String.eqb_eq in Hp. apply Z.leb_le in Hs. exists j. auto.
  - intros [j [Hj [-> [Hp Hs]]]]. exists j. split; auto.
    apply filter_In. split; auto. unfold is_due.
    rewrite Hp, String.eqb_refl. simpl. apply Z.leb_le. exact Hs.
Qed.

Lemma claim_rows_spawned e rows db :
  snd (claim_rows e rows db) = filter (claimable e) rows.
Proof.
  revert db. induction rows as [|r rows IH]; intros db; simpl; auto.
  unfold claimable at 1. unfold claim_row.
  destruct (te_scan_ok e (jr_id r)), (te_exec_ok e (jr_id r)); simpl;
    match goal with
    | |- context [claim_rows e rows ?d] =>
        specialize (IH d); destruct (claim_rows e rows d); simpl in *;
        congruence
    end.
Qed.

Lemma claim_rows_other e rows db :
  sends (fst (claim_rows e rows db)) = sends db /\
  subscribers (fst (claim_rows e rows db)) = subscribers db.
Proof.
  revert db. induction rows as [|r rows IH]; intros db; simpl; auto.
  unfold claim_row.
  destruct (te_scan_ok e (jr_id r)), (te_exec_ok e (jr_id r)); simpl;
    match goal with
    | |- context [claim_rows e rows ?d] =>
        specialize (IH d); destruct (claim_rows e rows d); simpl in *;
        exact IH
    end.
Qed.

Lemma claim_rows_find e rows db id :
  find_job id (fst (claim_rows e rows db))
  = if existsb (fun r => (jr_id r =? id) && claimable e r) rows
    then option_map (set_job_status "running") (find_job id db)
    else find_job id db.
Proof.
  revert db. induction rows as [|r rows IH]; intros db; simpl; auto.
  unfold claimable at 1. unfold claim_row.
  destruct (te_scan_ok e (jr_id r)) eqn:S, (te_exec_ok e (jr_id r)) eqn:X;
    simpl; rewrite ?andb_false_r; simpl;
    match goal with
    | |- context [claim_rows e rows ?d] =>
        specialize (IH d); destruct (claim_rows e rows d) as [db2 more];
        simpl in *; rewrite IH
    end; auto.
  rewrite find_job_update_status, andb_true_r.
  rewrite (String.eqb_sym (jr_id r) id).
  destruct (id =? jr_id r); simpl; auto.
  destruct (existsb _ rows); auto.
  destruct (find_job id db) as [j|]; simpl; auto.
Qed.

Lemma selected_ids_pending now db id :
  NoDup (map job_id (jobs db)) ->
  In id (map jr_id (select_due_jobs now db)) ->
  exists j, find_job id db = Some j /\ job_status j = "pending" /\
            (job_scheduled_at j <= now)%Z.
Proof.
  intros Hnd Hin. apply in_map_iff in Hin. destruct Hin as [r [<- Hr]].
  apply in_select_due in Hr. destruct Hr as [j [Hj [-> [Hp Hs]]]].
  exists j. repeat split; auto. simpl. unfold find_job.
  apply find_in_nodup; auto.
Qed.

Lemma existsb_claim_false e rows id :
  ~ In id (map jr_id rows) ->
  existsb (fun r => (jr_id r =? id) && claimable e r) rows = false.
Proof.
  intros Hn. apply not_true_is_false. intros Hex.
  apply existsb_exists in Hex. destruct Hex as [r [Hr Hc]].
  apply andb_true_iff in Hc. destruct Hc as [Hid _].
  apply String.eqb_eq in Hid. apply Hn. rewrite <- Hid. apply in_map. exact Hr.
Qed.

(** * The run of the example *)

Lemma demo_run : run demo_trace.
Proof.
  unfold demo_trace.
  apply run_cons.
  { exact (step_upload demo_s0 "u1" "a@example.com" demo_db1 eq_refl). }
  apply run_cons.
  { exact (step_schedule demo_s1 "j1" "Hello" "World" 100 demo_db2 eq_refl). }
  apply run_cons.
  { exact (step_tick_query demo_s2 true eq_refl). }
  apply run_cons.
  { exact (step_tick_row demo_s3 demo_row [] true true demo_db4
             (Some demo_row) eq_refl eq_refl). }
  apply run_cons.
  { exact (step_tick_end demo_s4 eq_refl). }
  apply run_cons.
  { exact (step_enum demo_s5 [] (demo_d DStart) [] true eq_refl eq_refl). }
  apply run_cons.
  { exact (step_row demo_s6 [] (demo_d (DRows [demo_sub] [])) [] demo_sub []
             [] true "s1" true demo_db7 [demo_task] eq_refl eq_refl eq_refl). }
  apply run_cons.
  { exact (step_rows_end demo_s7 [] (demo_d (DRows [] [demo_task])) []
             [demo_task] eq_refl eq_refl). }
  apply run_cons.
  { refine (step_submit demo_s8 [] (demo_d (DSubmit [demo_task])) []
              demo_task [] eq_refl eq_refl _).
    unfold taskQueueSize. simpl. lia. }
  apply run_cons.
  { exact (step_submit_end demo_s9 [] (demo_d (DSubmit [])) [] eq_refl eq_refl). }
  apply run_cons.
  { exact (step_recv demo_s10 [] [WIdle; WIdle; WIdle] demo_task [] eq_refl
             eq_refl). }
  apply run_cons.
  { exact (step_mark demo_s11 [] [WIdle; WIdle; WIdle] demo_task true eq_refl). }
  apply run_cons.
  { exact (step_send demo_s12 [] [WIdle; WIdle; WIdle] demo_task demo_mock
             true eq_refl). }
  apply run_cons.
  { exact (step_poll demo_s13 [] (demo_d DPoll) [] true eq_refl eq_refl). }
  apply run_cons.
  { exact (step_count demo_s14 [] (demo_d DCount) [] true eq_refl eq_refl). }
  apply run_cons.
  { exact (step_update demo_s15 [] (demo_d (DUpdate 0)) [] 0 true eq_refl
             eq_refl). }
  apply run_one.
Qed.

Lemma run_reachable tr : forall s,
  reachable s -> run (s :: tr) -> forall s', In s' (s :: tr) -> reachable s'.
Proof.
  induction tr as [|s1 tr IH]; intros s Hr Hrun s' Hin.
  - destruct Hin as [<-|[]]. exact Hr.
  - inversion Hrun; subst. destruct Hin as [<-|Hin]; auto.
    apply (IH s1); auto. eapply reach_step; eauto.
Qed.

Lemma steps_reachable s s' : reachable s -> steps s s' -> reachable s'.
Proof.
  intros Hr Hs. induction Hs as [|s s1 s2 _ IH Hstep]; auto.
  apply (reach_step s1); auto.
Qed.

Lemma demo_reachable s : In s demo_trace -> reachable s.
Proof.
  apply (run_reachable (tl demo_trace) demo_s0).
  - apply reach_init.
  - exact demo_run.
Qed.

Lemma demo_f6_step : step demo_s5 demo_f6.
Proof.
  exact (step_enum demo_s5 [] (demo_d DStart) [] false eq_refl eq_refl).
Qed.

Lemma demo_f6_reachable : reachable demo_f6.
Proof.
  apply (reach_step demo_s5).
  - apply demo_reachable. simpl. tauto.
  - exact demo_f6_step.
Qed.

Lemma demo_step_13_14 : step demo_s13 demo_s14.
Proof. exact (step_poll demo_s13 [] (demo_d DPoll) [] true eq_refl eq_refl). Qed.

Lemma demo_step_14_15 : step demo_s14 demo_s15.
Proof. exact (step_count demo_s14 [] (demo_d DCount) [] true eq_refl eq_refl). Qed.

Lemma demo_step_15_16 : step demo_s15 demo_s16.
Proof.
  exact (step_update demo_s15 [] (demo_d (DUpdate 0)) [] 0 true eq_refl eq_refl).
Qed.

Lemma demo_s13_reachable : reachable demo_s13.
Proof. apply demo_reachable. simpl. tauto. Qed.

Lemma demo_s15_reachable : reachable demo_s15.
Proof. apply demo_reachable. simpl. tauto. Qed.

(** * Claims of a job along a run *)

Lemma count_claims_bound id tr : forall s,
  jobs_inv s -> run (s :: tr) ->
  (match status_of_job id (st_db s) with
   | None => count_claims id (s :: tr) <= 1
   | Some st => if st =? "pending" then count_claims id (s :: tr) <= 1
                else count_claims id (s :: tr) = 0
   end).
Proof.
  induction tr as [|s1 tr IH]; intros s J Hrun.
  - simpl. destruct (status_of_job id (st_db s)) as [st|]; auto.
    destruct (st =? "pending"); auto.
  - inversion Hrun as [|? ? ? Hstep Hrun']; subst.
    pose proof (step_jobs_inv _ _ J Hstep) as J1.
    specialize (IH s1 J1 Hrun').
    change (count_claims id (s :: s1 :: tr))
      with ((if enters_running id s s1 then 1 else 0)
            + count_claims id (s1 :: tr)).
    unfold enters_running.
    destruct (status_of_job id (st_db s)) as [st|] eqn:Hs.
    + destruct (step_job_status _ _ _ _ J Hstep Hs) as [st' [Hs' Hst]].
      rewrite Hs' in *.
      destruct (st =? "pending") eqn:P.
      * apply String.eqb_eq in P. subst st.
        destruct Hst as [->|[[_ ->]|[H _]]]; [| |discriminate];
          cbn [String.eqb Ascii.eqb Bool.eqb negb andb] in *; lia.
      * destruct Hst as [->|[[H _]|[-> Ht]]].
        -- rewrite P in IH. rewrite IH.
           destruct (st =? "running"); reflexivity.
        -- subst st. discriminate.
        -- assert (Hp : (st' =? "pending") = false).
           { apply String.eqb_neq. unfold terminal_job_status in Ht.
             destruct Ht as [-> | [-> | ->]]; discriminate. }
           rewrite Hp in IH. rewrite IH. reflexivity.
    + destruct (step_job_new _ _ id Hstep Hs) as [Hn|Hn]; rewrite Hn in *;
        cbn [String.eqb Ascii.eqb Bool.eqb negb andb] in *; lia.
Qed.

(** * After the first loop of a dispatcher *)

Lemma step_expanded s s' id :
  jobs_inv s -> step s s' -> expanded id s ->
  expanded id s' /\ send_ids_of id (st_db s') = send_ids_of id (st_db s).
Proof.
  intros J Hstep [[st [Hst Hnp]] Hd]. split; [split|].
  - destruct (step_job_status _ _ _ _ J Hstep Hst) as [st' [Hst' He]].
    exists st'. split; auto. destruct He as [->|He]; auto.
    unfold job_edge, terminal_job_status in He.
    destruct He as [[_ ->]|[_ [-> | [-> | ->]]]]; discriminate.
  - assert (Hrepl : forall ds1 d ds2 p,
              st_disp s = ds1 ++ d :: ds2 ->
              (d_job d = id ->
               match p with DStart | DRows _ _ => False | _ => True end) ->
              forall d', In d' (ds1 ++ set_phase d p :: ds2) -> d_job d' = id ->
                match d_phase d' with
                | DStart | DRows _ _ => False
                | _ => True
                end).
    { intros ds1 d ds2 p Hl Hp d' Hin Hj. apply in_middle in Hin.
      destruct Hin as [->|Hin].
      - apply Hp. exact Hj.
      - apply Hd; auto. rewrite Hl. apply in_middle. auto. }
    assert (Hrem : forall ds1 d ds2,
              st_disp s = ds1 ++ d :: ds2 ->
              forall d', In d' (ds1 ++ ds2) -> d_job d' = id ->
                match d_phase d' with
                | DStart | DRows _ _ => False
                | _ => True
                end).
    { intros ds1 d ds2 Hl d' Hin Hj. apply Hd; auto. rewrite Hl.
      apply in_middle. auto. }
    assert (Hown : forall ds1 d ds2,
              st_disp s = ds1 ++ d :: ds2 -> d_job d = id ->
              match d_phase d with
              | DStart | DRows _ _ => False
              | _ => True
              end).
    { intros ds1 d ds2 Hl Hj. apply Hd; auto. rewrite Hl.
      apply in_middle. auto. }
    destruct Hstep; cbn [st_disp with_db with_clock with_sched with_disp
                         with_queue with_workers with_outbox restart];
      try exact Hd;
      try (apply (Hrem _ _ _ H); fail);
      try (apply (Hrepl _ _ _ _ H); intros Hj;
           try exact I;
           pose proof (Hown _ _ _ H Hj) as Ho; rewrite H0 in Ho;
           try exact Ho; try destruct Ho; fail).
    + (* restart *) intros d [].
    + (* tick_row *)
      intros d Hin Hj. apply in_app_or in Hin.
      destruct Hin as [Hin|Hin]; [exact (Hd d Hin Hj)|].
      destruct (ji_rows s J _ r H (or_introl eq_refl)) as [j [Hf [Hp _]]].
      destruct spawned as [r'|]; [|destruct Hin]. destruct Hin as [<-|[]].
      simpl in Hj. unfold claim_row in H0.
      destruct scan_ok, exec_ok; inversion H0; subst.
      unfold status_of_job in Hst. rewrite Hf in Hst. simpl in Hst.
      congruence.
    + (* poll *)
      apply (Hrepl _ _ _ _ H). intros _.
      destruct (poll_remaining ok (d_job d) (st_db s) =? 0)%nat; exact I.
  - destruct (step_send_ids _ _ id Hstep)
      as [E|[d [r [rest [tasks [new [Hin [Hj [Hp _]]]]]]]]]; auto.
    specialize (Hd d Hin Hj). rewrite Hp in Hd. destruct Hd.
Qed.

Lemma steps_expanded s s' id :
  reachable s -> steps s s' -> expanded id s ->
  expanded id s' /\ send_ids_of id (st_db s') = send_ids_of id (st_db s).
Proof.
  intros Hr Hs He. induction Hs as [|s s1 s2 Hs IH Hstep]; auto.
  destruct (IH Hr He) as [He1 Hids].
  pose proof (steps_reachable _ _ Hr Hs) as Hr1.
  destruct (step_expanded _ _ id (reachable_jobs_inv _ Hr1) Hstep He1)
    as [He2 Hids2].
  split; auto. congruence.
Qed.


(** * C1 *)

(** C1, as stated, fails: the UPDATE of [enqueueDueJobs] is keyed on the
    id alone.  Issued a second time on the job "j1", which the first claim
    has made running, it affects one row, not zero, and [claim_row] starts a
    second dispatcher; issued on the completed job of the example it makes
    the job running again. *)
Lemma claim_update_unconditional :
  status_of_job "j1" demo_db4 = Some "running" /\
  rows_affected job_id "j1" (jobs demo_db4) = 1 /\
  claim_row true true demo_row demo_db4 = (demo_db4, Some demo_row) /\
  status_of_job "j1" (st_db demo_s16) = Some "completed" /\
  status_of_job "j1" (update_job_status "running" "j1" (st_db demo_s16))
  = Some "running".
Proof. repeat split; reflexivity. Qed.

(** C1 (amended): the claim of a due job is an UPDATE keyed on the job id
    alone, which sets the status to running whatever it was and affects the
    row of every existing job; the guard is the status filter of the
    SELECT before it.  With the one scheduler loop of the program the row
    the loop stands on is still pending when the UPDATE is issued, the
    UPDATE affects exactly one row, and along every run of the system every
    job enters running at most once. *)
Theorem claim_at_most_once (t0 : Z) (tr : list State) (id : string)
    (Hrun : run (init t0 :: tr)) :
  count_claims id (init t0 :: tr) <= 1 /\
  (forall s r rest,
     In s (init t0 :: tr) -> st_sched s = SRows (r :: rest) ->
     status_of_job (jr_id r) (st_db s) = Some "pending" /\
     rows_affected job_id (jr_id r) (jobs (st_db s)) = 1) /\
  (forall db i j,
     find_job i db = Some j ->
     status_of_job i (update_job_status "running" i db) = Some "running" /\
     1 <= rows_affected job_id i (jobs db)).
Proof.
  repeat split.
  - pose proof (count_claims_bound id tr (init t0) (jobs_inv_init t0) Hrun) as H.
    simpl in H. exact H.
  - pose proof (run_reachable tr (init t0) (reach_init t0) Hrun s H) as Hr.
    apply reachable_jobs_inv in Hr.
    destruct (ji_rows s Hr _ r H0 (or_introl eq_refl)) as [j [Hf [Hp _]]].
    unfold status_of_job. rewrite Hf. simpl. congruence.
  - pose proof (run_reachable tr (init t0) (reach_init t0) Hrun s H) as Hr.
    apply reachable_jobs_inv in Hr.
    destruct (ji_rows s Hr _ r H0 (or_introl eq_refl)) as [j [Hf _]].
    apply rows_affected_nodup.
    + apply (ji_nodup s Hr).
    + apply (status_of_job_in _ _ (job_status j)). unfold status_of_job.
      rewrite Hf. reflexivity.
  - rewrite status_of_job_update_status, String.eqb_refl.
    unfold status_of_job. rewrite H. reflexivity.
  - apply rows_affected_pos. apply (status_of_job_in _ _ (job_status j)).
    unfold status_of_job. rewrite H. reflexivity.
Qed.

Lemma claim_at_most_once_witness :
  count_claims "j1" demo_trace = 1 /\ count_claims "j1" demo_trace <= 1.
Proof.
  split.
  - reflexivity.
  - exact (proj1 (claim_at_most_once 100 (tl demo_trace) "j1" demo_run)).
Defined.

(** * The finalization *)

Lemma filter_length_zero {A : Type} (p : A -> bool) (l : list A) :
  length (filter p l) = 0 <-> forall x, In x l -> p x = false.
Proof.
  induction l as [|y l IH]; simpl.
  - split; auto. intros _ x [].
  - destruct (p y) eqn:E; simpl.
    + split; [discriminate|]. intros H. specialize (H y (or_introl eq_refl)).
      congruence.
    + rewrite IH. split.
      * intros H x [<-|Hx]; auto.
      * intros H x Hx. apply H. auto.
Qed.


(** * C4 *)

(** C4, as stated, fails: running is one of the four statuses to the right
    of pending, and it is not absorbing.  In the run of the example the job
    "j1" is running in a reachable state and the last UPDATE of its
    dispatcher makes it completed. *)
Lemma running_is_not_absorbing :
  reachable demo_s15 /\ step demo_s15 demo_s16 /\
  status_of_job "j1" (st_db demo_s15) = Some "running" /\
  status_of_job "j1" (st_db demo_s16) = Some "completed".
Proof.
  split; [exact demo_s15_reachable|].
  split; [exact demo_step_15_16|].
  split; reflexivity.
Qed.

Lemma edge_from_terminal st st' :
  terminal_job_status st -> job_edge st st' -> False.
Proof.
  unfold terminal_job_status, job_edge.
  intros [-> | [-> | ->]] [[H _]|[H _]]; discriminate.
Qed.

Lemma steps_job_terminal s s' id st :
  reachable s -> steps s s' ->
  status_of_job id (st_db s) = Some st -> terminal_job_status st ->
  status_of_job id (st_db s') = Some st.
Proof.
  intros Hr Hs Hst Ht. induction Hs as [|s s1 s2 Hs IH Hstep]; auto.
  specialize (IH Hr Hst).
  pose proof (steps_reachable _ _ Hr Hs) as Hr1.
  destruct (step_job_status _ _ _ _ (reachable_jobs_inv _ Hr1) Hstep IH)
    as [st' [Hs' [->|He]]]; auto.
  exfalso. eapply edge_from_terminal; eauto.
Qed.

(** C4 (amended): in every reachable state the status of every job is one
    of pending, running, completed, completed_with_errors, failed; every
    step leaves the status of a job as it is or moves it along one edge of
    pending -> running -> {completed, completed_with_errors, failed}; and
    the three statuses completed, completed_with_errors and failed are
    absorbing: no step, and no sequence of steps, takes a job out of them
    (running is left, by the dispatcher of the job). *)
Theorem job_status_machine (s : State) (Hr : reachable s) :
  (forall j, In j (jobs (st_db s)) -> valid_job_status (job_status j)) /\
  (forall s' id st,
     step s s' -> status_of_job id (st_db s) = Some st ->
     exists st', status_of_job id (st_db s') = Some st' /\
                 (st' = st \/ job_edge st st')) /\
  (forall s' id st,
     steps s s' -> status_of_job id (st_db s) = Some st ->
     terminal_job_status st ->
     status_of_job id (st_db s') = Some st).
Proof.
  pose proof (reachable_jobs_inv _ Hr) as J. repeat split.
  - apply (ji_valid s J).
  - intros s' id st Hstep Hs. eapply step_job_status; eauto.
  - intros s' id st Hs Hst Ht. eapply steps_job_terminal; eauto.
Qed.

Lemma job_status_machine_witness :
  exists st', status_of_job "j1" (st_db demo_s16) = Some st' /\
              (st' = "running" \/ job_edge "running" st').
Proof.
  exact (proj1 (proj2 (job_status_machine demo_s15 demo_s15_reachable))
           demo_s16 "j1" "running" demo_step_15_16 eq_refl).
Defined.

(** * C5 *)




(** * What a tick selects *)

Lemma enqueue_find_unselected e db id :
  ~ In id (map jr_id (select_due_jobs (te_now e) db)) ->
  find_job id (fst (enqueueDueJobs e db)) = find_job id db /\
  ~ In id (map jr_id (snd (enqueueDueJobs e db))).
Proof.
  intros Hn. unfold enqueueDueJobs. destruct (te_query_ok e); simpl; auto.
  split.
  - rewrite claim_rows_find, existsb_claim_false; auto.
  - rewrite claim_rows_spawned. intros Hin. apply Hn.
    apply in_map_iff in Hin. destruct Hin as [r [<- Hr]].
    apply filter_In in Hr. apply in_map. tauto.
Qed.

Lemma enqueue_changes_selected e db id :
  find_job id (fst (enqueueDueJobs e db)) <> find_job id db \/
  In id (map jr_id (snd (enqueueDueJobs e db))) ->
  In id (map jr_id (select_due_jobs (te_now e) db)).
Proof.
  intros H.
  destruct (in_dec string_dec id (map jr_id (select_due_jobs (te_now e) db)))
    as [Hin|Hn]; auto.
  destruct (enqueue_find_unselected e db id Hn) as [H1 H2]. tauto.
Qed.

(** * C7 *)

(** C7: a Send whose status is sent or failed keeps its row, status
    included, through every step and every sequence of steps of the system
    from a reachable state; in particular it never becomes queued again. *)
Theorem send_terminal_absorbing (s s' : State) (id : string) (x : Send)
    (Hr : reachable s) (Hs : steps s s')
    (Hf : find_send id (st_db s) = Some x)
    (Ht : terminal_send_status (send_status x)) :
  find_send id (st_db s') = Some x /\
  status_of_send id (st_db s') = Some (send_status x).
Proof.
  assert (H : find_send id (st_db s') = Some x).
  { induction Hs as [|s s1 s2 Hs IH Hstep]; auto.
    specialize (IH Hr Hf).
    pose proof (steps_reachable _ _ Hr Hs) as Hr1.
    eapply step_send_terminal; eauto. apply reachable_sends_inv. exact Hr1. }
  split; auto. unfold status_of_send. rewrite H. reflexivity.
Qed.

Lemma send_terminal_absorbing_witness :
  status_of_send "s1" (st_db demo_s13) = Some "sent" /\
  status_of_send "s1" (st_db demo_s16) = Some "sent".
Proof.
  split; [reflexivity|].
  refine (proj2 (send_terminal_absorbing demo_s13 demo_s16 "s1" _
                   demo_s13_reachable _ eq_refl _)).
  - apply (steps_next _ demo_s15); [|exact demo_step_15_16].
    apply (steps_next _ demo_s14); [|exact demo_step_14_15].
    apply (steps_next _ demo_s13); [|exact demo_step_13_14].
    apply steps_refl.
  - left. reflexivity.
Defined.

(** * C9 *)

(** C9: a tick leaves the row of a job that is already running as it is,
    status included, starts no dispatcher for it, and leaves the sends
    table as it is, so it creates no Send at all; the same holds of the
    single UPDATE step of the scheduler in every reachable state of the
    running system. *)
Theorem tick_keeps_running_job (e : TickEnv) (db : Store) (id : string)
    (j : Job)
    (Hnd : NoDup (map job_id (jobs db)))
    (Hf : find_job id db = Some j)
    (Hrun : job_status j = "running") :
  find_job id (fst (enqueueDueJobs e db)) = Some j /\
  status_of_job id (fst (enqueueDueJobs e db)) = Some "running" /\
  ~ In id (map jr_id (snd (enqueueDueJobs e db))) /\
  sends (fst (enqueueDueJobs e db)) = sends db /\
  (forall s r rest scan_ok exec_ok db' spawned,
     reachable s -> st_sched s = SRows (r :: rest) ->
     status_of_job id (st_db s) = Some "running" ->
     claim_row scan_ok exec_ok r (st_db s) = (db', spawned) ->
     find_job id db' = find_job id (st_db s) /\
     sends db' = sends (st_db s) /\
     ~ In id (map d_job (spawn spawned))).
Proof.
  assert (Hn : ~ In id (map jr_id (select_due_jobs (te_now e) db))).
  { intros Hin.
    destruct (selected_ids_pending _ _ _ Hnd Hin) as [j0 [Hf0 [Hp _]]].
    congruence. }
  destruct (enqueue_find_unselected e db id Hn) as [H1 H2].
  split; [congruence|].
  split; [unfold status_of_job; rewrite H1, Hf; simpl; congruence|].
  split; [exact H2|].
  split.
  { unfold enqueueDueJobs. destruct (te_query_ok e); auto.
    apply claim_rows_other. }
  intros s r rest scan_ok exec_ok db' spawned Hr Hs Hst Hc.
  destruct (ji_rows s (reachable_jobs_inv _ Hr) _ r Hs (or_introl eq_refl))
    as [j0 [Hf0 [Hp _]]].
  assert (Hne : id <> jr_id r).
  { intros ->. unfold status_of_job in Hst. rewrite Hf0 in Hst.
    simpl in Hst. congruence. }
  unfold claim_row in Hc.
  destruct scan_ok, exec_ok; inversion Hc; subst; simpl; auto.
  rewrite find_job_update_status.
  pose proof Hne as Hneb. apply String.eqb_neq in Hneb. rewrite Hneb.
  repeat split; auto. intros [Heq|[]]. congruence.
Qed.

Lemma tick_keeps_running_job_witness :
  status_of_job "j1" (fst (enqueueDueJobs
                        {| te_now := 200; te_query_ok := true;
                           te_scan_ok := fun _ => true;
                           te_exec_ok := fun _ => true |} demo_db7))
  = Some "running".
Proof.
  refine (proj1 (proj2 (tick_keeps_running_job
            {| te_now := 200; te_query_ok := true;
               te_scan_ok := fun _ => true; te_exec_ok := fun _ => true |}
            demo_db7 "j1" _ _ eq_refl eq_refl))).
  simpl. constructor; [simpl; tauto | constructor].
Defined.

(** * C10 *)

Lemma ParseInt_decimal s :
  ParseInt s
  = if is_decimal_integer s
       && (minInt64 <=? decimal_value s)%Z && (decimal_value s <=? maxInt64)%Z
    then Some (decimal_value s) else None.
Proof.
  destruct s as [|c rest]; [reflexivity|].
  unfold ParseInt, is_decimal_integer, decimal_value.
  rewrite (orb_comm (Ascii.eqb c "+") (Ascii.eqb c "-")) at 1.
  destruct (Ascii.eqb c "-") eqn:N, (Ascii.eqb c "+") eqn:P; cbn [orb].
  - destruct rest as [|c' rest']; [reflexivity|].
    destruct (digits_value 0 (String c' rest')); reflexivity.
  - destruct rest as [|c' rest']; [reflexivity|].
    destruct (digits_value 0 (String c' rest')); reflexivity.
  - destruct rest as [|c' rest']; [reflexivity|].
    destruct (digits_value 0 (String c' rest')); reflexivity.
  - destruct (digits_value 0 (String c rest)); reflexivity.
Qed.

(** C10, as stated, fails in the direction from a valid request to an
    inserted row.  The first request is valid JSON with subject and body
    non-empty and [scheduled_at] the decimal integer 2^63: [ParseInt] with
    bit size 64 refuses it and the handler answers "invalid scheduled_at".
    The second is valid with [scheduled_at] empty, and the INSERT returns
    an error: the handler answers "db error" with code 500.  No row is
    inserted in either case. *)
Lemma valid_request_not_inserted :
  valid_request demo_decode demo_trim demo_rfc3339 demo_request_big = true /\
  scheduleJobHandler demo_decode demo_trim demo_rfc3339 (demo_req_env true)
    demo_request_big empty_store
  = (empty_store, HttpError "invalid scheduled_at" 400) /\
  valid_request demo_decode demo_trim demo_rfc3339 demo_request_now = true /\
  scheduleJobHandler demo_decode demo_trim demo_rfc3339 (demo_req_env false)
    demo_request_now empty_store
  = (empty_store, HttpError "db error" 500).
Proof. repeat split; vm_compute; reflexivity. Qed.

(** C10 (amended): the handler inserts a job row, with status pending, if
    and only if the request decodes as JSON, its subject and body are
    non-empty after trimming, its [scheduled_at] is empty (the due time is
    then the current time), an RFC3339 timestamp, or a decimal integer with
    an optional sign that fits a signed 64-bit integer, and the INSERT
    itself succeeds (it returns no error and the new id is not taken); in
    every other case the response is an error and the store is unchanged. *)
Theorem schedule_job_insertion (decodeJobReq : string -> option JobReq)
    (TrimSpace : string -> string) (parseRFC3339 : string -> option Z)
    (e : ReqEnv) (request : string) (db : Store) :
  (well_formed_request decodeJobReq TrimSpace parseRFC3339 (rq_now e) request
   && rq_exec_ok e && negb (has_key job_id (rq_uuid e) (jobs db)) = true ->
   exists req ts,
     decodeJobReq request = Some req /\
     parse_scheduled_at parseRFC3339 (rq_now e) (req_scheduled_at req) = Some ts /\
     (req_scheduled_at req = "" -> ts = rq_now e) /\
     scheduleJobHandler decodeJobReq TrimSpace parseRFC3339 e request db
     = (with_jobs db (jobs db ++ [job_for TrimSpace e req ts]),
        JsonCreated (rq_uuid e) ts)) /\
  (well_formed_request decodeJobReq TrimSpace parseRFC3339 (rq_now e) request
   && rq_exec_ok e && negb (has_key job_id (rq_uuid e) (jobs db)) = false ->
   exists msg code,
     scheduleJobHandler decodeJobReq TrimSpace parseRFC3339 e request db
     = (db, HttpError msg code)) /\
  (well_formed_request decodeJobReq TrimSpace parseRFC3339 (rq_now e) request
   = true <->
   exists req,
     decodeJobReq request = Some req /\
     TrimSpace (req_subject req) <> "" /\
     TrimSpace (req_body req) <> "" /\
     (req_scheduled_at req = "" \/
      parseRFC3339 (req_scheduled_at req) <> None \/
      (is_decimal_integer (req_scheduled_at req) = true /\
       (minInt64 <= decimal_value (req_scheduled_at req) <= maxInt64)%Z))).
Proof.
  unfold well_formed_request, scheduleJobHandler.
  destruct (decodeJobReq request) as [req|].
  2:{ simpl. split; [discriminate|]. split; [eauto|].
      split; [discriminate|]. intros [req [H _]]. discriminate. }
  destruct (TrimSpace (req_subject req) =? "") eqn:Es.
  { simpl. split; [discriminate|]. split; [eauto|].
    split; [discriminate|]. intros [r [H [Hs _]]]. inversion H; subst r.
    apply String.eqb_eq in Es. congruence. }
  destruct (TrimSpace (req_body req) =? "") eqn:Eb.
  { simpl. split; [discriminate|]. split; [eauto|].
    split; [discriminate|]. intros [r [H [_ [Hb _]]]]. inversion H; subst r.
    apply String.eqb_eq in Eb. congruence. }
  apply String.eqb_neq in Es. apply String.eqb_neq in Eb. cbn [negb andb orb].
  assert (Hparse : is_some (parse_scheduled_at parseRFC3339 (rq_now e)
                              (req_scheduled_at req)) = true <->
                   (req_scheduled_at req = "" \/
                    parseRFC3339 (req_scheduled_at req) <> None \/
                    (is_decimal_integer (req_scheduled_at req) = true /\
                     (minInt64 <= decimal_value (req_scheduled_at req)
                      <= maxInt64)%Z))).
  { unfold parse_scheduled_at.
    destruct (req_scheduled_at req =? "") eqn:E0.
    - apply String.eqb_eq in E0. simpl. tauto.
    - apply String.eqb_neq in E0.
      destruct (parseRFC3339 (req_scheduled_at req)) as [t|].
      + simpl. split; auto. intros _. right. left. discriminate.
      + rewrite ParseInt_decimal.
        destruct (is_decimal_integer (req_scheduled_at req)); simpl.
        * destruct (minInt64 <=? decimal_value (req_scheduled_at req))%Z eqn:L;
            destruct (decimal_value (req_scheduled_at req) <=? maxInt64)%Z eqn:U;
            simpl; rewrite ?Z.leb_le, ?Z.leb_gt in *;
            split; try discriminate; try tauto; intros [H|[H|[_ H]]];
            try congruence; lia.
        * split; [discriminate|]. intros [H|[H|[H _]]]; congruence. }
  split; [|split].
  - intros H. apply andb_true_iff in H. destruct H as [H Hk].
    apply andb_true_iff in H. destruct H as [Hp Hx].
    apply negb_true_iff in Hk.
    destruct (parse_scheduled_at parseRFC3339 (rq_now e) (req_scheduled_at req))
      as [ts|] eqn:P; [|discriminate].
    exists req, ts. split; [reflexivity|]. split; [exact P|]. split.
    + intros E0. unfold parse_scheduled_at in P. rewrite E0 in P.
      simpl in P. congruence.
    + rewrite Hx. unfold insert_job. rewrite Hk. reflexivity.
  - intros H.
    destruct (parse_scheduled_at parseRFC3339 (rq_now e) (req_scheduled_at req))
      as [ts|] eqn:P; [|eauto].
    simpl in H. destruct (rq_exec_ok e); [|eauto]. simpl in H.
    apply negb_false_iff in H. unfold insert_job. rewrite H. eauto.
  - rewrite Hparse. split.
    + intros H. exists req. auto.
    + intros [r [H [_ [_ Hr]]]]. inversion H; subst r. exact Hr.
Qed.

Lemma schedule_job_insertion_witness :
  exists req ts,
    demo_decode demo_request_now = Some req /\
    parse_scheduled_at demo_rfc3339 100 (req_scheduled_at req) = Some ts /\
    (req_scheduled_at req = "" -> ts = 100%Z) /\
    scheduleJobHandler demo_decode demo_trim demo_rfc3339 (demo_req_env true)
      demo_request_now demo_db1
    = (with_jobs demo_db1
         (jobs demo_db1 ++ [job_for demo_trim (demo_req_env true) req ts]),
       JsonCreated "j1" ts).
Proof.
  exact (proj1 (schedule_job_insertion demo_decode demo_trim demo_rfc3339
                  (demo_req_env true) demo_request_now demo_db1) eq_refl).
Defined.

(** * [buildMessage] *)

Lemma after_blank_line_skip s t :
  no_cr s = true ->
  after_blank_line (String.append s t) = after_blank_line t.
Proof.
  induction s as [|c s IH]; simpl; intros H; auto.
  apply andb_true_iff in H. destruct H as [Hc Hs].
  apply negb_true_iff in Hc. rewrite Hc. auto.
Qed.

(** What stands between the subject and the body. *)
Lemma after_blank_line_tail body :
  after_blank_line
    (String.append crlf (String.append mime_lines (String.append crlf body)))
  = Some body.
Proof. reflexivity. Qed.

Lemma after_blank_line_headers from to t :
  no_cr from = true -> no_cr to = true ->
  after_blank_line
    (String.append "From: " (String.append from (String.append crlf
       (String.append "To: " (String.append to (String.append crlf
          (String.append "Subject: " t)))))))
  = after_blank_line t.
Proof.
  intros Hf Ht.
  change (after_blank_line (String.append from (String.append crlf
            (String.append "To: " (String.append to (String.append crlf
               (String.append "Subject: " t))))))
          = after_blank_line t).
  rewrite (after_blank_line_skip from) by exact Hf.
  change (after_blank_line (String.append to (String.append crlf
            (String.append "Subject: " t))) = after_blank_line t).
  rewrite (after_blank_line_skip to) by exact Ht.
  reflexivity.
Qed.

(** X1: when the sender, the recipient and the subject hold no carriage
    return, the text after the first empty line of the message
    [buildMessage] builds is the body, whatever the body is. *)
Theorem buildMessage_body (from to subject body : string)
    (Hf : no_cr from = true) (Ht : no_cr to = true)
    (Hs : no_cr subject = true) :
  after_blank_line (buildMessage from to subject body) = Some body.
Proof.
  unfold buildMessage. rewrite after_blank_line_headers by assumption.
  rewrite (after_blank_line_skip subject) by exact Hs.
  apply after_blank_line_tail.
Qed.

Lemma buildMessage_body_witness :
  after_blank_line
    (buildMessage "no-reply@example.com" "a@example.com" "Hello" "World")
  = Some "World".
Proof.
  exact (buildMessage_body "no-reply@example.com" "a@example.com" "Hello"
           "World" eq_refl eq_refl eq_refl).
Defined.

(** X2: [buildMessage] writes the subject as it is: when the subject holds
    an empty line, the text after the first empty line of the message
    starts with what follows it in the subject, and the two constant header
    lines and the body come after that. *)
Theorem buildMessage_subject_unescaped (from to s1 s2 body : string)
    (Hf : no_cr from = true) (Ht : no_cr to = true)
    (Hs : no_cr s1 = true) :
  after_blank_line
    (buildMessage from to
       (String.append s1 (String.append crlf (String.append crlf s2))) body)
  = Some (String.append s2 (String.append crlf
            (String.append mime_lines (String.append crlf body)))).
Proof.
  unfold buildMessage. rewrite after_blank_line_headers by assumption.
  assert (Hassoc : forall a b c,
            String.append (String.append a b) c
            = String.append a (String.append b c)).
  { intros a b c. induction a as [|x a IH]; simpl; congruence. }
  rewrite !Hassoc.
  rewrite (after_blank_line_skip s1) by exact Hs.
  reflexivity.
Qed.

Lemma buildMessage_subject_unescaped_witness :
  after_blank_line
    (buildMessage "no-reply@example.com" "a@example.com"
       (String.append "Hi" (String.append crlf (String.append crlf "X")))
       "World")
  = Some (String.append "X" (String.append crlf
            (String.append mime_lines (String.append crlf "World")))).
Proof.
  exact (buildMessage_subject_unescaped "no-reply@example.com"
           "a@example.com" "Hi" "X" "World" eq_refl eq_refl eq_refl).
Defined.

(** * [worker] over the tasks of the channel *)

Lemma worker_task_find e t db outbox id :
  find_send id (fst (worker_task e t (db, outbox)))
  = if id =? SendID t
    then option_map (task_effect e t) (find_send id db)
    else find_send id db.
Proof.
  unfold worker_task, worker_mark, worker_record, task_effect, exec.
  cbn [fst].
  destruct (we_mark_ok e), (we_record_ok e), (doSend (we_smtp e) t) as [msg|];
    unfold update_send_sending, update_send_failed, update_send_sent;
    rewrite ?find_send_update by reflexivity;
    destruct (id =? SendID t); auto;
    destruct (find_send id db); reflexivity.
Qed.

Lemma worker_task_other e t db outbox :
  jobs (fst (worker_task e t (db, outbox))) = jobs db /\
  subscribers (fst (worker_task e t (db, outbox))) = subscribers db /\
  map send_id (sends (fst (worker_task e t (db, outbox))))
  = map send_id (sends db) /\
  snd (worker_task e t (db, outbox)) = outbox ++ [t].
Proof.
  unfold worker_task. cbn [fst snd].
  rewrite worker_record_jobs, worker_mark_jobs, worker_record_keys,
    worker_mark_keys.
  repeat split.
  unfold worker_record, worker_mark, exec.
  destruct (doSend (we_smtp e) t), (we_record_ok e), (we_mark_ok e);
    reflexivity.
Qed.

Lemma worker_find env tasks : forall db outbox id,
  NoDup (map SendID tasks) ->
  find_send id (fst (worker env tasks (db, outbox)))
  = match find (fun t => SendID t =? id) tasks with
    | Some t => option_map (task_effect (env (SendID t)) t) (find_send id db)
    | None => find_send id db
    end.
Proof.
  induction tasks as [|t tasks IH]; intros db outbox id Hnd; [reflexivity|].
  cbn [worker find]. simpl in Hnd.
  inversion Hnd as [|? ? Hnot Hnd']; subst.
  rewrite (surjective_pairing (worker_task (env (SendID t)) t (db, outbox))).
  rewrite IH by exact Hnd'.
  rewrite worker_task_find. rewrite (String.eqb_sym id (SendID t)).
  destruct (SendID t =? id) eqn:K; auto.
  apply String.eqb_eq in K. subst id.
  replace (find (fun t0 => SendID t0 =? SendID t) tasks) with (@None SendTask);
    auto.
  symmetry. apply (find_none_iff SendID). exact Hnot.
Qed.

Lemma worker_outbox env tasks : forall db outbox,
  snd (worker env tasks (db, outbox)) = outbox ++ tasks /\
  jobs (fst (worker env tasks (db, outbox))) = jobs db /\
  subscribers (fst (worker env tasks (db, outbox))) = subscribers db /\
  map send_id (sends (fst (worker env tasks (db, outbox))))
  = map send_id (sends db).
Proof.
  induction tasks as [|t tasks IH]; intros db outbox.
  - simpl. rewrite app_nil_r. auto.
  - cbn [worker].
    destruct (worker_task_other (env (SendID t)) t db outbox)
      as [Hj [Hs [Hk Ho]]].
    destruct (worker_task (env (SendID t)) t (db, outbox)) as [db1 ob1].
    cbn [fst snd] in *. destruct (IH db1 ob1) as [H1 [H2 [H3 H4]]].
    rewrite H1, H2, H3, H4, Ho, <- app_assoc. simpl.
    repeat split; congruence.
Qed.

(** X3: [worker] on tasks with distinct Send ids calls [doSend] once per
    task, in the order of the tasks, and leaves each task's Send with the
    outcome of its own delivery alone: sent (with sent_at) when [doSend]
    returns nil, as it always does without SMTP_HOST, failed with the text
    of the error when it returns one, attempts one higher in both cases; a
    failure does not touch the Send of any other task, Sends without a task
    are left as they are, no Send is added or removed and the jobs and
    subscribers are untouched.  The UPDATEs are taken to return no error. *)
Theorem worker_outcomes (env : string -> WorkEnv) (tasks : list SendTask)
    (db : Store) (outbox : list SendTask)
    (Hnd : NoDup (map SendID tasks))
    (Hok : forall t, In t tasks ->
       we_mark_ok (env (SendID t)) = true /\
       we_record_ok (env (SendID t)) = true) :
  snd (worker env tasks (db, outbox)) = outbox ++ tasks /\
  (forall t x,
     In t tasks -> find_send (SendID t) db = Some x ->
     exists y,
       find_send (SendID t) (fst (worker env tasks (db, outbox))) = Some y /\
       send_attempts y = (send_attempts x + 1)%Z /\
       match doSend (we_smtp (env (SendID t))) t with
       | None =>
           send_status y = "sent" /\
           send_sent_at y = Some (we_now (env (SendID t))) /\
           send_last_error y = send_last_error x
       | Some msg =>
           send_status y = "failed" /\ send_last_error y = Some msg /\
           send_sent_at y = send_sent_at x
       end /\
       (smtp_host (we_smtp (env (SendID t))) = "" -> send_status y = "sent")) /\
  (forall id,
     ~ In id (map SendID tasks) ->
     find_send id (fst (worker env tasks (db, outbox))) = find_send id db) /\
  map send_id (sends (fst (worker env tasks (db, outbox))))
  = map send_id (sends db) /\
  jobs (fst (worker env tasks (db, outbox))) = jobs db /\
  subscribers (fst (worker env tasks (db, outbox))) = subscribers db.
Proof.
  destruct (worker_outbox env tasks db outbox) as [H1 [H2 [H3 H4]]].
  split; [exact H1|]. split; [|split; [|auto]].
  - intros t x Hin Hf. rewrite worker_find by exact Hnd.
    rewrite (find_in_nodup SendID tasks t Hnd Hin), Hf.
    destruct (Hok t Hin) as [Hm Hr].
    eexists. split; [reflexivity|].
    unfold task_effect. rewrite Hm, Hr.
    unfold doSend.
    destruct (smtp_host (we_smtp (env (SendID t))) =? "") eqn:Hh.
    + simpl. repeat split; auto.
    + apply String.eqb_neq in Hh.
      destruct (smtp_sendmail (we_smtp (env (SendID t)))) as [msg|]; simpl;
        repeat split; auto; intros; congruence.
  - intros id Hn. rewrite worker_find by exact Hnd.
    replace (find (fun t => SendID t =? id) tasks) with (@None SendTask); auto.
    symmetry. apply (find_none_iff SendID). exact Hn.
Qed.

Lemma worker_outcomes_witness :
  snd (worker (fun _ => {| we_mark_ok := true; we_smtp := demo_mock;
                           we_now := 100; we_record_ok := true |})
         [demo_task] (demo_db7, []))
  = [] ++ [demo_task].
Proof.
  refine (proj1 (worker_outcomes _ [demo_task] demo_db7 [] _ _)).
  - simpl. constructor; [simpl; tauto | constructor].
  - intros t _. split; reflexivity.
Defined.

(** * [uploadCSVHandler] *)

Section UploadFacts.

Variable TrimSpace : string -> string.

Lemma insert_subscriber_some id email now db db' :
  insert_subscriber id email now db = Some db' ->
  has_key sub_id id (subscribers db) = false /\
  has_key sub_email email (subscribers db) = false /\
  db' = with_subscribers db
          (subscribers db ++
           [{| sub_id := id; sub_email := email; sub_created_at := now |}]).
Proof.
  unfold insert_subscriber.
  destruct (has_key sub_id id (subscribers db)); [discriminate|].
  destruct (has_key sub_email email (subscribers db)); [discriminate|].
  simpl. intros H. inversion H. auto.
Qed.

(** One round leaves the store as it is, or appends one subscriber whose
    address is the one of the round and was not stored. *)
Lemma upload_round_cases rd e db n :
  upload_round TrimSpace rd e (db, n) = (db, n)
  \/ (exists email,
        address_of TrimSpace rd = Some email /\
        up_exec_ok e = true /\
        has_key sub_id (up_uuid e) (subscribers db) = false /\
        has_key sub_email email (subscribers db) = false /\
        upload_round TrimSpace rd e (db, n)
        = (with_subscribers db
             (subscribers db ++
              [{| sub_id := up_uuid e; sub_email := email;
                  sub_created_at := up_now e |}]), S n)).
Proof.
  unfold upload_round, address_of.
  destruct rd as [|[|first rec]]; auto.
  destruct (TrimSpace first =? ""); auto.
  destruct (up_exec_ok e); auto. cbn [fst snd].
  destruct (insert_subscriber _ _ _ db) as [db'|] eqn:E; auto.
  destruct (insert_subscriber_some _ _ _ _ _ E) as [H1 [H2 ->]].
  right. exists (TrimSpace first). auto.
Qed.

Lemma has_key_app {A : Type} (key : A -> string) id (l l' : list A) :
  has_key key id (l ++ l') = has_key key id l || has_key key id l'.
Proof. unfold has_key. apply existsb_app. Qed.

Lemma upload_rounds_spec reads : forall db n,
  exists news,
    fst (upload_rounds TrimSpace reads (db, n))
    = with_subscribers db (subscribers db ++ news) /\
    snd (upload_rounds TrimSpace reads (db, n)) = n + length news /\
    length news <= length reads /\
    (forall u, In u news ->
       sub_email u <> "" /\
       exists rd e, In (rd, e) reads /\
                    address_of TrimSpace rd = Some (sub_email u) /\
                    sub_id u = up_uuid e /\ sub_created_at u = up_now e) /\
    (NoDup (map sub_id (subscribers db)) ->
     NoDup (map sub_id (subscribers db ++ news))) /\
    (NoDup (map sub_email (subscribers db)) ->
     NoDup (map sub_email (subscribers db ++ news))).
Proof.
  induction reads as [|[rd e] reads IH]; intros db n.
  - exists []. simpl. rewrite app_nil_r. destruct db; simpl.
    split; [reflexivity|]. split; [lia|]. split; [lia|].
    split; [intros u []|]. split; auto.
  - cbn [upload_rounds].
    destruct (upload_round_cases rd e db n)
      as [E|[email [Ha [Hx [Hid [Hem E]]]]]]; rewrite E.
    + destruct (IH db n) as [news [H1 [H2 [H3 [H4 [H5 H6]]]]]].
      exists news.
      split; [exact H1|]. split; [exact H2|]. split; [simpl; lia|].
      split; [|split; assumption].
      intros u Hu. destruct (H4 u Hu) as [Hne [rd' [e' [Hin Hr]]]].
      split; [exact Hne|].
      exists rd', e'. split; [right; exact Hin|exact Hr].
    + set (u0 := {| sub_id := up_uuid e; sub_email := email;
                     sub_created_at := up_now e |}) in *.
      destruct (IH (with_subscribers db (subscribers db ++ [u0])) (S n))
        as [news [H1 [H2 [H3 [H4 [H5 H6]]]]]].
      exists (u0 :: news). simpl in H1, H5, H6.
      rewrite <- app_assoc in H1, H5, H6. simpl in H1, H5, H6.
      assert (Hne : email <> "").
      { unfold address_of in Ha. destruct rd as [|[|first rec]];
          try discriminate.
        destruct (TrimSpace first =? "") eqn:K; [discriminate|].
        apply String.eqb_neq in K. congruence. }
      split; [rewrite H1; reflexivity|].
      split; [rewrite H2; simpl; lia|].
      split; [simpl; lia|].
      split; [|split].
      * intros u [<-|Hu].
        -- split; [exact Hne|]. exists rd, e. simpl. auto.
        -- destruct (H4 u Hu) as [Hne' [rd' [e' [Hin Hr]]]].
           split; [exact Hne'|].
           exists rd', e'. split; [right; exact Hin|exact Hr].
      * intros Hnd. apply H5. rewrite map_app. simpl.
        apply NoDup_snoc; auto. apply has_key_false. exact Hid.
      * intros Hnd. apply H6. rewrite map_app. simpl.
        apply NoDup_snoc; auto. apply has_key_false. exact Hem.
Qed.

End UploadFacts.

(** X4: [uploadCSVHandler] answers 400 and leaves the store as it is when
    the form or its file is missing; otherwise the number it reports is the
    number of subscribers it has added: the old subscribers are kept, in
    their order, the new ones follow them, and there are as many as
    reported, at most one per record read; jobs and Sends are untouched. *)
Theorem upload_reports_added (TrimSpace : string -> string)
    (form : UploadForm) (db : Store) :
  match form with
  | FormFile reads =>
      exists news,
        uploadCSVHandler TrimSpace form db
        = (with_subscribers db (subscribers db ++ news),
           UploadAdded (length news)) /\
        length news <= length reads
  | _ =>
      exists msg,
        uploadCSVHandler TrimSpace form db = (db, UploadError msg 400)
  end.
Proof.
  destruct form as [| |reads]; simpl; eauto.
  destruct (upload_rounds_spec TrimSpace reads db 0)
    as [news [H1 [H2 [H3 _]]]].
  exists news. rewrite H1, H2. auto.
Qed.

(** X5: every subscriber [uploadCSVHandler] adds has a non-empty address,
    the trimmed first field of a record of the file, with the id and the
    time of the round that read it; and the handler keeps the subscriber
    ids distinct and the addresses distinct, so an address that occurs
    twice in the file, or is stored already, is stored once. *)
Theorem upload_keeps_unique (TrimSpace : string -> string)
    (reads : list (CsvRead * UploadEnv)) (db : Store)
    (Hids : NoDup (map sub_id (subscribers db)))
    (Hemails : NoDup (map sub_email (subscribers db))) :
  NoDup (map sub_id
           (subscribers (fst (uploadCSVHandler TrimSpace (FormFile reads) db))))
  /\
  NoDup (map sub_email
           (subscribers (fst (uploadCSVHandler TrimSpace (FormFile reads) db))))
  /\
  (forall u,
     In u (subscribers (fst (uploadCSVHandler TrimSpace (FormFile reads) db))) ->
     In u (subscribers db) \/
     (sub_email u <> "" /\
      exists rd e, In (rd, e) reads /\
                   address_of TrimSpace rd = Some (sub_email u) /\
                   sub_id u = up_uuid e /\ sub_created_at u = up_now e)).
Proof.
  cbn [uploadCSVHandler fst].
  destruct (upload_rounds_spec TrimSpace reads db 0)
    as [news [H1 [_ [_ [H4 [H5 H6]]]]]].
  rewrite H1. simpl. repeat split; auto.
  intros u Hin. apply in_app_or in Hin. destruct Hin as [Hin|Hin]; auto.
Qed.

Lemma upload_keeps_unique_witness :
  NoDup (map sub_email
           (subscribers
              (fst (uploadCSVHandler demo_trim (FormFile demo_reads)
                      empty_store)))).
Proof.
  exact (proj1 (proj2 (upload_keeps_unique demo_trim demo_reads empty_store
                         (NoDup_nil _) (NoDup_nil _)))).
Defined.

Section UploadTwice.

Variable TrimSpace : string -> string.

Lemma upload_round_fst rd e db n :
  fst (upload_round TrimSpace rd e (db, n))
  = fst (upload_round TrimSpace rd e (db, 0)).
Proof.
  unfold upload_round. destruct rd as [|[|first rec]]; auto.
  destruct (TrimSpace first =? ""); auto.
  destruct (up_exec_ok e); auto. cbn [fst snd].
  destruct (insert_subscriber _ _ _ db); reflexivity.
Qed.

Lemma upload_rounds_present reads : forall db n,
  (forall rd e email,
     In (rd, e) reads -> address_of TrimSpace rd = Some email ->
     has_key sub_email email (subscribers db) = true) ->
  upload_rounds TrimSpace reads (db, n) = (db, n).
Proof.
  induction reads as [|[rd e] reads IH]; intros db n H; [reflexivity|].
  cbn [upload_rounds].
  destruct (upload_round_cases TrimSpace rd e db n)
    as [E|[email [Ha [_ [_ [Hem _]]]]]].
  - rewrite E. apply IH. intros rd' e' email Hin. apply (H rd' e' email).
    right. exact Hin.
  - rewrite (H rd e email (or_introl eq_refl) Ha) in Hem. discriminate.
Qed.

Lemma upload_rounds_keeps_address reads db n email :
  has_key sub_email email (subscribers db) = true ->
  has_key sub_email email
    (subscribers (fst (upload_rounds TrimSpace reads (db, n)))) = true.
Proof.
  intros H.
  destruct (upload_rounds_spec TrimSpace reads db n) as [news [H1 _]].
  rewrite H1. simpl. rewrite has_key_app, H. reflexivity.
Qed.

Lemma all_stored_present reads : forall db n rd e email,
  all_stored TrimSpace reads db = true ->
  In (rd, e) reads -> address_of TrimSpace rd = Some email ->
  has_key sub_email email
    (subscribers (fst (upload_rounds TrimSpace reads (db, n)))) = true.
Proof.
  induction reads as [|[rd0 e0] reads IH]; intros db n rd e email Hall Hin Ha;
    [destruct Hin|].
  cbn [upload_rounds all_stored] in *.
  rewrite (surjective_pairing (upload_round TrimSpace rd0 e0 (db, n))).
  rewrite upload_round_fst.
  assert (Hrest : all_stored TrimSpace reads
                    (fst (upload_round TrimSpace rd0 e0 (db, 0))) = true /\
                  (forall em, address_of TrimSpace rd0 = Some em ->
                     has_key sub_email em
                       (subscribers
                          (fst (upload_round TrimSpace rd0 e0 (db, 0))))
                     = true)).
  { destruct (upload_round_cases TrimSpace rd0 e0 db 0)
      as [E|[em0 [Ha0 [Hx [Hid [Hem E]]]]]].
    - rewrite E. cbn [fst].
      destruct (address_of TrimSpace rd0) as [em0|] eqn:A0.
      + destruct (has_key sub_email em0 (subscribers db)) eqn:K.
        * split; [rewrite E in Hall; exact Hall|].
          intros em Hem. inversion Hem; subst. exact K.
        * exfalso. apply andb_true_iff in Hall. destruct Hall as [Hall _].
          apply andb_true_iff in Hall. destruct Hall as [Hx Hid].
          apply negb_true_iff in Hid.
          unfold upload_round, address_of in *.
          destruct rd0 as [|[|first rec]]; try discriminate.
          destruct (TrimSpace first =? ""); [discriminate|].
          inversion A0; subst em0. rewrite Hx in E. cbn [fst snd] in E.
          unfold insert_subscriber in E. rewrite Hid, K in E. simpl in E.
          discriminate E.
      + split; [exact Hall|]. intros em Hem. discriminate.
    - rewrite Ha0, Hem, Hx, Hid in Hall. simpl in Hall. split; [exact Hall|].
      intros em Hem'. rewrite Ha0 in Hem'. inversion Hem'; subst em0.
      rewrite E. simpl.
      rewrite has_key_app. simpl. rewrite String.eqb_refl.
      apply orb_true_r. }
  destruct Hrest as [Hall' Hhead].
  destruct Hin as [Heq|Hin].
  - inversion Heq; subst rd0 e0.
    apply upload_rounds_keeps_address. apply Hhead. exact Ha.
  - apply (IH _ _ rd e email Hall' Hin Ha).
Qed.

End UploadTwice.

(** X6: uploading addresses that are all stored already adds nothing:
    when in every round of a first upload the address was stored already
    or its INSERT went through, an upload of the same records, whatever the
    ids and INSERT outcomes of its rounds, leaves the store as the first
    upload left it and reports 0. *)
Theorem upload_twice_adds_nothing (TrimSpace : string -> string)
    (reads reads' : list (CsvRead * UploadEnv)) (db : Store)
    (Hall : all_stored TrimSpace reads db = true)
    (Hsame : map fst reads' = map fst reads) :
  uploadCSVHandler TrimSpace (FormFile reads')
    (fst (uploadCSVHandler TrimSpace (FormFile reads) db))
  = (fst (uploadCSVHandler TrimSpace (FormFile reads) db), UploadAdded 0).
Proof.
  cbn [uploadCSVHandler fst].
  rewrite upload_rounds_present; [reflexivity|].
  intros rd e' email Hin Ha.
  assert (Hrd : In rd (map fst reads)).
  { rewrite <- Hsame. apply (in_map fst reads' (rd, e')). exact Hin. }
  apply in_map_iff in Hrd. destruct Hrd as [[rd0 e] [Heq Hin0]].
  simpl in Heq. subst rd0.
  apply (all_stored_present TrimSpace reads db 0 rd e email Hall Hin0 Ha).
Qed.

Lemma upload_twice_adds_nothing_witness :
  uploadCSVHandler demo_trim (FormFile demo_reads)
    (fst (uploadCSVHandler demo_trim (FormFile demo_reads) empty_store))
  = (fst (uploadCSVHandler demo_trim (FormFile demo_reads) empty_store),
     UploadAdded 0).
Proof.
  exact (upload_twice_adds_nothing demo_trim demo_reads demo_reads empty_store
           eq_refl eq_refl).
Defined.

(** * [listJobsHandler] *)

Lemma insert_desc_perm j l : Permutation (insert_desc j l) (j :: l).
Proof.
  induction l as [|x l IH]; simpl; auto.
  destruct (job_created_at x <=? job_created_at j)%Z; auto.
  apply perm_trans with (x :: j :: l); [|apply perm_swap].
  apply perm_skip. exact IH.
Qed.

Lemma order_by_created_desc_perm l : Permutation (order_by_created_desc l) l.
Proof.
  induction l as [|x l IH]; simpl; auto.
  apply perm_trans with (x :: order_by_created_desc l).
  - apply insert_desc_perm.
  - apply perm_skip. exact IH.
Qed.

Lemma insert_desc_sorted j l :
  StronglySorted created_ge l -> StronglySorted created_ge (insert_desc j l).
Proof.
  induction l as [|x l IH]; simpl; intros Hs.
  - constructor; constructor.
  - apply StronglySorted_inv in Hs. destruct Hs as [Hs Hx].
    destruct (job_created_at x <=? job_created_at j)%Z eqn:E.
    + apply Z.leb_le in E. constructor.
      * constructor; auto.
      * constructor; [unfold created_ge; lia|].
        eapply Forall_impl; [|exact Hx]. unfold created_ge. intros; lia.
    + apply Z.leb_gt in E. constructor; auto.
      apply (Permutation_Forall (Permutation_sym (insert_desc_perm j l))).
      constructor; auto. unfold created_ge. lia.
Qed.

Lemma order_by_created_desc_sorted l :
  StronglySorted created_ge (order_by_created_desc l).
Proof.
  induction l as [|x l IH]; simpl.
  - constructor.
  - apply insert_desc_sorted. exact IH.
Qed.

(** The sort is stable: the rows of one [created_at] keep their order. *)
Lemma insert_desc_same c j l :
  filter (fun x => (job_created_at x =? c)%Z) (insert_desc j l)
  = filter (fun x => (job_created_at x =? c)%Z) (j :: l).
Proof.
  induction l as [|x l IH]; [reflexivity|].
  cbn [insert_desc].
  destruct (job_created_at x <=? job_created_at j)%Z eqn:E; [reflexivity|].
  apply Z.leb_gt in E. cbn [filter] in *. rewrite IH.
  destruct (job_created_at j =? c)%Z eqn:Ej; [|reflexivity].
  apply Z.eqb_eq in Ej.
  replace (job_created_at x =? c)%Z with false; [reflexivity|].
  symmetry. apply Z.eqb_neq. lia.
Qed.

Lemma order_by_created_desc_stable c l :
  filter (fun x => (job_created_at x =? c)%Z) (order_by_created_desc l)
  = filter (fun x => (job_created_at x =? c)%Z) l.
Proof.
  induction l as [|x l IH]; [reflexivity|].
  cbn [order_by_created_desc fold_right]. rewrite insert_desc_same.
  cbn [filter]. fold (order_by_created_desc l). rewrite IH. reflexivity.
Qed.

Lemma filter_comm {A : Type} (f g : A -> bool) (l : list A) :
  filter f (filter g l) = filter g (filter f l).
Proof.
  induction l as [|x l IH]; [reflexivity|].
  simpl. destruct (f x) eqn:F, (g x) eqn:G; simpl; rewrite ?F, ?G, IH;
    reflexivity.
Qed.

Lemma filter_map_resp (p : Z -> bool) (l : list Job) :
  filter (fun r => p (resp_created_at r)) (map resp_of_job l)
  = map resp_of_job (filter (fun j => p (job_created_at j)) l).
Proof.
  induction l as [|x l IH]; [reflexivity|].
  simpl. destruct (p (job_created_at x)); simpl; rewrite IH; reflexivity.
Qed.

Lemma filter_perm {A : Type} (f : A -> bool) (l l' : list A) :
  Permutation l l' -> Permutation (filter f l) (filter f l').
Proof.
  induction 1 as [|x l l' _ IH|x y l|l l' l'' _ IH1 _ IH2]; simpl; auto.
  - destruct (f x); auto.
  - destruct (f x), (f y); auto. apply perm_swap.
  - eapply perm_trans; eauto.
Qed.

Lemma filter_sorted {A : Type} (R : A -> A -> Prop) (f : A -> bool) l :
  StronglySorted R l -> StronglySorted R (filter f l).
Proof.
  induction l as [|x l IH]; simpl; intros Hs; auto.
  apply StronglySorted_inv in Hs. destruct Hs as [Hs Hx].
  destruct (f x); auto. constructor; auto.
  apply Forall_forall. intros y Hy. apply filter_In in Hy.
  rewrite Forall_forall in Hx. apply Hx. tauto.
Qed.

Lemma map_resp_sorted l :
  StronglySorted created_ge l ->
  StronglySorted newer_first (map resp_of_job l).
Proof.
  induction l as [|x l IH]; simpl; intros Hs; [constructor|].
  apply StronglySorted_inv in Hs. destruct Hs as [Hs Hx].
  constructor; auto. apply Forall_forall. intros y Hy.
  apply in_map_iff in Hy. destruct Hy as [j [<- Hj]].
  rewrite Forall_forall in Hx. apply (Hx j Hj).
Qed.

Lemma scan_jobs_spec scan_ok rows : forall out,
  scan_jobs scan_ok rows out
  = match map resp_of_job (filter (fun j => scan_ok (job_id j)) rows) with
    | [] => out
    | r :: more =>
        Some (match out with Some l => l | None => [] end ++ r :: more)
    end.
Proof.
  induction rows as [|j rows IH]; intros out; [reflexivity|].
  cbn [scan_jobs filter]. rewrite IH.
  destruct (scan_ok (job_id j)); [|reflexivity].
  cbn [map].
  destruct (map resp_of_job (filter (fun j0 => scan_ok (job_id j0)) rows))
    as [|r more]; destruct out as [l|]; simpl; auto.
  rewrite <- app_assoc. reflexivity.
Qed.

(** X7: when its query returns an error [listJobsHandler] answers 500 and
    lists nothing.  Otherwise it lists every job whose row scans, each
    exactly once and with the fields of its row, newest first by
    created_at, the jobs of one created_at in the order of the table; and
    the slice it hands to the encoder is nil exactly when no row was
    scanned, which is the case of an empty jobs table. *)
Theorem list_jobs_sorted (scan_ok : string -> bool) (db : Store) :
  listJobsHandler false scan_ok db = ListError "db error" 500 /\
  Permutation (listed (listJobsHandler true scan_ok db))
    (map resp_of_job (filter (fun j => scan_ok (job_id j)) (jobs db))) /\
  StronglySorted newer_first (listed (listJobsHandler true scan_ok db)) /\
  (listJobsHandler true scan_ok db = ListJobs None <->
   filter (fun j => scan_ok (job_id j)) (jobs db) = []) /\
  (jobs db = [] -> listJobsHandler true scan_ok db = ListJobs None) /\
  (forall c,
     filter (fun r => (resp_created_at r =? c)%Z)
            (listed (listJobsHandler true scan_ok db))
     = map resp_of_job
         (filter (fun j => (job_created_at j =? c)%Z)
                 (filter (fun j => scan_ok (job_id j)) (jobs db)))).
Proof.
  split; [reflexivity|].
  assert (Hl : listed (listJobsHandler true scan_ok db)
               = map resp_of_job
                   (filter (fun j => scan_ok (job_id j)) (select_jobs db))).
  { unfold listJobsHandler. rewrite scan_jobs_spec.
    destruct (map resp_of_job _); reflexivity. }
  split; [|split; [|split; [|split]]].
  - rewrite Hl. apply Permutation_map. apply filter_perm.
    apply order_by_created_desc_perm.
  - rewrite Hl. apply map_resp_sorted. apply filter_sorted.
    apply order_by_created_desc_sorted.
  - assert (Hp : Permutation
                   (filter (fun j => scan_ok (job_id j)) (select_jobs db))
                   (filter (fun j => scan_ok (job_id j)) (jobs db))).
    { apply filter_perm. apply order_by_created_desc_perm. }
    unfold listJobsHandler. rewrite scan_jobs_spec.
    destruct (filter (fun j => scan_ok (job_id j)) (select_jobs db))
      as [|j l] eqn:F; simpl.
    + split; auto. intros _. apply Permutation_nil. exact Hp.
    + split; [discriminate|]. intros E. rewrite E in Hp.
      apply Permutation_sym, Permutation_nil in Hp. discriminate.
  - intros E. unfold listJobsHandler, select_jobs. rewrite E. reflexivity.
  - intros c. rewrite Hl.
    rewrite (filter_map_resp (fun z => (z =? c)%Z)).
    rewrite filter_comm. unfold select_jobs.
    rewrite order_by_created_desc_stable. rewrite filter_comm. reflexivity.
Qed.

(** * [schedulerLoop] *)

Lemma enqueue_keys e db :
  map job_id (jobs (fst (enqueueDueJobs e db))) = map job_id (jobs db) /\
  sends (fst (enqueueDueJobs e db)) = sends db /\
  subscribers (fst (enqueueDueJobs e db)) = subscribers db.
Proof.
  unfold enqueueDueJobs. destruct (te_query_ok e); [|auto].
  split; [|apply claim_rows_other].
  generalize (select_due_jobs (te_now e) db) as rows. intros rows.
  revert db. induction rows as [|r rows IH]; intros db; [reflexivity|].
  cbn [claim_rows]. unfold claim_row.
  destruct (te_scan_ok e (jr_id r)), (te_exec_ok e (jr_id r));
    match goal with
    | |- context [claim_rows e rows ?d] =>
        specialize (IH d); destruct (claim_rows e rows d); simpl in *;
        rewrite IH
    end; auto.
  apply update_where_keys. reflexivity.
Qed.

(** A tick leaves the row of a job as it is or makes a pending, due job
    running, changing nothing else of the row. *)
Lemma enqueue_find e db id (j : Job) :
  NoDup (map job_id (jobs db)) ->
  find_job id db = Some j ->
  (find_job id (fst (enqueueDueJobs e db)) = Some j /\
   ~ In id (map jr_id (snd (enqueueDueJobs e db))))
  \/ (find_job id (fst (enqueueDueJobs e db))
      = Some (set_job_status "running" j) /\
      job_status j = "pending" /\ (job_scheduled_at j <= te_now e)%Z /\
      tick_misses id (job_scheduled_at j) e = false).
Proof.
  intros Hnd Hf.
  destruct (in_dec string_dec id (map jr_id (select_due_jobs (te_now e) db)))
    as [Hin|Hn].
  2:{ left. rewrite <- Hf. apply enqueue_find_unselected. exact Hn. }
  destruct (selected_ids_pending _ _ _ Hnd Hin) as [j0 [Hf0 [Hp Hs]]].
  assert (j0 = j) by congruence. subst j0.
  unfold enqueueDueJobs, tick_misses.
  destruct (te_query_ok e); [|left; simpl; auto].
  rewrite claim_rows_find, claim_rows_spawned, Hf.
  destruct (te_scan_ok e id && te_exec_ok e id) eqn:C.
  - right. apply andb_true_iff in C. destruct C as [C1 C2].
    rewrite C1, C2. simpl. rewrite orb_false_r.
    replace (existsb _ _) with true.
    + repeat split; auto. rewrite !orb_false_r. apply Z.ltb_ge. exact Hs.
    + symmetry. apply existsb_exists.
      apply in_map_iff in Hin. destruct Hin as [r [Hr Hin]].
      exists r. split; auto. unfold claimable. rewrite Hr, C1, C2.
      rewrite String.eqb_refl. reflexivity.
  - left. split.
    + replace (existsb _ _) with false; auto.
      symmetry. apply not_true_is_false. intros Hex.
      apply existsb_exists in Hex. destruct Hex as [r [_ Hc]].
      apply andb_true_iff in Hc. destruct Hc as [Hid Hc].
      apply String.eqb_eq in Hid. unfold claimable in Hc.
      rewrite Hid, C in Hc. discriminate.
    + intros Hsp. apply in_map_iff in Hsp. destruct Hsp as [r [Hr Hsp]].
      apply filter_In in Hsp. destruct Hsp as [_ Hc].
      unfold claimable in Hc. rewrite Hr, C in Hc. discriminate.
Qed.

Lemma enqueue_spawned_claimed e db id :
  NoDup (map job_id (jobs db)) ->
  In id (map jr_id (snd (enqueueDueJobs e db))) ->
  status_of_job id db = Some "pending" /\
  status_of_job id (fst (enqueueDueJobs e db)) = Some "running".
Proof.
  intros Hnd Hin.
  assert (Hsel : In id (map jr_id (select_due_jobs (te_now e) db))).
  { apply enqueue_changes_selected. auto. }
  destruct (selected_ids_pending _ _ _ Hnd Hsel) as [j [Hf [Hp _]]].
  destruct (enqueue_find e db id j Hnd Hf) as [[_ Hn]|[Hf' _]]; [tauto|].
  unfold status_of_job. rewrite Hf, Hf'. simpl. split; congruence.
Qed.

Lemma enqueue_spawned_nodup e db :
  NoDup (map job_id (jobs db)) ->
  NoDup (map jr_id (snd (enqueueDueJobs e db))).
Proof.
  intros Hnd. unfold enqueueDueJobs. destruct (te_query_ok e); [|constructor].
  rewrite claim_rows_spawned.
  apply (nodup_filter_keys jr_id). unfold select_due_jobs.
  rewrite map_map. simpl. apply (nodup_filter_keys job_id). exact Hnd.
Qed.

Lemma scheduler_keeps_status ticks : forall db id st,
  NoDup (map job_id (jobs db)) ->
  status_of_job id db = Some st -> st <> "pending" ->
  status_of_job id (fst (schedulerLoop ticks db)) = Some st /\
  ~ In id (map jr_id (snd (schedulerLoop ticks db))).
Proof.
  induction ticks as [|e ticks IH]; intros db id st Hnd Hst Hnp.
  - simpl. auto.
  - cbn [schedulerLoop fst snd].
    unfold status_of_job in Hst.
    destruct (find_job id db) as [j|] eqn:Hf; [|discriminate].
    simpl in Hst. inversion Hst; subst st.
    destruct (enqueue_find e db id j Hnd Hf) as [[Hf' Hn]|[_ [Hp _]]];
      [|congruence].
    destruct (IH (fst (enqueueDueJobs e db)) id (job_status j)) as [H1 H2];
      auto.
    + destruct (enqueue_keys e db) as [-> _]. exact Hnd.
    + unfold status_of_job. rewrite Hf'. reflexivity.
    + split; auto. rewrite map_app. intros Hin. apply in_app_or in Hin.
      tauto.
Qed.

Lemma scheduler_spec ticks : forall db,
  NoDup (map job_id (jobs db)) ->
  NoDup (map jr_id (snd (schedulerLoop ticks db))) /\
  (forall id, In id (map jr_id (snd (schedulerLoop ticks db))) ->
     status_of_job id db = Some "pending" /\
     status_of_job id (fst (schedulerLoop ticks db)) = Some "running") /\
  map job_id (jobs (fst (schedulerLoop ticks db))) = map job_id (jobs db) /\
  sends (fst (schedulerLoop ticks db)) = sends db /\
  subscribers (fst (schedulerLoop ticks db)) = subscribers db.
Proof.
  induction ticks as [|e ticks IH]; intros db Hnd.
  - simpl. split; [constructor|]. split; [intros id []|]. auto.
  - cbn [schedulerLoop fst snd].
    destruct (enqueue_keys e db) as [Hk [Hs Hu]].
    assert (Hnd1 : NoDup (map job_id (jobs (fst (enqueueDueJobs e db)))))
      by (rewrite Hk; exact Hnd).
    destruct (IH _ Hnd1) as [I1 [I2 [I3 [I4 I5]]]].
    assert (Hcl : forall id,
              In id (map jr_id (snd (enqueueDueJobs e db))) ->
              status_of_job id db = Some "pending" /\
              status_of_job id (fst (schedulerLoop ticks
                                       (fst (enqueueDueJobs e db))))
              = Some "running" /\
              ~ In id (map jr_id (snd (schedulerLoop ticks
                                         (fst (enqueueDueJobs e db)))))).
    { intros id Hin.
      destruct (enqueue_spawned_claimed e db id Hnd Hin) as [Hp Hr].
      split; auto.
      apply (scheduler_keeps_status ticks _ id "running" Hnd1 Hr).
      discriminate. }
    split; [|split; [|split; [|split]]]; try congruence.
    + rewrite map_app. apply NoDup_app.
      * apply enqueue_spawned_nodup. exact Hnd.
      * exact I1.
      * intros id Hin Hin'. apply (Hcl id Hin). exact Hin'.
    + intros id Hin. rewrite map_app in Hin. apply in_app_or in Hin.
      destruct Hin as [Hin|Hin].
      * destruct (Hcl id Hin) as [Hp [Hr _]]. auto.
      * destruct (I2 id Hin) as [Hp Hr]. split; auto.
        destruct (status_of_job id db) as [st|] eqn:Hst.
        -- unfold status_of_job in Hst, Hp.
           destruct (find_job id db) as [j|] eqn:Hf; [|discriminate].
           simpl in Hst. inversion Hst; subst st.
           destruct (enqueue_find e db id j Hnd Hf) as [[Hf' _]|[Hf' _]];
             rewrite Hf' in Hp; simpl in Hp; congruence.
        -- exfalso. apply status_of_job_in in Hp. rewrite Hk in Hp.
           unfold status_of_job, find_job in Hst.
           destruct (find _ (jobs db)) eqn:F; [discriminate|].
           apply find_none_iff in F. tauto.
Qed.

(** X8: over any number of ticks [schedulerLoop] starts at most one
    dispatcher per job: a job it dispatches was pending before the ticks
    and is running after them, a job that was not pending keeps its status
    and is not dispatched, and the ticks add no job, remove none, and leave
    the subscribers and the Sends alone.  Job ids are distinct, as the
    primary key has it. *)
Theorem scheduler_dispatches_once (ticks : list TickEnv) (db : Store)
    (Hnd : NoDup (map job_id (jobs db))) :
  NoDup (map jr_id (snd (schedulerLoop ticks db))) /\
  (forall id, In id (map jr_id (snd (schedulerLoop ticks db))) ->
     status_of_job id db = Some "pending" /\
     status_of_job id (fst (schedulerLoop ticks db)) = Some "running") /\
  (forall id st, status_of_job id db = Some st -> st <> "pending" ->
     status_of_job id (fst (schedulerLoop ticks db)) = Some st /\
     ~ In id (map jr_id (snd (schedulerLoop ticks db)))) /\
  map job_id (jobs (fst (schedulerLoop ticks db))) = map job_id (jobs db) /\
  sends (fst (schedulerLoop ticks db)) = sends db /\
  subscribers (fst (schedulerLoop ticks db)) = subscribers db.
Proof.
  destruct (scheduler_spec ticks db Hnd) as [H1 [H2 [H3 [H4 H5]]]].
  split; [exact H1|]. split; [exact H2|]. split; [|auto].
  intros id st Hst Hnp. apply scheduler_keeps_status; auto.
Qed.

Lemma schedulerLoop_app ticks1 : forall ticks2 db,
  schedulerLoop (ticks1 ++ ticks2) db
  = (fst (schedulerLoop ticks2 (fst (schedulerLoop ticks1 db))),
     snd (schedulerLoop ticks1 db)
     ++ snd (schedulerLoop ticks2 (fst (schedulerLoop ticks1 db)))).
Proof.
  induction ticks1 as [|e ticks1 IH]; intros ticks2 db.
  - simpl. destruct (schedulerLoop ticks2 db); reflexivity.
  - cbn [app schedulerLoop fst snd]. rewrite IH. cbn [fst snd].
    rewrite app_assoc. reflexivity.
Qed.

Lemma enqueue_claims e db id j :
  NoDup (map job_id (jobs db)) ->
  find_job id db = Some j -> job_status j = "pending" ->
  tick_misses id (job_scheduled_at j) e = false ->
  find_job id (fst (enqueueDueJobs e db)) = Some (set_job_status "running" j) /\
  In (row_of_job j) (snd (enqueueDueJobs e db)).
Proof.
  intros Hnd Hf Hp Hhit. unfold tick_misses in Hhit.
  apply orb_false_iff in Hhit. destruct Hhit as [Hhit Hx].
  apply orb_false_iff in Hhit. destruct Hhit as [Hhit Hsc].
  apply orb_false_iff in Hhit. destruct Hhit as [Hdue Hq].
  apply negb_false_iff in Hx, Hsc, Hq. apply Z.ltb_ge in Hdue.
  destruct (find_some_key job_id _ _ _ Hf) as [Hin Hid].
  assert (Hsel : In (row_of_job j) (select_due_jobs (te_now e) db)).
  { apply in_select_due. exists j. auto. }
  assert (Hcl : claimable e (row_of_job j) = true).
  { unfold claimable. simpl. rewrite Hid, Hsc, Hx. reflexivity. }
  unfold enqueueDueJobs. rewrite Hq. split.
  - rewrite claim_rows_find, Hf. simpl.
    replace (existsb _ _) with true; auto.
    symmetry. apply existsb_exists. exists (row_of_job j). split; auto.
    rewrite Hcl. simpl. rewrite Hid, String.eqb_refl. reflexivity.
  - rewrite claim_rows_spawned. apply filter_In. auto.
Qed.

Lemma scheduler_misses ticks : forall db id j,
  NoDup (map job_id (jobs db)) ->
  find_job id db = Some j ->
  forallb (tick_misses id (job_scheduled_at j)) ticks = true ->
  find_job id (fst (schedulerLoop ticks db)) = Some j /\
  ~ In id (map jr_id (snd (schedulerLoop ticks db))).
Proof.
  induction ticks as [|e ticks IH]; intros db id j Hnd Hf Hm.
  - simpl. auto.
  - cbn [forallb] in Hm. apply andb_true_iff in Hm. destruct Hm as [Hm Hms].
    cbn [schedulerLoop fst snd].
    destruct (enqueue_find e db id j Hnd Hf) as [[Hf' Hn]|[_ [_ [_ Hh]]]];
      [|congruence].
    destruct (IH (fst (enqueueDueJobs e db)) id j) as [H1 H2]; auto.
    + destruct (enqueue_keys e db) as [-> _]. exact Hnd.
    + split; auto. rewrite map_app. intros Hin. apply in_app_or in Hin.
      tauto.
Qed.

Lemma scheduler_keeps_row ticks : forall db id j,
  NoDup (map job_id (jobs db)) ->
  find_job id db = Some j -> job_status j <> "pending" ->
  find_job id (fst (schedulerLoop ticks db)) = Some j.
Proof.
  induction ticks as [|e ticks IH]; intros db id j Hnd Hf Hnp; [exact Hf|].
  cbn [schedulerLoop fst].
  destruct (enqueue_find e db id j Hnd Hf) as [[Hf' _]|[_ [Hp _]]];
    [|congruence].
  apply IH; auto. destruct (enqueue_keys e db) as [-> _]. exact Hnd.
Qed.

(** X9: a tick that comes before a job's due time, or whose query, scan of
    the job's row or UPDATE of the job returns an error, leaves the row as
    it is and starts no dispatcher for the job, so the job is tried again:
    the first tick after such ticks that is not one of them makes the
    pending job running and starts its dispatcher, and the ticks that
    follow leave the row as that tick made it. *)
Theorem scheduler_retries (ticks1 : list TickEnv) (e : TickEnv)
    (ticks2 : list TickEnv) (db : Store) (id : string) (j : Job)
    (Hnd : NoDup (map job_id (jobs db)))
    (Hf : find_job id db = Some j)
    (Hp : job_status j = "pending")
    (Hmiss : forallb (tick_misses id (job_scheduled_at j)) ticks1 = true)
    (Hhit : tick_misses id (job_scheduled_at j) e = false) :
  find_job id (fst (schedulerLoop ticks1 db)) = Some j /\
  ~ In id (map jr_id (snd (schedulerLoop ticks1 db))) /\
  In (row_of_job j) (snd (schedulerLoop (ticks1 ++ e :: ticks2) db)) /\
  find_job id (fst (schedulerLoop (ticks1 ++ e :: ticks2) db))
  = Some (set_job_status "running" j).
Proof.
  destruct (scheduler_misses ticks1 db id j Hnd Hf Hmiss) as [H1 H2].
  split; [exact H1|]. split; [exact H2|].
  assert (Hnd1 : NoDup (map job_id (jobs (fst (schedulerLoop ticks1 db))))).
  { destruct (scheduler_spec ticks1 db Hnd) as [_ [_ [-> _]]]. exact Hnd. }
  destruct (enqueue_claims e _ id j Hnd1 H1 Hp Hhit) as [H3 H4].
  rewrite schedulerLoop_app. cbn [schedulerLoop fst snd]. split.
  - apply in_or_app. right. apply in_or_app. left. exact H4.
  - apply scheduler_keeps_row; auto.
    + destruct (enqueue_keys e (fst (schedulerLoop ticks1 db))) as [-> _].
      exact Hnd1.
    + simpl. discriminate.
Qed.

Lemma scheduler_retries_witness :
  In (row_of_job demo_job)
    (snd (schedulerLoop
            ([demo_tick 99 true; demo_tick 104 false]
             ++ demo_tick 109 true :: [])
            demo_db2)).
Proof.
  refine (proj1 (proj2 (proj2
            (scheduler_retries [demo_tick 99 true; demo_tick 104 false]
               (demo_tick 109 true) [] demo_db2 "j1" demo_job
               _ eq_refl eq_refl eq_refl eq_refl)))).
  simpl. constructor; [simpl; tauto | constructor].
Defined.

Lemma scheduler_dispatches_once_witness :
  NoDup (map jr_id
           (snd (schedulerLoop [demo_tick 100 true; demo_tick 105 true]
                   demo_db2))).
Proof.
  refine (proj1 (scheduler_dispatches_once
                   [demo_tick 100 true; demo_tick 105 true] demo_db2 _)).
  simpl. constructor; [simpl; tauto | constructor].
Defined.

(** * What no step of the system does *)

(** A step keeps every job row, with its subject, body, due time and
    creation time. *)
Lemma step_job_row s s' id j :
  step s s' -> find_job id (st_db s) = Some j ->
  exists j',
    find_job id (st_db s') = Some j' /\
    job_subject j' = job_subject j /\ job_body j' = job_body j /\
    job_scheduled_at j' = job_scheduled_at j /\
    job_created_at j' = job_created_at j.
Proof.
  intros Hstep Hf.
  destruct (step_job_effect _ _ Hstep)
    as [E|[[i [sj [bd [ts E]]]]|[[r [rest [Hs E]]]|[i [st [Hin [Ht E]]]]]]].
  - exists j. rewrite (find_job_jobs _ _ _ E). auto.
  - exists j. destruct (find_job_insert _ _ _ _ _ _ _ _ id E) as [_ ->].
    rewrite Hf. auto.
  - rewrite E, find_job_update_status, Hf.
    destruct (id =? jr_id r); eexists; split; try reflexivity; simpl; auto.
  - rewrite E, find_job_update_done, Hf.
    destruct (id =? i); eexists; split; try reflexivity; simpl; auto.
Qed.

Lemma step_jobs_grow s s' :
  step s s' ->
  exists extra,
    map job_id (jobs (st_db s')) = map job_id (jobs (st_db s)) ++ extra.
Proof.
  intros Hstep.
  destruct (step_job_effect _ _ Hstep)
    as [E|[[i [sj [bd [ts E]]]]|[[r [rest [Hs E]]]|[i [st [Hin [Ht E]]]]]]].
  - exists []. rewrite E, app_nil_r. reflexivity.
  - unfold insert_job in E. destruct (has_key _ _ _); [discriminate|].
    inversion E as [E']. exists [i]. simpl. rewrite map_app. reflexivity.
  - exists []. rewrite E, app_nil_r. simpl. apply update_where_keys.
    reflexivity.
  - exists []. rewrite E, app_nil_r. simpl. apply update_where_keys.
    reflexivity.
Qed.

Lemma step_subscribers_grow s s' :
  step s s' ->
  exists extra, subscribers (st_db s') = subscribers (st_db s) ++ extra.
Proof.
  intros Hstep.
  destruct Hstep; simpl;
    try (exists []; rewrite app_nil_r; reflexivity).
  - exists []. rewrite app_nil_r. unfold insert_job in H.
    destruct (has_key _ _ _); [discriminate|]. inversion H. reflexivity.
  - apply insert_subscriber_some in H. destruct H as [_ [_ ->]].
    eexists. reflexivity.
  - exists []. rewrite app_nil_r. unfold claim_row in H0.
    destruct scan_ok, exec_ok; inversion H0; reflexivity.
  - exists []. rewrite app_nil_r. unfold fail_job. destruct ok; reflexivity.
  - exists []. rewrite app_nil_r.
    apply (proj2 (expand_row_jobs _ _ _ _ _ _ _ _ _ H1)).
  - exists []. rewrite app_nil_r. unfold finish_job. destruct ok; reflexivity.
  - exists []. rewrite app_nil_r. unfold worker_mark. destruct ok; reflexivity.
  - exists []. rewrite app_nil_r. unfold worker_record.
    destruct (doSend smtp t), ok; reflexivity.
Qed.

(** The sends table changes in a step by the INSERT of a dispatcher in its
    first loop, by the first UPDATE of a worker that holds an unmarked task,
    or by the second UPDATE of a worker that holds a marked one. *)
Lemma step_send_change s s' :
  step s s' ->
  sends (st_db s') = sends (st_db s)
  \/ (exists d r rest tasks id,
        In d (st_disp s) /\ d_phase d = DRows (r :: rest) tasks /\
        insert_send id (d_job d) (sr_id r) (sr_email r) "queued" (st_clock s)
                    (st_db s) = Some (st_db s'))
  \/ (exists t f,
        ((exists ws1 ws2, st_workers s = ws1 ++ WMark t :: ws2) /\
         f = set_send_sending
         \/ (exists ws1 ws2, st_workers s = ws1 ++ WSend t :: ws2) /\
            ((exists msg, f = set_send_failed msg) \/
             f = set_send_sent (st_clock s))) /\
        st_db s' = with_sends (st_db s)
                     (update_where send_id (SendID t) f (sends (st_db s)))).
Proof.
  intros Hstep. destruct Hstep; simpl; auto.
  - unfold insert_job in H. destruct (has_key _ _ _); [discriminate|].
    inversion H. auto.
  - unfold insert_subscriber in H. destruct (_ || _); [discriminate|].
    inversion H. auto.
  - unfold claim_row in H0.
    destruct scan_ok, exec_ok; inversion H0; subst; auto.
  - unfold fail_job. destruct ok; auto.
  - destruct (expand_row_cases _ _ _ _ _ _ _ _ _ H1) as [[-> ->]|[Hins ->]];
      auto.
    right. left. exists d, r, rest, tasks, id. repeat split; auto.
    rewrite H. apply in_or_app. right. left. reflexivity.
  - unfold finish_job. destruct ok; auto.
  - unfold worker_mark. destruct ok; simpl; auto.
    right. right. exists t, set_send_sending. split; auto. left. eauto.
  - unfold worker_record. destruct (doSend smtp t) as [msg|], ok; simpl; auto.
    + right. right. exists t, (set_send_failed msg). split; auto.
      right. split; eauto.
    + right. right. exists t, (set_send_sent (st_clock s)). split; auto.
      right. split; eauto.
Qed.

(** A step keeps every Send row, with its job, its subscriber, its address
    and its creation time. *)
Lemma step_send_row s s' id x :
  step s s' -> find_send id (st_db s) = Some x ->
  exists x',
    find_send id (st_db s') = Some x' /\
    send_job_id x' = send_job_id x /\
    send_subscriber_id x' = send_subscriber_id x /\
    send_email x' = send_email x /\
    send_created_at x' = send_created_at x.
Proof.
  intros Hstep Hf.
  destruct (step_send_change _ _ Hstep)
    as [E|[[d [r [rest [tasks [i [_ [_ E]]]]]]]|[t [f [Hw E]]]]].
  - exists x. unfold find_send in *. rewrite E. auto.
  - exists x. destruct (find_send_insert _ _ _ _ _ _ _ _ id E) as [_ [_ ->]].
    rewrite Hf. auto.
  - assert (Hk : forall y, send_id (f y) = send_id y /\
                           send_job_id (f y) = send_job_id y /\
                           send_subscriber_id (f y) = send_subscriber_id y /\
                           send_email (f y) = send_email y /\
                           send_created_at (f y) = send_created_at y).
    { destruct Hw as [[_ ->]|[_ [[msg ->]| ->]]]; intros y; simpl; auto. }
    rewrite E, find_send_update by (intros y; apply Hk). rewrite Hf.
    destruct (id =? SendID t); eexists; split; try reflexivity; auto.
    simpl. destruct (Hk x) as [_ H]. exact H.
Qed.

Lemma step_sends_grow s s' :
  step s s' ->
  exists extra,
    map send_id (sends (st_db s')) = map send_id (sends (st_db s)) ++ extra.
Proof.
  intros Hstep.
  destruct (step_send_change _ _ Hstep)
    as [E|[[d [r [rest [tasks [i [_ [_ E]]]]]]]|[t [f [Hw E]]]]].
  - exists []. rewrite E, app_nil_r. reflexivity.
  - destruct (insert_send_keys _ _ _ _ _ _ _ _ E) as [_ ->]. eauto.
  - exists []. rewrite E, app_nil_r. simpl. apply update_where_keys.
    destruct Hw as [[_ ->]|[_ [[msg ->]| ->]]]; reflexivity.
Qed.

(** X10: no sequence of steps of the system removes a row: the ids of the
    jobs and of the Sends and the rows of the subscribers of the earlier
    state are there in the later one, in their order, with new ones behind
    them; a subscriber row is never changed; a job keeps its subject, body,
    due time and creation time, and a Send keeps its job, its subscriber,
    its address and its creation time. *)
Theorem nothing_removed (s s' : State) (Hs : steps s s') :
  (exists extra,
     map job_id (jobs (st_db s')) = map job_id (jobs (st_db s)) ++ extra) /\
  (exists extra,
     subscribers (st_db s') = subscribers (st_db s) ++ extra) /\
  (exists extra,
     map send_id (sends (st_db s')) = map send_id (sends (st_db s)) ++ extra) /\
  (forall id j, find_job id (st_db s) = Some j ->
     exists j',
       find_job id (st_db s') = Some j' /\
       job_subject j' = job_subject j /\ job_body j' = job_body j /\
       job_scheduled_at j' = job_scheduled_at j /\
       job_created_at j' = job_created_at j) /\
  (forall id x, find_send id (st_db s) = Some x ->
     exists x',
       find_send id (st_db s') = Some x' /\
       send_job_id x' = send_job_id x /\
       send_subscriber_id x' = send_subscriber_id x /\
       send_email x' = send_email x /\
       send_created_at x' = send_created_at x).
Proof.
  induction Hs as [s|s s1 s2 Hs IH Hstep].
  - repeat split; try (exists []; rewrite app_nil_r; reflexivity); eauto.
    + intros id j Hf. exists j. auto.
    + intros id x Hf. exists x. auto.
  - destruct IH as [[e1 H1] [[e2 H2] [[e3 H3] [H4 H5]]]].
    destruct (step_jobs_grow _ _ Hstep) as [f1 F1].
    destruct (step_subscribers_grow _ _ Hstep) as [f2 F2].
    destruct (step_sends_grow _ _ Hstep) as [f3 F3].
    split; [exists (e1 ++ f1); rewrite F1, H1, app_assoc; reflexivity|].
    split; [exists (e2 ++ f2); rewrite F2, H2, app_assoc; reflexivity|].
    split; [exists (e3 ++ f3); rewrite F3, H3, app_assoc; reflexivity|].
    split.
    + intros id j Hf. destruct (H4 id j Hf) as [j1 [Hf1 [A [B [C D]]]]].
      destruct (step_job_row _ _ id j1 Hstep Hf1) as [j2 [Hf2 [A' [B' [C' D']]]]].
      exists j2. repeat split; congruence.
    + intros id x Hf. destruct (H5 id x Hf) as [x1 [Hf1 [A [B [C D]]]]].
      destruct (step_send_row _ _ id x1 Hstep Hf1)
        as [x2 [Hf2 [A' [B' [C' D']]]]].
      exists x2. repeat split; congruence.
Qed.

(** * Well-formed job rows *)

Lemma step_job_shape s s' :
  jobs_inv s -> step s s' ->
  (forall j, In j (jobs (st_db s)) -> job_shape j) ->
  forall j, In j (jobs (st_db s')) -> job_shape j.
Proof.
  intros J Hstep Hwf j Hin.
  destruct (step_job_effect _ _ Hstep)
    as [E|[[i [sj [bd [ts E]]]]|[[r [rest [Hs E]]]|[i [st [Hd [Ht E]]]]]]].
  - rewrite E in Hin. auto.
  - unfold insert_job in E. destruct (has_key _ _ _); [discriminate|].
    inversion E as [E']. rewrite <- E' in Hin. simpl in Hin.
    apply in_app_or in Hin. destruct Hin as [Hin|[<-|[]]]; auto.
    unfold job_shape. simpl. auto.
  - rewrite E in Hin. simpl in Hin. apply in_update_where in Hin.
    destruct Hin as [x [Hx [->|[Hk ->]]]]; auto.
    destruct (ji_rows s J _ r Hs (or_introl eq_refl)) as [j0 [Hf0 [Hp Hdue]]].
    assert (x = j0).
    { unfold find_job in Hf0. rewrite <- Hk in Hf0.
      rewrite (find_in_nodup job_id _ x (ji_nodup s J) Hx) in Hf0.
      congruence. }
    subst x. pose proof (Hwf j0 Hx) as W.
    unfold job_shape in *. simpl.
    destruct (job_completed_at j0) as [c|]; auto.
    unfold terminal_job_status in W. rewrite Hp in W.
    destruct W as [W|[W|W]]; discriminate.
  - rewrite E in Hin. simpl in Hin. apply in_update_where in Hin.
    destruct Hin as [x [Hx [->|[Hk ->]]]]; [apply Hwf; exact Hx|].
    unfold job_shape. simpl. exact Ht.
Qed.

Lemma reachable_job_shape s :
  reachable s -> forall j, In j (jobs (st_db s)) -> job_shape j.
Proof.
  induction 1 as [t0|s s' Hr IH Hstep].
  - intros j [].
  - apply (step_job_shape s); auto. apply reachable_jobs_inv. exact Hr.
Qed.

(** The row of a job that is completed, completed_with_errors or failed is
    written by no step. *)
Lemma terminal_job_step s s' id j :
  jobs_inv s -> step s s' ->
  find_job id (st_db s) = Some j -> terminal_job_status (job_status j) ->
  find_job id (st_db s') = Some j.
Proof.
  intros J Hstep Hf Ht.
  assert (Hnp : job_status j <> "pending" /\ job_status j <> "running").
  { unfold terminal_job_status in Ht.
    destruct Ht as [-> | [-> | ->]]; split; discriminate. }
  destruct (step_job_effect _ _ Hstep)
    as [E|[[i [sj [bd [ts E]]]]|[[r [rest [Hs E]]]|[i [st [Hin [_ E]]]]]]].
  - rewrite (find_job_jobs _ _ _ E). exact Hf.
  - destruct (find_job_insert _ _ _ _ _ _ _ _ id E) as [_ ->].
    rewrite Hf. reflexivity.
  - rewrite E, find_job_update_status.
    destruct (id =? jr_id r) eqn:K; auto.
    apply String.eqb_eq in K. subst id.
    destruct (ji_rows s J _ r Hs (or_introl eq_refl)) as [j0 [Hf0 [Hp _]]].
    rewrite Hf in Hf0. inversion Hf0; subst j0. tauto.
  - rewrite E, find_job_update_done.
    destruct (id =? i) eqn:K; auto.
    apply String.eqb_eq in K. subst i.
    pose proof (ji_disp s J _ Hin) as Hrun. unfold status_of_job in Hrun.
    rewrite Hf in Hrun. simpl in Hrun. inversion Hrun. tauto.
Qed.

Lemma terminal_job_steps s s' id j :
  reachable s -> steps s s' ->
  find_job id (st_db s) = Some j -> terminal_job_status (job_status j) ->
  find_job id (st_db s') = Some j.
Proof.
  intros Hr Hs Hf Ht. induction Hs as [s|s s' s'' Hs IH Hstep]; auto.
  apply (terminal_job_step s'); auto.
  apply reachable_jobs_inv. eapply steps_reachable; eauto.
Qed.

(** X11: in every reachable state a job row has a completion time exactly
    when its status is completed, completed_with_errors or failed, and none
    exactly when it is pending or running; and the row of such a finished
    job is never written again: its status and its completion time stay as
    the dispatcher's UPDATE left them. *)
Theorem job_rows_well_formed (s s' : State) (j : Job)
    (Hr : reachable s) (Hin : In j (jobs (st_db s))) (Hs : steps s s') :
  (job_completed_at j = None <->
   job_status j = "pending" \/ job_status j = "running") /\
  (job_completed_at j <> None <-> terminal_job_status (job_status j)) /\
  (terminal_job_status (job_status j) ->
   find_job (job_id j) (st_db s') = Some j).
Proof.
  pose proof (reachable_job_shape s Hr j Hin) as W. unfold job_shape in W.
  split; [|split].
  - destruct (job_completed_at j) as [c|].
    + split; [discriminate|]. unfold terminal_job_status in W.
      destruct W as [W|[W|W]]; rewrite W; intros [H|H]; discriminate.
    + tauto.
  - destruct (job_completed_at j) as [c|].
    + split; [auto|discriminate].
    + split; [congruence|]. unfold terminal_job_status.
      destruct W as [-> | ->]; intros [H|[H|H]]; discriminate.
  - intros Ht. apply (terminal_job_steps s s' _ j Hr Hs); auto.
    unfold find_job. apply (find_in_nodup job_id); auto.
    apply (ji_nodup s (reachable_jobs_inv s Hr)).
Qed.

(** * Well-formed Send rows *)

Ltac unmarked_sum :=
  unfold held, unmarked, marked;
  cbn [st_db st_clock st_sched st_disp st_queue st_workers st_outbox
       with_db with_clock with_sched with_disp with_queue with_workers
       with_outbox restart];
  repeat first
    [ held_hyp
    | rewrite flat_map_app
    | rewrite map_app
    | rewrite cnt_app
    | rewrite cnt_cons
    | rewrite cnt_nil
    | progress cbn [flat_map map app phase_tasks worker_tasks wmark_tasks
                    wsend_tasks d_phase set_phase spawn SendID] ].

Lemma cnt_workers_split i ws :
  cnt i (map SendID (flat_map worker_tasks ws))
  = cnt i (map SendID (flat_map wmark_tasks ws))
    + cnt i (map SendID (flat_map wsend_tasks ws)).
Proof.
  induction ws as [|w ws IH]; [reflexivity|].
  cbn [flat_map]. rewrite !map_app, !cnt_app, IH.
  destruct w; simpl; rewrite ?cnt_cons, ?cnt_nil; lia.
Qed.

Lemma cnt_held_split i s :
  cnt i (held s) = cnt i (unmarked s) + cnt i (marked s).
Proof.
  unfold held, unmarked, marked. rewrite !map_app, !cnt_app.
  rewrite cnt_workers_split. lia.
Qed.


Lemma send_rows_same s s' :
  sends (st_db s') = sends (st_db s) ->
  (forall i, cnt i (unmarked s') <= cnt i (unmarked s)) ->
  send_rows_inv s -> send_rows_inv s'.
Proof.
  intros Hs Hc [R1 R2]. constructor.
  - intros id Hin. rewrite (status_of_send_sends _ _ _ Hs). apply R1.
    apply cnt_in. apply cnt_in in Hin. specialize (Hc id). lia.
  - rewrite Hs. exact R2.
Qed.

Lemma find_send_row db x :
  NoDup (map send_id (sends db)) -> In x (sends db) ->
  find_send (send_id x) db = Some x.
Proof. intros Hnd Hin. apply (find_in_nodup send_id); auto. Qed.

Lemma step_send_rows s s' :
  sends_inv s -> send_rows_inv s -> step s s' -> send_rows_inv s'.
Proof.
  intros S R Hstep.
  destruct Hstep;
    try (apply (send_rows_same s); [reflexivity | | exact R];
         intros i; unmarked_sum; lia).
  - (* schedule *)
    apply (send_rows_same s); [| | exact R].
    + unfold insert_job in H. destruct (has_key _ _ _); [discriminate|].
      inversion H. reflexivity.
    + intros i. unmarked_sum. lia.
  - (* upload *)
    apply (send_rows_same s); [| | exact R].
    + unfold insert_subscriber in H. destruct (_ || _); [discriminate|].
      inversion H. reflexivity.
    + intros i. unmarked_sum. lia.
  - (* tick_row *)
    apply (send_rows_same s); [| | exact R].
    + unfold claim_row in H0.
      destruct scan_ok, exec_ok; inversion H0; reflexivity.
    + intros i. destruct spawned; unmarked_sum; lia.
  - (* enum *)
    apply (send_rows_same s); [reflexivity | | exact R].
    intros i. destruct (enumerate ok (st_db s)); unmarked_sum; lia.
  - (* enum_failed *)
    apply (send_rows_same s); [| | exact R].
    + unfold fail_job. destruct ok; reflexivity.
    + intros i. unmarked_sum. lia.
  - (* row *)
    destruct (expand_row_cases _ _ _ _ _ _ _ _ _ H1) as [[-> ->]|[Hins ->]].
    + apply (send_rows_same s); [reflexivity | | exact R].
      intros i. unmarked_sum. lia.
    + simpl in Hins. destruct R as [R1 R2].
      assert (Hcnt : forall i, cnt i (unmarked (with_disp (with_db s db')
                 (ds1 ++ set_phase d (DRows rest (tasks ++
                    [{| SendID := id; JobID := d_job d; Email := sr_email r;
                        Subject := d_subject d; Body := d_body d |}])) :: ds2)))
               = cnt i (unmarked s) + one i id).
      { intros i. unmarked_sum. lia. }
      constructor.
      * intros i Hin. apply cnt_in in Hin. rewrite Hcnt in Hin. simpl.
        destruct (status_of_send_insert _ _ _ _ _ _ _ _ i Hins) as [Hn ->].
        destruct (string_dec id i) as [->|Hne].
        -- rewrite Hn, String.eqb_refl. reflexivity.
        -- rewrite one_other in Hin by auto.
           rewrite (R1 i) by (apply cnt_in; lia). reflexivity.
      * intros x Hin. simpl in Hin. unfold insert_send in Hins.
        destruct (has_key _ _ _); [discriminate|]. inversion Hins; subst db'.
        simpl in Hin. apply in_app_or in Hin. destruct Hin as [Hin|[<-|[]]].
        -- apply R2. exact Hin.
        -- left. simpl. auto.
  - (* poll *)
    apply (send_rows_same s); [reflexivity | | exact R].
    intros i. destruct (poll_remaining ok (d_job d) (st_db s) =? 0)%nat;
      unmarked_sum; lia.
  - (* update *)
    apply (send_rows_same s); [| | exact R].
    + unfold finish_job. destruct ok; reflexivity.
    + intros i. unmarked_sum. lia.
  - (* mark *)
    destruct R as [R1 R2]. pose proof S as [S1 S2 S3].
    assert (Hcnt : forall i, cnt i (unmarked s)
               = cnt i (unmarked (with_workers
                   (with_db s (worker_mark ok t (st_db s)))
                   (ws1 ++ WSend t :: ws2))) + one i (SendID t)).
    { intros i. unmarked_sum. lia. }
    assert (Hq : status_of_send (SendID t) (st_db s) = Some "queued").
    { apply R1. apply cnt_in. rewrite Hcnt, one_same. lia. }
    constructor.
    + intros i Hin. apply cnt_in in Hin. simpl.
      assert (Hi : In i (unmarked s)) by (apply cnt_in; rewrite Hcnt; lia).
      destruct (worker_mark_status ok t i (st_db s)) as [-> | [-> _]]; auto.
      exfalso. rewrite cnt_nodup in S2. specialize (S2 (SendID t)).
      rewrite cnt_held_split, Hcnt, one_same in S2. lia.
    + intros x Hin. simpl in Hin. unfold worker_mark, exec in Hin.
      destruct ok; [|apply R2; exact Hin]. simpl in Hin.
      apply in_update_where in Hin. destruct Hin as [y [Hy [->|[Hk ->]]]];
        [apply R2; exact Hy|].
      pose proof (find_send_row _ y S1 Hy) as Hf. rewrite Hk in Hf.
      unfold status_of_send in Hq. rewrite Hf in Hq. simpl in Hq.
      inversion Hq as [Hst].
      destruct (R2 y Hy) as [[_ [A [B C]]]|[[W _]|[[W _]|[W _]]]];
        try congruence.
      right. left. simpl. rewrite A. auto.
  - (* send *)
    destruct R as [R1 R2]. pose proof S as [S1 S2 S3].
    assert (Hcnt : forall i, cnt i (unmarked (with_outbox (with_workers
                   (with_db s (worker_record (doSend smtp t) (st_clock s) ok t
                                 (st_db s)))
                   (ws1 ++ WIdle :: ws2)) (st_outbox s ++ [t])))
               = cnt i (unmarked s)).
    { intros i. unmarked_sum. lia. }
    assert (Hm : cnt (SendID t) (marked s) >= 1).
    { unmarked_sum. rewrite one_same. lia. }
    assert (Hheld : In (SendID t) (held s))
      by (eapply in_held_worker; eauto).
    constructor.
    + intros i Hin. apply cnt_in in Hin. rewrite Hcnt in Hin. simpl.
      destruct (worker_record_status (doSend smtp t) (st_clock s) ok t i
                  (st_db s)) as [-> | [-> _]].
      * apply R1. apply cnt_in. exact Hin.
      * exfalso. rewrite cnt_nodup in S2. specialize (S2 (SendID t)).
        rewrite cnt_held_split in S2. lia.
    + intros x Hin. simpl in Hin. unfold worker_record, exec in Hin.
      destruct (S3 _ Hheld) as [Hq|Hq];
        destruct (doSend smtp t) as [msg|], ok; try (apply R2; exact Hin);
        simpl in Hin; apply in_update_where in Hin;
        destruct Hin as [y [Hy [->|[Hk ->]]]]; try (apply R2; exact Hy);
        pose proof (find_send_row _ y S1 Hy) as Hf; rewrite Hk in Hf;
        unfold status_of_send in Hq; rewrite Hf in Hq; simpl in Hq;
        inversion Hq as [Hst];
        destruct (R2 y Hy) as [[_ [A [B C]]]|[[W [A [B C]]]|[[W _]|[W _]]]];
        try congruence; unfold send_wf; simpl; rewrite A;
        try (right; right; right; repeat split; auto; try lia; discriminate);
        try (right; right; left; repeat split; auto; try lia; discriminate).
Qed.

Lemma send_rows_init t0 : send_rows_inv (init t0).
Proof. constructor; simpl; intros x []. Qed.

Lemma reachable_send_rows s : reachable s -> send_rows_inv s.
Proof.
  induction 1 as [t0|s s' Hr IH Hstep].
  - apply send_rows_init.
  - eapply step_send_rows; eauto. apply reachable_sends_inv. exact Hr.
Qed.

(** X12: in every reachable state every Send row is in one of four shapes:
    queued with attempts 0, sending with attempts 1, sent with a sent time
    and no error text, or failed with an error text and no sent time; the
    attempts of a Send never exceed 1, since no task is delivered again.  A
    Send whose task has not reached a worker's first UPDATE is queued. *)
Theorem send_rows_well_formed (s : State) (x : Send)
    (Hr : reachable s) (Hin : In x (sends (st_db s))) :
  send_wf x /\
  (0 <= send_attempts x <= 1)%Z /\
  (send_sent_at x <> None <-> send_status x = "sent") /\
  (send_last_error x <> None <-> send_status x = "failed") /\
  (In (send_id x) (unmarked s) -> send_status x = "queued").
Proof.
  pose proof (reachable_send_rows s Hr) as [R1 R2].
  pose proof (R2 x Hin) as W.
  split; [exact W|].
  split; [|split; [|split]].
  - destruct W as [[_ [A _]]|[[_ [A _]]|[[_ [A _]]|[_ [A _]]]]]; lia.
  - destruct W as [[S [_ [B C]]]|[[S [_ [B C]]]|[[S [_ [B C]]]|[S [_ [B C]]]]]];
      rewrite S; split; intros H; try congruence; try discriminate; auto.
  - destruct W as [[S [_ [B C]]]|[[S [_ [B C]]]|[[S [_ [B C]]]|[S [_ [B C]]]]]];
      rewrite S; split; intros H; try congruence; try discriminate; auto.
  - intros Hu. apply R1 in Hu. unfold status_of_send in Hu.
    rewrite (find_send_row _ x (si_nodup s (reachable_sends_inv s Hr)) Hin)
      in Hu.
    simpl in Hu. congruence.
Qed.

Lemma demo_steps_13_16 : steps demo_s13 demo_s16.
Proof.
  apply (steps_next _ demo_s15); [|exact demo_step_15_16].
  apply (steps_next _ demo_s14); [|exact demo_step_14_15].
  apply (steps_next _ demo_s13); [|exact demo_step_13_14].
  apply steps_refl.
Qed.

Lemma nothing_removed_witness :
  exists extra,
    subscribers (st_db demo_s16) = subscribers (st_db demo_s13) ++ extra.
Proof.
  exact (proj1 (proj2 (nothing_removed demo_s13 demo_s16 demo_steps_13_16))).
Defined.

Lemma send_rows_well_formed_witness :
  (0 <= send_attempts
          (set_send_sent 100
             (set_send_sending
                {| send_id := "s1"; send_job_id := "j1";
                   send_subscriber_id := "u1"; send_email := "a@example.com";
                   send_status := "queued"; send_attempts := 0;
                   send_last_error := None; send_created_at := 100;
                   send_sent_at := None |})) <= 1)%Z.
Proof.
  exact (proj1 (proj2 (send_rows_well_formed demo_s13 _ demo_s13_reachable
                         (or_introl eq_refl)))).
Defined.

(** * Deliveries *)

Lemma delivery_same s s' :
  sends (st_db s') = sends (st_db s) ->
  st_outbox s' = st_outbox s ->
  (forall i, cnt i (held s') <= cnt i (held s)) ->
  delivery_inv s -> delivery_inv s'.
Proof.
  intros Hs Ho Hc [D1 D2 D3]. constructor.
  - intros i. rewrite Ho. specialize (D1 i). specialize (Hc i). lia.
  - intros t Hin. rewrite (status_of_send_sends _ _ _ Hs). apply D2.
    rewrite <- Ho. exact Hin.
  - intros id st Hst Ht. rewrite Ho. apply (D3 id st); auto.
    rewrite <- (status_of_send_sends _ _ _ Hs). exact Hst.
Qed.

Lemma step_delivery s s' :
  sends_inv s -> delivery_inv s -> step s s' -> delivery_inv s'.
Proof.
  intros S D Hstep.
  destruct Hstep;
    try (apply (delivery_same s); [reflexivity | reflexivity | | exact D];
         intros i; held_sum; lia).
  - (* schedule *)
    apply (delivery_same s); [| reflexivity | | exact D].
    + unfold insert_job in H. destruct (has_key _ _ _); [discriminate|].
      inversion H. reflexivity.
    + intros i. held_sum. lia.
  - (* upload *)
    apply (delivery_same s); [| reflexivity | | exact D].
    + unfold insert_subscriber in H. destruct (_ || _); [discriminate|].
      inversion H. reflexivity.
    + intros i. held_sum. lia.
  - (* tick_row *)
    apply (delivery_same s); [| reflexivity | | exact D].
    + unfold claim_row in H0.
      destruct scan_ok, exec_ok; inversion H0; reflexivity.
    + intros i. destruct spawned; held_sum; lia.
  - (* enum *)
    apply (delivery_same s); [reflexivity | reflexivity | | exact D].
    intros i. destruct (enumerate ok (st_db s)); held_sum; lia.
  - (* enum_failed *)
    apply (delivery_same s); [| reflexivity | | exact D].
    + unfold fail_job. destruct ok; reflexivity.
    + intros i. held_sum. lia.
  - (* row *)
    destruct (expand_row_cases _ _ _ _ _ _ _ _ _ H1) as [[-> ->]|[Hins ->]].
    + apply (delivery_same s); [reflexivity | reflexivity | | exact D].
      intros i. held_sum. lia.
    + simpl in Hins. destruct D as [D1 D2 D3]. pose proof S as [S1 S2 S3].
      pose proof (fun i => status_of_send_insert _ _ _ _ _ _ _ _ i Hins)
        as Hstat.
      assert (Hnone : status_of_send id (st_db s) = None)
        by (apply (Hstat id)).
      assert (Hcnt : forall i, cnt i (held (with_disp (with_db s db')
                 (ds1 ++ set_phase d (DRows rest (tasks ++
                    [{| SendID := id; JobID := d_job d; Email := sr_email r;
                        Subject := d_subject d; Body := d_body d |}])) :: ds2)))
               = cnt i (held s) + one i id).
      { intros i. held_sum. lia. }
      constructor.
      * intros i. rewrite Hcnt. cbn [st_outbox with_disp with_db].
        specialize (D1 i).
        destruct (string_dec id i) as [->|Hne];
          [|rewrite one_other by auto; lia].
        rewrite one_same.
        assert (cnt i (held s) = 0).
        { destruct (cnt i (held s)) eqn:C; auto. exfalso.
          assert (Hin : In i (held s)) by (apply cnt_in; lia).
          apply S3 in Hin. rewrite Hnone in Hin. destruct Hin; discriminate. }
        assert (cnt i (map SendID (st_outbox s)) = 0).
        { destruct (cnt i (map SendID (st_outbox s))) eqn:C; auto. exfalso.
          assert (Hin : In i (map SendID (st_outbox s)))
            by (apply cnt_in; lia).
          apply in_map_iff in Hin. destruct Hin as [t0 [<- Hin]].
          apply (D2 t0 Hin). exact Hnone. }
        lia.
      * intros t0 Hin. cbn [st_outbox st_db with_disp with_db] in *.
        destruct (Hstat (SendID t0)) as [_ ->].
        pose proof (D2 t0 Hin) as Hex.
        destruct (status_of_send (SendID t0) (st_db s)); congruence.
      * intros i st Hst Ht. cbn [st_outbox st_db with_disp with_db] in *.
        destruct (Hstat i) as [_ Hi]. rewrite Hi in Hst.
        destruct (status_of_send i (st_db s)) as [st0|] eqn:E.
        -- inversion Hst; subst. apply (D3 i st); auto.
        -- destruct (id =? i); [|discriminate]. inversion Hst; subst st.
           unfold terminal_send_status in Ht. destruct Ht; discriminate.
  - (* poll *)
    apply (delivery_same s); [reflexivity | reflexivity | | exact D].
    intros i. destruct (poll_remaining ok (d_job d) (st_db s) =? 0)%nat;
      held_sum; lia.
  - (* update *)
    apply (delivery_same s); [| reflexivity | | exact D].
    + unfold finish_job. destruct ok; reflexivity.
    + intros i. held_sum. lia.
  - (* mark *)
    destruct D as [D1 D2 D3].
    assert (Hcnt : forall i, cnt i (held (with_workers
                 (with_db s (worker_mark ok t (st_db s)))
                 (ws1 ++ WSend t :: ws2))) = cnt i (held s)).
    { intros i. held_sum. lia. }
    constructor; cbn [st_outbox st_db with_workers with_db].
    + intros i. rewrite Hcnt. apply D1.
    + intros t0 Hin. pose proof (D2 t0 Hin) as Hex.
      destruct (worker_mark_status ok t (SendID t0) (st_db s))
        as [-> | [_ ->]]; auto.
      destruct (status_of_send (SendID t0) (st_db s)); simpl; congruence.
    + intros i st Hst Ht.
      destruct (worker_mark_status ok t i (st_db s)) as [E | [_ E]];
        rewrite E in Hst.
      * apply (D3 i st); auto.
      * destruct (status_of_send i (st_db s)); [|discriminate].
        simpl in Hst. inversion Hst; subst st.
        unfold terminal_send_status in Ht. destruct Ht; discriminate.
  - (* send *)
    destruct D as [D1 D2 D3]. pose proof S as [S1 S2 S3].
    assert (Hheld : In (SendID t) (held s))
      by (eapply in_held_worker; eauto).
    assert (Hcnt : forall i, cnt i (held s)
               = cnt i (held (with_outbox (with_workers
                   (with_db s (worker_record (doSend smtp t) (st_clock s) ok t
                                 (st_db s)))
                   (ws1 ++ WIdle :: ws2)) (st_outbox s ++ [t])))
                 + one i (SendID t)).
    { intros i. held_sum. lia. }
    constructor; cbn [st_outbox st_db with_workers with_db with_outbox].
    + intros i. specialize (D1 i). rewrite Hcnt in D1.
      rewrite map_app, cnt_app. cbn [map]. rewrite cnt_cons, cnt_nil. lia.
    + intros t0 Hin.
      assert (Hex : status_of_send (SendID t0) (st_db s) <> None).
      { apply in_app_or in Hin. destruct Hin as [Hin|[<-|[]]]; auto.
        destruct (S3 _ Hheld) as [-> | ->]; discriminate. }
      destruct (worker_record_status (doSend smtp t) (st_clock s) ok t
                  (SendID t0) (st_db s)) as [-> | [_ [st [_ ->]]]]; auto.
      destruct (status_of_send (SendID t0) (st_db s)); simpl; congruence.
    + intros i st Hst Ht. rewrite map_app. apply in_or_app.
      destruct (worker_record_status (doSend smtp t) (st_clock s) ok t i
                  (st_db s)) as [E | [-> _]].
      * left. rewrite E in Hst. apply (D3 i st); auto.
      * right. left. reflexivity.
Qed.

Lemma delivery_init t0 : delivery_inv (init t0).
Proof.
  constructor; simpl.
  - intros i. unfold held. simpl. reflexivity || lia.
  - intros t [].
  - intros id st H. discriminate.
Qed.

Lemma reachable_delivery s : reachable s -> delivery_inv s.
Proof.
  induction 1 as [t0|s s' Hr IH Hstep].
  - apply delivery_init.
  - eapply step_delivery; eauto. apply reachable_sends_inv. exact Hr.
Qed.

(** X13: in every reachable state [doSend] has been called at most once
    for each Send: no Send id occurs twice among the calls, and a Send that
    has had its call has no task left with a dispatcher, on the channel or
    with a worker, so it is not delivered again; every call was for a Send
    of the store; and a Send is sent or failed only after its call. *)
Theorem delivered_at_most_once (s : State) (Hr : reachable s) :
  NoDup (map SendID (st_outbox s)) /\
  (forall t, In t (st_outbox s) ->
     ~ In (SendID t) (held s) /\
     exists x, find_send (SendID t) (st_db s) = Some x) /\
  (forall x, In x (sends (st_db s)) ->
     send_status x = "sent" \/ send_status x = "failed" ->
     In (send_id x) (map SendID (st_outbox s))).
Proof.
  pose proof (reachable_delivery s Hr) as [D1 D2 D3].
  split; [|split].
  - apply cnt_nodup. intros i. specialize (D1 i). lia.
  - intros t Hin. split.
    + intros Hh. apply cnt_in in Hh.
      assert (Ho : 0 < cnt (SendID t) (map SendID (st_outbox s))).
      { apply cnt_in. apply in_map. exact Hin. }
      specialize (D1 (SendID t)). lia.
    + pose proof (D2 t Hin) as Hex. unfold status_of_send in Hex.
      destruct (find_send (SendID t) (st_db s)) as [x|]; eauto.
      simpl in Hex. congruence.
  - intros x Hin Hst. apply (D3 (send_id x) (send_status x)); auto.
    unfold status_of_send.
    rewrite (find_send_row _ x (si_nodup s (reachable_sends_inv s Hr)) Hin).
    reflexivity.
Qed.

Lemma delivered_at_most_once_witness :
  NoDup (map SendID (st_outbox demo_s16)).
Proof.
  refine (proj1 (delivered_at_most_once demo_s16 _)).
  apply demo_reachable. simpl. tauto.
Defined.

(** * What the Sends refer to *)

(** A job becomes failed only by the error branch of its dispatcher. *)
Lemma step_to_failed s s' id :
  step s s' ->
  status_of_job id (st_db s') = Some "failed" ->
  status_of_job id (st_db s) = Some "failed"
  \/ exists d, In d (st_disp s) /\ d_job d = id /\ d_phase d = DEnumFailed.
Proof.
  intros Hstep Hf. destruct Hstep; simpl in Hf; auto.
  - destruct (status_of_job_insert _ _ _ _ _ _ _ _ id H) as [_ E].
    rewrite E in Hf. destruct (status_of_job id (st_db s)); auto.
    destruct (id0 =? id); discriminate.
  - left. rewrite <- Hf. symmetry. apply status_of_job_jobs.
    unfold insert_subscriber in H. destruct (_ || _); [discriminate|].
    inversion H. reflexivity.
  - unfold claim_row in H0.
    destruct scan_ok, exec_ok; inversion H0; subst; auto.
    rewrite status_of_job_update_status in Hf.
    destruct (id =? jr_id r); auto.
    destruct (status_of_job id (st_db s)); discriminate.
  - unfold fail_job in Hf.
    destruct (exec_cases ok (update_job_done "failed" (st_clock s) (d_job d))
                (st_db s)) as [E|E]; rewrite E in Hf; auto.
    rewrite status_of_job_update_done in Hf.
    destruct (id =? d_job d) eqn:K; auto.
    apply String.eqb_eq in K. right. exists d. repeat split; auto.
    rewrite H. apply in_or_app. right. left. reflexivity.
  - left. rewrite <- Hf. symmetry. apply status_of_job_jobs.
    apply (proj1 (expand_row_jobs _ _ _ _ _ _ _ _ _ H1)).
  - unfold finish_job in Hf.
    destruct (exec_cases ok (update_job_done (final_status failed)
                (st_clock s) (d_job d)) (st_db s)) as [E|E];
      rewrite E in Hf; auto.
    rewrite status_of_job_update_done in Hf.
    destruct (id =? d_job d); auto.
    destruct (status_of_job id (st_db s)); [|discriminate].
    simpl in Hf. unfold final_status in Hf.
    destruct (0 <? failed)%nat; discriminate.
  - left. rewrite <- Hf. symmetry. apply status_of_job_jobs.
    apply worker_mark_jobs.
  - left. rewrite <- Hf. symmetry. apply status_of_job_jobs.
    apply worker_record_jobs.
Qed.

(** The step that adds a Send leaves the jobs table alone. *)
Lemma step_insert_send_jobs id jobID sid email st now db db' :
  insert_send id jobID sid email st now db = Some db' ->
  jobs db' = jobs db /\ subscribers db' = subscribers db /\
  sends db' = sends db ++
    [{| send_id := id; send_job_id := jobID; send_subscriber_id := sid;
        send_email := email; send_status := st; send_attempts := 0%Z;
        send_last_error := None; send_created_at := now;
        send_sent_at := None |}].
Proof.
  unfold insert_send. destruct (has_key _ _ _); [discriminate|].
  intros H. inversion H. auto.
Qed.

Lemma rows_known_grow db db' p :
  (exists extra, subscribers db' = subscribers db ++ extra) ->
  rows_known db p -> rows_known db' p.
Proof.
  intros [extra E] H. destruct p; simpl in *; auto.
  intros r Hin. apply H in Hin. unfold select_subscribers in *.
  rewrite E, map_app. apply in_or_app. auto.
Qed.

Lemma in_disp_replace {A : Type} (l1 l2 : list A) (x y z : A) :
  In z (l1 ++ y :: l2) -> z = y \/ In z (l1 ++ x :: l2).
Proof.
  rewrite !in_app_iff. simpl. intros [H|[H|H]]; auto.
Qed.

Lemma in_disp_remove {A : Type} (l1 l2 : list A) (x z : A) :
  In z (l1 ++ l2) -> In z (l1 ++ x :: l2).
Proof.
  rewrite !in_app_iff. simpl. intros [H|H]; auto.
Qed.

Lemma step_rows_known s s' :
  (forall d, In d (st_disp s) -> rows_known (st_db s) (d_phase d)) ->
  step s s' ->
  forall d, In d (st_disp s') -> rows_known (st_db s') (d_phase d).
Proof.
  intros R Hstep.
  assert (R' : forall d, In d (st_disp s) ->
                 rows_known (st_db s') (d_phase d)).
  { intros d Hin. apply (rows_known_grow (st_db s)); auto.
    apply step_subscribers_grow. exact Hstep. }
  clear R. destruct Hstep; cbn [st_disp st_db with_db with_clock with_sched
    with_disp with_queue with_workers with_outbox restart] in *;
    try exact R';
    try (intros d' Hin; apply (in_disp_replace _ _ d) in Hin;
         destruct Hin as [->|Hin]; [exact I | apply R'; rewrite H; exact Hin]).
  - intros d [].
  - intros d Hin. apply in_app_or in Hin. destruct Hin as [Hin|Hin]; auto.
    destruct spawned; simpl in Hin; [|contradiction].
    destruct Hin as [<-|[]]. exact I.
  - intros d' Hin. apply (in_disp_replace _ _ d) in Hin.
    destruct Hin as [->|Hin]; [|apply R'; rewrite H; exact Hin].
    unfold enumerate. destruct ok; simpl; auto. apply incl_refl.
  - intros d' Hin. apply R'. rewrite H. apply in_disp_remove. exact Hin.
  - intros d' Hin. apply (in_disp_replace _ _ d) in Hin.
    destruct Hin as [->|Hin]; [|apply R'; rewrite H; exact Hin].
    assert (Hd : In d (st_disp s))
      by (rewrite H; apply in_or_app; right; left; reflexivity).
    apply R' in Hd. rewrite H0 in Hd. simpl in *.
    intros x Hx. apply Hd. right. exact Hx.
  - intros d' Hin. apply (in_disp_replace _ _ d) in Hin.
    destruct Hin as [->|Hin]; [|apply R'; rewrite H; exact Hin].
    simpl. destruct (poll_remaining ok (d_job d) (st_db s) =? 0)%nat; exact I.
  - intros d' Hin. apply R'. rewrite H. apply in_disp_remove. exact Hin.
Qed.

Lemma step_refs s s' :
  jobs_inv s -> expand_inv s -> refs_inv s -> step s s' -> refs_inv s'.
Proof.
  intros J E [F R U] Hstep. constructor.
  - (* a failed job has no Sends *)
    intros id Hf.
    destruct (step_send_effect _ _ Hstep)
      as [Es|[[d [r [rest [tasks [i [Hin [Hp Es]]]]]]]|[i [f [Hin [Hk [_ Es]]]]]]].
    + rewrite (send_ids_of_sends _ _ _ Es).
      destruct (step_to_failed _ _ _ Hstep Hf) as [H|[d [Hin [<- Hp]]]]; auto.
      pose proof (ei_disp s E d Hin) as Hok. rewrite Hp in Hok. exact Hok.
    + destruct (step_insert_send_jobs _ _ _ _ _ _ _ _ Es) as [Ej _].
      rewrite (status_of_job_jobs _ _ _ Ej) in Hf.
      rewrite (send_ids_of_insert id _ _ _ _ _ _ _ _ Es).
      destruct (d_job d =? id) eqn:K.
      * apply String.eqb_eq in K. subst id.
        rewrite (ji_disp s J (d_job d)) in Hf by (apply in_map; exact Hin).
        discriminate.
      * rewrite app_nil_r. auto.
    + rewrite Es in *. rewrite send_ids_of_update by (intros x; apply Hk).
      apply F. exact Hf.
  - apply (step_rows_known s); auto.
  - intros x Hin.
    assert (G : forall r, In r (select_subscribers (st_db s)) ->
                  In r (select_subscribers (st_db s'))).
    { intros r Hr. destruct (step_subscribers_grow _ _ Hstep) as [extra Ex].
      unfold select_subscribers in *. rewrite Ex, map_app.
      apply in_or_app. auto. }
    destruct (step_send_change _ _ Hstep)
      as [Es|[[d [r [rest [tasks [i [Hd [Hp Es]]]]]]]|[t [f [Hw Es]]]]].
    + apply G, U. rewrite <- Es. exact Hin.
    + destruct (step_insert_send_jobs _ _ _ _ _ _ _ _ Es) as [_ [_ Ex]].
      rewrite Ex in Hin. apply in_app_or in Hin.
      destruct Hin as [Hin|[<-|[]]]; [apply G, U; exact Hin|].
      simpl. apply G. pose proof (R d Hd) as Hr. rewrite Hp in Hr.
      simpl in Hr. destruct r. apply Hr. left. reflexivity.
    + apply G. rewrite Es in Hin. simpl in Hin.
      apply in_update_where in Hin. destruct Hin as [y [Hy [->|[_ ->]]]];
        [apply U; exact Hy|].
      pose proof (U y Hy) as Hu.
      destruct Hw as [[_ ->]|[_ [[msg ->]| ->]]]; exact Hu.
Qed.

Lemma refs_init t0 : refs_inv (init t0).
Proof.
  constructor; simpl.
  - intros id H. discriminate.
  - intros d [].
  - intros x [].
Qed.

Lemma reachable_refs s : reachable s -> refs_inv s.
Proof.
  induction 1 as [t0|s s' Hr IH Hstep].
  - apply refs_init.
  - eapply step_refs; eauto.
    + apply reachable_jobs_inv. exact Hr.
    + apply reachable_expand_inv. exact Hr.
Qed.

Lemma in_sends_of db x : In x (sends db) -> In x (sends_of (send_job_id x) db).
Proof.
  intros Hin. unfold sends_of. apply filter_In. split; auto.
  apply String.eqb_refl.
Qed.

(** X14: in every reachable state each Send refers to rows that exist: its
    job is in the jobs table and has been claimed (it is neither pending
    nor failed, so a job whose subscriber query failed has no Sends), and
    its subscriber id and address are those of one row of the subscribers
    table. *)
Theorem sends_refer_to_rows (s : State) (x : Send)
    (Hr : reachable s) (Hin : In x (sends (st_db s))) :
  (exists j, find_job (send_job_id x) (st_db s) = Some j /\
             job_status j <> "pending" /\ job_status j <> "failed") /\
  (exists u, In u (subscribers (st_db s)) /\
             sub_id u = send_subscriber_id x /\
             sub_email u = send_email x).
Proof.
  pose proof (reachable_refs s Hr) as [F R U].
  pose proof (reachable_expand_inv s Hr) as [E1 E2].
  assert (Hne : send_ids_of (send_job_id x) (st_db s) <> []).
  { unfold send_ids_of. intros Hnil.
    pose proof (in_map send_id _ _ (in_sends_of _ _ Hin)) as Hi.
    rewrite Hnil in Hi. destruct Hi. }
  split.
  - unfold status_of_job in *.
    destruct (find_job (send_job_id x) (st_db s)) as [j|] eqn:Hf.
    + exists j. split; auto. split; intros Hst; apply Hne.
      * apply E1. rewrite Hf. simpl. right. congruence.
      * apply F. rewrite Hf. simpl. congruence.
    + exfalso. apply Hne. apply E1. rewrite Hf. auto.
  - pose proof (U x Hin) as Hu. unfold select_subscribers in Hu.
    apply in_map_iff in Hu. destruct Hu as [u [Eu Hu]].
    exists u. inversion Eu. auto.
Qed.

Lemma sends_refer_to_rows_witness :
  exists u, In u (subscribers (st_db demo_s13)) /\
            sub_id u = "u1" /\ sub_email u = "a@example.com".
Proof.
  exact (proj2 (sends_refer_to_rows demo_s13 _ demo_s13_reachable
                  (or_introl eq_refl))).
Defined.

(** * The tasks and their rows *)

Lemma job_text_step s s' id subject body :
  step s s' ->
  job_text (st_db s) id subject body -> job_text (st_db s') id subject body.
Proof.
  intros Hstep [j [Hf [Hs Hb]]].
  destruct (step_job_row _ _ _ _ Hstep Hf) as [j' [Hf' [Hs' [Hb' _]]]].
  exists j'. repeat split; congruence.
Qed.

Lemma task_ok_step s s' t :
  step s s' -> task_ok (st_db s) t -> task_ok (st_db s') t.
Proof.
  intros Hstep [[x [Hf [Hj He]]] Ht]. split.
  - destruct (step_send_row _ _ _ _ Hstep Hf) as [x' [Hf' [Hj' [_ [He' _]]]]].
    exists x'. repeat split; congruence.
  - eapply job_text_step; eauto.
Qed.

(** A step makes no task but the one of the Send it inserts. *)
Lemma step_tasks_of s s' t :
  step s s' -> In t (tasks_of s') ->
  In t (tasks_of s)
  \/ exists d r rest tasks id,
       In d (st_disp s) /\ d_phase d = DRows (r :: rest) tasks /\
       insert_send id (d_job d) (sr_id r) (sr_email r) "queued" (st_clock s)
                   (st_db s) = Some (st_db s') /\
       t = {| SendID := id; JobID := d_job d; Email := sr_email r;
              Subject := d_subject d; Body := d_body d |}.
Proof.
  intros Hstep Hin.
  destruct Hstep; unfold tasks_of in *;
    cbn [st_disp st_queue st_workers st_outbox st_db with_db with_clock
         with_sched with_disp with_queue with_workers with_outbox restart]
      in *;
    try (left; exact Hin);
    try rewrite H in *;
    repeat (rewrite ?flat_map_app, ?in_app_iff in *;
            cbn [flat_map phase_tasks worker_tasks d_phase set_phase In
                 repeat workerCount app] in * );
    try (rewrite H0 in *; cbn [phase_tasks In] in * );
    try tauto.
  - (* tick_row *)
    left. destruct spawned; simpl in Hin; tauto.
  - (* enum *)
    left. destruct (enumerate ok (st_db s)); simpl in Hin; tauto.
  - (* row *)
    destruct (expand_row_cases _ _ _ _ _ _ _ _ _ H1) as [[-> ->]|[Hins ->]].
    + left. tauto.
    + rewrite in_app_iff in Hin. simpl in Hin, Hins.
      assert (Hd : In d (ds1 ++ d :: ds2))
        by (apply in_or_app; right; left; reflexivity).
      intuition idtac.
      right. exists d, r, rest, tasks, id. repeat split; auto.
  - (* poll *)
    left. destruct (poll_remaining ok (d_job d) (st_db s) =? 0)%nat;
      simpl in Hin; tauto.
Qed.

Lemma step_tasks s s' :
  jobs_inv s -> tasks_inv s -> step s s' -> tasks_inv s'.
Proof.
  intros J [R D T] Hstep.
  assert (K : forall a b c, job_text (st_db s) a b c ->
                            job_text (st_db s') a b c).
  { intros a b c. apply job_text_step. exact Hstep. }
  constructor.
  - (* the rows of the scheduler *)
    clear T. intros rows r0 Hs Hin.
    destruct Hstep;
      cbn [st_sched st_db with_db with_clock with_sched with_disp with_queue
           with_workers with_outbox restart] in *;
      try (apply K; eapply R; eauto; fail);
      try discriminate.
    + destruct ok; [|discriminate]. inversion Hs; subst rows.
      apply in_select_due in Hin. destruct Hin as [j [Hj [-> _]]].
      exists j. repeat split; auto. unfold find_job. simpl.
      apply (find_in_nodup job_id); auto. apply (ji_nodup s J).
    + inversion Hs; subst rows. apply K. eapply R; eauto. right. exact Hin.
  - (* the dispatchers *)
    clear T. intros d0 Hin.
    destruct Hstep;
      cbn [st_disp st_db with_db with_clock with_sched with_disp with_queue
           with_workers with_outbox restart] in *;
      try (apply K; apply D; exact Hin; fail);
      try (apply (in_disp_replace _ _ d) in Hin;
           destruct Hin as [->|Hin];
           [cbn [d_job d_subject d_body set_phase]; apply K; apply (D d);
            rewrite H; apply in_or_app; right; left; reflexivity
           |apply K; apply D; rewrite H; exact Hin]).
    + destruct Hin.
    + apply in_app_or in Hin. destruct Hin as [Hin|Hin];
        [apply K; apply D; exact Hin|].
      unfold claim_row in H0.
      destruct scan_ok, exec_ok; inversion H0; subst; simpl in Hin;
        try contradiction.
      destruct Hin as [<-|[]]. simpl. apply K. eapply R; eauto.
      left. reflexivity.
    + apply K. apply D. rewrite H. apply in_disp_remove. exact Hin.
    + apply K. apply D. rewrite H. apply in_disp_remove. exact Hin.
  - (* the tasks *)
    intros t Hin.
    destruct (step_tasks_of _ _ _ Hstep Hin)
      as [Hold|[d [r [rest [tasks [id [Hd [Hp [Hins ->]]]]]]]]].
    + eapply task_ok_step; eauto.
    + split; cbn [SendID JobID Email Subject Body].
      * destruct (find_send_insert _ _ _ _ _ _ _ _ id Hins) as [Hn [_ ->]].
        rewrite Hn, String.eqb_refl. eexists. split; [reflexivity|].
        split; reflexivity.
      * apply K. apply D. exact Hd.
Qed.

Lemma tasks_init t0 : tasks_inv (init t0).
Proof.
  constructor; simpl.
  - intros rows r H. discriminate.
  - intros d [].
  - intros t [].
Qed.

Lemma reachable_tasks s : reachable s -> tasks_inv s.
Proof.
  induction 1 as [t0|s s' Hr IH Hstep].
  - apply tasks_init.
  - eapply step_tasks; eauto. apply reachable_jobs_inv. exact Hr.
Qed.

(** X15: in every reachable state each call of [doSend] was made with the
    task of a Send of the store: the Send is for the task's job and has the
    task's address, and the subject and the body of the task are those of
    that job in the jobs table. *)
Theorem delivered_what_was_scheduled (s : State) (t : SendTask)
    (Hr : reachable s) (Hin : In t (st_outbox s)) :
  exists x j,
    find_send (SendID t) (st_db s) = Some x /\
    find_job (send_job_id x) (st_db s) = Some j /\
    Email t = send_email x /\
    Subject t = job_subject j /\
    Body t = job_body j.
Proof.
  pose proof (reachable_tasks s Hr) as [_ _ T].
  destruct (T t) as [[x [Hf [Hj He]]] [j [Hfj [Hs Hb]]]].
  - unfold tasks_of. rewrite !in_app_iff. auto.
  - exists x, j. rewrite Hj. auto.
Qed.

Lemma delivered_what_was_scheduled_witness :
  exists x j,
    find_send "s1" (st_db demo_s16) = Some x /\
    find_job (send_job_id x) (st_db demo_s16) = Some j /\
    "a@example.com" = send_email x /\
    "Hello" = job_subject j /\
    "World" = job_body j.
Proof.
  refine (delivered_what_was_scheduled demo_s16 demo_task _ _).
  - apply demo_reachable. simpl. tauto.
  - simpl. auto.
Defined.

(** * Rows no goroutine works on *)

(** A step gives no goroutine a task it did not hold, but for the task of
    the Send it inserts. *)
Lemma step_held_cnt s s' :
  step s s' ->
  (forall i, cnt i (held s') <= cnt i (held s))
  \/ exists id, find_send id (st_db s) = None /\
                forall i, cnt i (held s') = cnt i (held s) + one i id.
Proof.
  intros Hstep.
  destruct Hstep; try (left; intros i; held_sum; lia).
  - left. intros i. destruct spawned; held_sum; lia.
  - left. intros i. destruct (enumerate ok (st_db s)); held_sum; lia.
  - destruct (expand_row_cases _ _ _ _ _ _ _ _ _ H1) as [[-> ->]|[Hins ->]].
    + left. intros i. held_sum. lia.
    + right. exists id. simpl in Hins. split.
      * apply (find_send_insert _ _ _ _ _ _ _ _ id Hins).
      * intros i. cbn [ie_uuid]. held_sum. lia.
  - left. intros i.
    destruct (poll_remaining ok (d_job d) (st_db s) =? 0)%nat; held_sum; lia.
Qed.

Lemma step_held s s' i :
  step s s' -> In i (held s') ->
  In i (held s) \/ find_send i (st_db s) = None.
Proof.
  intros Hstep Hin. apply cnt_in in Hin.
  destruct (step_held_cnt _ _ Hstep) as [Hle|[id [Hn He]]].
  - left. apply cnt_in. specialize (Hle i). lia.
  - rewrite He in Hin. destruct (string_dec id i) as [->|Hne]; auto.
    rewrite one_other in Hin by auto. left. apply cnt_in. lia.
Qed.

(** [doSend] is called by a worker with the task it holds. *)
Lemma step_outbox s s' :
  step s s' ->
  st_outbox s' = st_outbox s
  \/ exists t, In (SendID t) (held s) /\ st_outbox s' = st_outbox s ++ [t].
Proof.
  intros Hstep. destruct Hstep; simpl; auto.
  right. exists t. split; auto. eapply in_held_worker; eauto.
Qed.

(** A dispatcher is there from the step before, or has just been started by
    the scheduler for the row it stands on. *)
Lemma step_disp_jobs s s' id :
  step s s' -> In id (map d_job (st_disp s')) ->
  In id (map d_job (st_disp s))
  \/ exists r rest, st_sched s = SRows (r :: rest) /\ id = jr_id r.
Proof.
  intros Hstep Hin.
  destruct Hstep;
    cbn [st_disp with_db with_clock with_sched with_disp with_queue
         with_workers with_outbox restart] in *;
    try (left; exact Hin);
    try (rewrite map_job_replace in Hin; rewrite H; left; exact Hin).
  - destruct Hin.
  - rewrite map_app, in_app_iff in Hin. destruct Hin as [Hin|Hin]; auto.
    unfold claim_row in H0.
    destruct scan_ok, exec_ok; inversion H0; subst; simpl in Hin;
      try contradiction.
    destruct Hin as [<-|[]]. right. eauto.
  - left. rewrite H. rewrite map_app, in_app_iff in *. simpl. tauto.
  - left. rewrite H. rewrite map_app, in_app_iff in *. simpl. tauto.
Qed.

Lemma orphan_send_step s s' id x :
  step s s' -> ~ In id (held s) -> find_send id (st_db s) = Some x ->
  find_send id (st_db s') = Some x /\ ~ In id (held s') /\
  exists extra, st_outbox s' = st_outbox s ++ extra /\
                ~ In id (map SendID extra).
Proof.
  intros Hstep Hh Hf. split; [|split].
  - destruct (step_send_change _ _ Hstep)
      as [E|[[d [r [rest [tasks [i [_ [_ E]]]]]]]|[t [f [Hw E]]]]].
    + unfold find_send in *. rewrite E. exact Hf.
    + destruct (find_send_insert _ _ _ _ _ _ _ _ id E) as [_ [_ ->]].
      rewrite Hf. reflexivity.
    + assert (Ht : In (SendID t) (held s)).
      { destruct Hw as [[[ws1 [ws2 Hw]] _]|[[ws1 [ws2 Hw]] _]];
          eapply in_held_worker; eauto; reflexivity. }
      rewrite E, find_send_update.
      * destruct (id =? SendID t) eqn:K; auto.
        apply String.eqb_eq in K. subst id. contradiction.
      * destruct Hw as [[_ ->]|[_ [[msg ->]| ->]]]; reflexivity.
  - intros Hin. destruct (step_held _ _ _ Hstep Hin) as [H|H]; auto.
    congruence.
  - destruct (step_outbox _ _ Hstep) as [E|[t [Ht E]]].
    + exists []. rewrite app_nil_r. auto.
    + exists [t]. split; auto. simpl. intros [K|[]]. subst id. contradiction.
Qed.

Lemma orphan_job_step s s' id j :
  jobs_inv s -> step s s' ->
  find_job id (st_db s) = Some j -> job_status j = "running" ->
  ~ In id (map d_job (st_disp s)) ->
  find_job id (st_db s') = Some j /\ ~ In id (map d_job (st_disp s')).
Proof.
  intros J Hstep Hf Hst Hd.
  assert (Hrow : forall r rest, st_sched s = SRows (r :: rest) ->
                   id <> jr_id r).
  { intros r rest Hs ->.
    destruct (ji_rows s J _ r Hs (or_introl eq_refl)) as [j0 [Hf0 [Hp _]]].
    rewrite Hf in Hf0. inversion Hf0; subst j0. rewrite Hst in Hp.
    discriminate. }
  split.
  - destruct (step_job_effect _ _ Hstep)
      as [E|[[i [sj [bd [ts E]]]]|[[r [rest [Hs E]]]|[i [st [Hin [Ht E]]]]]]].
    + rewrite (find_job_jobs _ _ _ E). exact Hf.
    + destruct (find_job_insert _ _ _ _ _ _ _ _ id E) as [_ ->].
      rewrite Hf. reflexivity.
    + rewrite E, find_job_update_status.
      destruct (id =? jr_id r) eqn:K; auto.
      apply String.eqb_eq in K. exfalso. exact (Hrow r rest Hs K).
    + rewrite E, find_job_update_done.
      destruct (id =? i) eqn:K; auto.
      apply String.eqb_eq in K. subst i. contradiction.
  - intros Hin.
    destruct (step_disp_jobs _ _ _ Hstep Hin) as [H|[r [rest [Hs K]]]]; auto.
    exact (Hrow r rest Hs K).
Qed.

Lemma steps_orphan_send s s' id x :
  steps s s' -> ~ In id (held s) -> find_send id (st_db s) = Some x ->
  find_send id (st_db s') = Some x /\ ~ In id (held s') /\
  exists extra, st_outbox s' = st_outbox s ++ extra /\
                ~ In id (map SendID extra).
Proof.
  intros Hs Hh Hf. induction Hs as [s|s s' s'' Hs IH Hstep].
  - repeat split; auto. exists []. rewrite app_nil_r. auto.
  - destruct (IH Hh Hf) as [Hf' [Hh' [e1 [E1 N1]]]].
    destruct (orphan_send_step _ _ _ _ Hstep Hh' Hf')
      as [Hf'' [Hh'' [e2 [E2 N2]]]].
    repeat split; auto. exists (e1 ++ e2). split.
    + rewrite E2, E1, app_assoc. reflexivity.
    + rewrite map_app, in_app_iff. tauto.
Qed.

Lemma steps_orphan_job s s' id j :
  reachable s -> steps s s' ->
  find_job id (st_db s) = Some j -> job_status j = "running" ->
  ~ In id (map d_job (st_disp s)) ->
  find_job id (st_db s') = Some j /\ ~ In id (map d_job (st_disp s')).
Proof.
  intros Hr Hs Hf Hst Hd. induction Hs as [s|s s' s'' Hs IH Hstep]; auto.
  destruct (IH Hr Hf Hd) as [Hf' Hd'].
  apply (orphan_job_step s'); auto.
  apply reachable_jobs_inv. eapply steps_reachable; eauto.
Qed.

(** X16: a row that no goroutine works on stays as it is.  From a reachable
    state on, a Send whose task is with no dispatcher, not on the channel
    and with no worker keeps its row, whatever its status (a Send left
    queued or sending is never settled), and [doSend] is not called for it
    again; a running job that has no dispatcher keeps its row and stays
    running. *)
Theorem orphans_stay (s s' : State) (Hr : reachable s) (Hs : steps s s') :
  (forall x, In x (sends (st_db s)) -> ~ In (send_id x) (held s) ->
     find_send (send_id x) (st_db s') = Some x /\
     exists extra, st_outbox s' = st_outbox s ++ extra /\
                   ~ In (send_id x) (map SendID extra)) /\
  (forall j, In j (jobs (st_db s)) -> job_status j = "running" ->
     ~ In (job_id j) (map d_job (st_disp s)) ->
     find_job (job_id j) (st_db s') = Some j).
Proof.
  split.
  - intros x Hin Hh.
    assert (Hf : find_send (send_id x) (st_db s) = Some x).
    { apply find_send_row; auto.
      apply (si_nodup s (reachable_sends_inv s Hr)). }
    destruct (steps_orphan_send _ _ _ _ Hs Hh Hf) as [Hf' [_ He]]. auto.
  - intros j Hin Hst Hd.
    assert (Hf : find_job (job_id j) (st_db s) = Some j).
    { unfold find_job. apply (find_in_nodup job_id); auto.
      apply (ji_nodup s (reachable_jobs_inv s Hr)). }
    apply (steps_orphan_job s s' _ j Hr Hs Hf Hst Hd).
Qed.

(** X17: nothing is taken up again when the process is stopped and started
    on the database it left.  Whatever the new process does, every Send row
    of before stays as it was, so a Send that was queued or sending is
    never delivered, and every job that was running stays running and is
    never completed. *)
Theorem restart_drops_work (s s' : State)
    (Hr : reachable s) (Hs : steps (restart s) s') :
  (forall x, In x (sends (st_db s)) ->
     find_send (send_id x) (st_db s') = Some x /\
     exists extra, st_outbox s' = st_outbox s ++ extra /\
                   ~ In (send_id x) (map SendID extra)) /\
  (forall j, In j (jobs (st_db s)) -> job_status j = "running" ->
     find_job (job_id j) (st_db s') = Some j).
Proof.
  assert (Hr' : reachable (restart s))
    by (eapply reach_step; [exact Hr | apply step_restart]).
  split.
  - intros x Hin.
    assert (Hf : find_send (send_id x) (st_db (restart s)) = Some x).
    { apply find_send_row; auto.
      apply (si_nodup s (reachable_sends_inv s Hr)). }
    assert (Hh : ~ In (send_id x) (held (restart s))) by (intros []).
    destruct (steps_orphan_send _ _ _ _ Hs Hh Hf) as [Hf' [_ He]]. auto.
  - intros j Hin Hst.
    assert (Hf : find_job (job_id j) (st_db (restart s)) = Some j).
    { unfold find_job. apply (find_in_nodup job_id); auto.
      apply (ji_nodup s (reachable_jobs_inv s Hr)). }
    assert (Hd : ~ In (job_id j) (map d_job (st_disp (restart s))))
      by (intros []).
    apply (steps_orphan_job (restart s) s' _ j Hr' Hs Hf Hst Hd).
Qed.

(** * What one task does to its Send *)

Lemma task_effect_keeps e t x :
  send_id (task_effect e t x) = send_id x /\
  send_job_id (task_effect e t x) = send_job_id x.
Proof.
  unfold task_effect.
  destruct (we_mark_ok e), (we_record_ok e), (doSend (we_smtp e) t);
    auto.
Qed.

Lemma task_effect_status e t x :
  we_mark_ok e = true -> we_record_ok e = true ->
  send_status (task_effect e t x)
  = match doSend (we_smtp e) t with None => "sent" | Some _ => "failed" end.
Proof.
  unfold task_effect. intros -> ->. destruct (doSend (we_smtp e) t); auto.
Qed.


(** * From the request to the list and to the scheduler *)

Lemma schedule_created (decodeJobReq : string -> option JobReq)
    (TrimSpace : string -> string) (parseRFC3339 : string -> option Z)
    e request db db' id ts :
  scheduleJobHandler decodeJobReq TrimSpace parseRFC3339 e request db
  = (db', JsonCreated id ts) ->
  exists req,
    decodeJobReq request = Some req /\
    id = rq_uuid e /\
    has_key job_id id (jobs db) = false /\
    db' = with_jobs db (jobs db ++ [job_for TrimSpace e req ts]).
Proof.
  unfold scheduleJobHandler. intros H.
  destruct (decodeJobReq request) as [req|]; [|discriminate].
  destruct (_ || _); [discriminate|].
  destruct (parse_scheduled_at _ _ _) as [ts'|]; [|discriminate].
  destruct (rq_exec_ok e); [|discriminate].
  unfold insert_job in H.
  destruct (has_key job_id (rq_uuid e) (jobs db)) eqn:K; [discriminate|].
  inversion H; subst. exists req. auto.
Qed.

Lemma listed_in scan_ok db r :
  In r (listed (listJobsHandler true scan_ok db)) <->
  exists j, In j (jobs db) /\ scan_ok (job_id j) = true /\ r = resp_of_job j.
Proof.
  assert (Hl : listed (listJobsHandler true scan_ok db)
               = map resp_of_job
                   (filter (fun j => scan_ok (job_id j)) (select_jobs db))).
  { unfold listJobsHandler. rewrite scan_jobs_spec.
    destruct (map resp_of_job _); reflexivity. }
  rewrite Hl, in_map_iff. split.
  - intros [j [<- Hj]]. apply filter_In in Hj. destruct Hj as [Hj Hs].
    exists j. repeat split; auto.
    apply (Permutation_in _ (order_by_created_desc_perm (jobs db))).
    exact Hj.
  - intros [j [Hj [Hs ->]]]. exists j. split; auto.
    apply filter_In. split; auto.
    apply (Permutation_in _
             (Permutation_sym (order_by_created_desc_perm (jobs db)))).
    exact Hj.
Qed.

(** X19: the answer of [scheduleJobHandler] names the job it has stored.
    After a request answered with an id and a due time, [listJobsHandler],
    when its query returns no error and the row of the job scans, lists the
    job under that id as pending, with that due time, the trimmed subject
    and body and no completion time, beside all it listed before; when its
    query returns an error it answers 500 and lists nothing, and when the
    row does not scan the job is left out of the list.  A tick of the
    scheduler that comes before the due time, or whose query, scan of the
    row or UPDATE returns an error, leaves the job pending and starts
    nothing for it; a tick at or after the due time whose query, scan and
    UPDATE go through makes it running and starts [dispatchJob] with the id
    and the trimmed subject and body. *)
Theorem scheduled_job_listed_and_claimed
    (decodeJobReq : string -> option JobReq)
    (TrimSpace : string -> string) (parseRFC3339 : string -> option Z)
    (e : ReqEnv) (request : string) (db db' : Store) (id : string) (ts : Z)
    (scan_ok : string -> bool) (tick : TickEnv)
    (Hnd : NoDup (map job_id (jobs db)))
    (Hs : scheduleJobHandler decodeJobReq TrimSpace parseRFC3339 e request db
          = (db', JsonCreated id ts)) :
  exists req,
    decodeJobReq request = Some req /\
    (scan_ok id = true ->
     In {| resp_id := id; resp_subject := TrimSpace (req_subject req);
           resp_body := TrimSpace (req_body req); resp_scheduled_at := ts;
           resp_status := "pending"; resp_created_at := rq_created e;
           resp_completed_at := None |}
        (listed (listJobsHandler true scan_ok db'))) /\
    (forall r, In r (listed (listJobsHandler true scan_ok db)) ->
               In r (listed (listJobsHandler true scan_ok db'))) /\
    listJobsHandler false scan_ok db' = ListError "db error" 500 /\
    (scan_ok id = false ->
     forall r, In r (listed (listJobsHandler true scan_ok db')) ->
               resp_id r <> id) /\
    ((te_now tick < ts)%Z ->
     status_of_job id (fst (enqueueDueJobs tick db')) = Some "pending" /\
     ~ In id (map jr_id (snd (enqueueDueJobs tick db')))) /\
    (tick_misses id ts tick = true ->
     status_of_job id (fst (enqueueDueJobs tick db')) = Some "pending" /\
     ~ In id (map jr_id (snd (enqueueDueJobs tick db')))) /\
    (tick_misses id ts tick = false ->
     status_of_job id (fst (enqueueDueJobs tick db')) = Some "running" /\
     In {| jr_id := id; jr_subject := TrimSpace (req_subject req);
           jr_body := TrimSpace (req_body req) |}
        (snd (enqueueDueJobs tick db'))).
Proof.
  destruct (schedule_created _ _ _ _ _ _ _ _ _ Hs) as [req [Hd [Hid [Hk Hdb]]]].
  exists req. split; [exact Hd|].
  set (j := job_for TrimSpace e req ts).
  assert (Hjid : job_id j = id) by (rewrite Hid; reflexivity).
  assert (Hjobs : jobs db' = jobs db ++ [j]) by (rewrite Hdb; reflexivity).
  assert (Hnd' : NoDup (map job_id (jobs db'))).
  { rewrite Hjobs, map_app. change (map job_id [j]) with [job_id j].
    apply NoDup_snoc; auto.
    rewrite Hjid. apply (has_key_false job_id). exact Hk. }
  assert (Hf : find_job id db' = Some j).
  { rewrite <- Hjid. unfold find_job.
    apply (find_in_nodup job_id); auto.
    rewrite Hjobs. apply in_or_app. right. left. reflexivity. }
  split; [|split; [|split; [|split; [|split; [|split]]]]].
  - intros Hscan. apply listed_in. exists j. repeat split.
    + rewrite Hjobs. apply in_or_app. right. left. reflexivity.
    + rewrite Hjid. exact Hscan.
    + unfold resp_of_job, j, job_for. simpl. rewrite Hid. reflexivity.
  - intros r Hr. apply listed_in in Hr. destruct Hr as [j0 [Hj0 [Hs0 ->]]].
    apply listed_in. exists j0. repeat split; auto.
    rewrite Hjobs. apply in_or_app. auto.
  - reflexivity.
  - intros Hscan r Hr Heq. apply listed_in in Hr.
    destruct Hr as [j0 [_ [Hs0 ->]]]. simpl in Heq. rewrite Heq in Hs0.
    congruence.
  - intros Hearly.
    destruct (enqueue_find tick db' id j Hnd' Hf)
      as [[Hf' Hn]|[_ [_ [Hdue _]]]].
    + split; auto. unfold status_of_job. rewrite Hf'. reflexivity.
    + simpl in Hdue. lia.
  - intros Hmiss.
    destruct (enqueue_find tick db' id j Hnd' Hf)
      as [[Hf' Hn]|[_ [_ [_ Hhit]]]].
    + split; auto. unfold status_of_job. rewrite Hf'. reflexivity.
    + simpl in Hhit. congruence.
  - intros Hhit.
    destruct (enqueue_claims tick db' id j Hnd' Hf eq_refl Hhit) as [Hf' Hin].
    split.
    + unfold status_of_job. rewrite Hf'. reflexivity.
    + unfold row_of_job, j, job_for in Hin. simpl in Hin.
      rewrite Hid. exact Hin.
Qed.

Lemma scheduled_job_listed_and_claimed_witness :
  In {| resp_id := "j1"; resp_subject := "Hello"; resp_body := "World";
        resp_scheduled_at := 100; resp_status := "pending";
        resp_created_at := 100; resp_completed_at := None |}
     (listed (listJobsHandler true (fun _ => true)
                (with_jobs demo_db1 [demo_job]))) /\
  status_of_job "j1"
    (fst (enqueueDueJobs (demo_tick 100 false)
            (with_jobs demo_db1 [demo_job]))) = Some "pending" /\
  status_of_job "j1"
    (fst (enqueueDueJobs (demo_tick 100 true)
            (with_jobs demo_db1 [demo_job]))) = Some "running".
Proof.
  assert (Hnd : NoDup (map job_id (jobs demo_db1))) by (simpl; constructor).
  assert (Hs : scheduleJobHandler demo_decode demo_trim demo_rfc3339
                 (demo_req_env true) demo_request_now demo_db1
               = (with_jobs demo_db1 [demo_job], JsonCreated "j1" 100))
    by (vm_compute; reflexivity).
  destruct (scheduled_job_listed_and_claimed demo_decode demo_trim
              demo_rfc3339 (demo_req_env true) demo_request_now demo_db1
              (with_jobs demo_db1 [demo_job]) "j1" 100 (fun _ => true)
              (demo_tick 100 false) Hnd Hs)
    as [req [Hd [H1 [_ [_ [_ [_ [H2 _]]]]]]]].
  destruct (scheduled_job_listed_and_claimed demo_decode demo_trim
              demo_rfc3339 (demo_req_env true) demo_request_now demo_db1
              (with_jobs demo_db1 [demo_job]) "j1" 100 (fun _ => true)
              (demo_tick 100 true) Hnd Hs)
    as [req' [_ [_ [_ [_ [_ [_ [_ H3]]]]]]]].
  vm_compute in Hd. inversion Hd; subst req.
  split; [exact (H1 eq_refl)|].
  split; [exact (proj1 (H2 eq_refl))|].
  exact (proj1 (H3 eq_refl)).
Defined.

(** * One Send per job and address *)

Lemma map_update_where {A B : Type} (key : A -> string) (g : A -> B)
    (id : string) (f : A -> A) (rows : list A) :
  (forall x, g (f x) = g x) ->
  map g (update_where key id f rows) = map g rows.
Proof.
  intros Hg. unfold update_where. rewrite map_map. apply map_ext.
  intros x. destruct (key x =? id); auto.
Qed.

Lemma emails_of_sends id db db' :
  sends db' = sends db -> emails_of id db' = emails_of id db.
Proof.
  intros H. unfold emails_of. rewrite (sends_of_sends _ _ _ H). reflexivity.
Qed.

Lemma emails_of_update id i f db :
  (forall x, send_job_id (f x) = send_job_id x) ->
  (forall x, send_email (f x) = send_email x) ->
  emails_of id (with_sends db (update_where send_id i f (sends db)))
  = emails_of id db.
Proof.
  intros Hj He. unfold emails_of. rewrite sends_of_update by exact Hj.
  apply map_update_where. exact He.
Qed.

Lemma emails_of_insert id' id jobID sid email st now db db' :
  insert_send id jobID sid email st now db = Some db' ->
  emails_of id' db'
  = emails_of id' db ++ (if jobID =? id' then [email] else []).
Proof.
  intros H. unfold emails_of.
  rewrite (sends_of_insert id' _ _ _ _ _ _ _ _ H), map_app.
  destruct (jobID =? id'); reflexivity.
Qed.

Lemma emails_of_exec_job ok st now jobID id db :
  emails_of id (exec ok (update_job_done st now jobID) db) = emails_of id db.
Proof. destruct ok; reflexivity. Qed.

Lemma emails_of_mark ok t id db :
  emails_of id (worker_mark ok t db) = emails_of id db.
Proof.
  unfold worker_mark. destruct ok; simpl; auto.
  apply emails_of_update; reflexivity.
Qed.

Lemma emails_of_record err now ok t id db :
  emails_of id (worker_record err now ok t db) = emails_of id db.
Proof.
  unfold worker_record. destruct err, ok; simpl; auto;
    apply emails_of_update; reflexivity.
Qed.

Lemma emails_of_claim scan_ok exec_ok r db db' spawned id :
  claim_row scan_ok exec_ok r db = (db', spawned) ->
  emails_of id db' = emails_of id db.
Proof.
  unfold claim_row. destruct scan_ok, exec_ok; intros H; inversion H;
    reflexivity.
Qed.

Lemma rows_uniq_same db db' d :
  emails_of (d_job d) db' = emails_of (d_job d) db ->
  rows_uniq db d -> rows_uniq db' d.
Proof.
  unfold rows_uniq. intros ->. auto.
Qed.

Lemma uq_disp_replace s ds1 d ds2 p db' :
  (forall d0, In d0 (st_disp s) -> rows_uniq (st_db s) d0) ->
  st_disp s = ds1 ++ d :: ds2 ->
  (forall d', In d' (ds1 ++ ds2) ->
     emails_of (d_job d') db' = emails_of (d_job d') (st_db s)) ->
  rows_uniq db' (set_phase d p) ->
  forall d', In d' (ds1 ++ set_phase d p :: ds2) -> rows_uniq db' d'.
Proof.
  intros U Hd Hsame Hp d' Hin.
  apply in_middle in Hin. destruct Hin as [->|Hin].
  - exact Hp.
  - apply (rows_uniq_same (st_db s)); auto. apply U. rewrite Hd.
    apply in_middle. auto.
Qed.

(** A step adds no subscriber, or is the INSERT of one address. *)
Lemma step_subscribers_effect s s' :
  step s s' ->
  subscribers (st_db s') = subscribers (st_db s)
  \/ exists id email,
       insert_subscriber id email (st_clock s) (st_db s) = Some (st_db s').
Proof.
  intros Hstep. destruct Hstep; simpl; auto.
  - left. unfold insert_job in H.
    destruct (has_key _ _ _); [discriminate|]. inversion H. reflexivity.
  - right. eauto.
  - left. unfold claim_row in H0.
    destruct scan_ok, exec_ok; inversion H0; reflexivity.
  - left. unfold fail_job. destruct ok; reflexivity.
  - left. apply (proj2 (expand_row_jobs _ _ _ _ _ _ _ _ _ H1)).
  - left. unfold finish_job. destruct ok; reflexivity.
  - left. unfold worker_mark. destruct ok; reflexivity.
  - left. unfold worker_record. destruct (doSend smtp t), ok; reflexivity.
Qed.

Lemma nodup_middle_snoc {A : Type} (l r : list A) (x : A) :
  NoDup (l ++ x :: r) -> NoDup ((l ++ [x]) ++ r).
Proof. rewrite <- app_assoc. simpl. auto. Qed.

Lemma step_uniq s s' :
  jobs_inv s -> expand_inv s -> uniq_inv s -> step s s' -> uniq_inv s'.
Proof.
  intros J E [U1 U2 U3 U4] Hstep.
  assert (Hsub : NoDup (map sub_id (subscribers (st_db s'))) /\
                 NoDup (map sub_email (subscribers (st_db s')))).
  { destruct (step_subscribers_effect _ _ Hstep) as [->|[id [email Hins]]];
      auto.
    apply insert_subscriber_some in Hins. destruct Hins as [K1 [K2 ->]].
    simpl. rewrite !map_app. simpl.
    split; apply NoDup_snoc; auto.
    - apply (has_key_false sub_id). exact K1.
    - apply (has_key_false sub_email). exact K2. }
  destruct Hsub as [U1' U2'].
  constructor; auto.
  - (* the Sends of a job *)
    intros id.
    destruct (step_send_change _ _ Hstep)
      as [Es|[[d [r [rest [tasks [i [Hd [Hp Es]]]]]]]|[t [f [Hw Es]]]]].
    + rewrite (emails_of_sends _ _ _ Es). apply U3.
    + rewrite (emails_of_insert id _ _ _ _ _ _ _ _ Es).
      destruct (d_job d =? id) eqn:K.
      * apply String.eqb_eq in K. subst id.
        pose proof (U4 d Hd) as Hu. unfold rows_uniq in Hu.
        rewrite Hp in Hu. simpl in Hu.
        apply nodup_middle_snoc in Hu.
        apply NoDup_app_remove_r in Hu. exact Hu.
      * rewrite app_nil_r. apply U3.
    + rewrite Es. rewrite emails_of_update; [apply U3| |];
        destruct Hw as [[_ ->]|[_ [[msg ->]| ->]]]; reflexivity.
  - (* the dispatchers *)
    clear U1' U2'.
    destruct Hstep; cbn [st_db st_disp with_db with_clock with_sched with_disp
                         with_queue with_workers with_outbox restart];
      try exact U4;
      try (apply (uq_disp_replace s); auto; exact I).
    + (* restart *) intros d [].
    + (* schedule *)
      intros d Hin. apply (rows_uniq_same (st_db s)); auto.
      apply emails_of_sends.
      unfold insert_job in H. destruct (has_key _ _ _); [discriminate|].
      inversion H. reflexivity.
    + (* upload *)
      intros d Hin. apply (rows_uniq_same (st_db s)); auto.
      apply emails_of_sends.
      unfold insert_subscriber in H. destruct (_ || _); [discriminate|].
      inversion H. reflexivity.
    + (* tick_row *)
      intros d Hin. apply in_app_or in Hin. destruct Hin as [Hin|Hin].
      * apply (rows_uniq_same (st_db s)); auto.
        apply (emails_of_claim _ _ _ _ _ _ _ H0).
      * destruct spawned as [r'|]; [|destruct Hin].
        destruct Hin as [<-|[]]. exact I.
    + (* enum *)
      apply (uq_disp_replace s); auto.
      assert (Hd : send_ids_of (d_job d) (st_db s) = []).
      { pose proof (ei_disp s E d) as E2. rewrite H0 in E2. apply E2.
        rewrite H. apply in_middle. auto. }
      unfold enumerate. destruct ok; [|exact I].
      unfold rows_uniq, emails_of. cbn [d_phase d_job set_phase].
      unfold send_ids_of in Hd. apply map_eq_nil in Hd. rewrite Hd. simpl.
      unfold select_subscribers. rewrite map_map. exact U2.
    + (* enum_failed *)
      intros d' Hin. apply (rows_uniq_same (st_db s)).
      * unfold fail_job. apply emails_of_exec_job.
      * apply U4. rewrite H. apply in_middle. auto.
    + (* row *)
      pose proof (ji_disp_nodup s J) as Hnd. rewrite H in Hnd.
      assert (Hd : NoDup (emails_of (d_job d) (st_db s)
                          ++ sr_email r :: map sr_email rest)).
      { pose proof (U4 d) as Hu. unfold rows_uniq in Hu. rewrite H0 in Hu.
        apply Hu. rewrite H. apply in_middle. auto. }
      destruct (expand_row_cases _ _ _ _ _ _ _ _ _ H1) as [[-> ->]|[Hins ->]].
      * apply (uq_disp_replace s); auto.
        unfold rows_uniq. cbn [d_phase d_job set_phase].
        apply NoDup_remove_1 in Hd. exact Hd.
      * simpl in Hins. apply (uq_disp_replace s); auto.
        -- intros d' Hin.
           rewrite (emails_of_insert (d_job d') _ _ _ _ _ _ _ _ Hins).
           pose proof (nodup_middle_job _ _ _ _ Hnd Hin) as Hne.
           destruct (d_job d =? d_job d') eqn:K.
           ++ apply String.eqb_eq in K. congruence.
           ++ apply app_nil_r.
        -- unfold rows_uniq. cbn [d_phase d_job set_phase].
           rewrite (emails_of_insert (d_job d) _ _ _ _ _ _ _ _ Hins).
           rewrite String.eqb_refl. apply nodup_middle_snoc. exact Hd.
    + (* poll *)
      apply (uq_disp_replace s); auto.
      unfold rows_uniq. cbn [d_phase set_phase].
      destruct (poll_remaining ok (d_job d) (st_db s) =? 0)%nat; exact I.
    + (* update *)
      intros d' Hin. apply (rows_uniq_same (st_db s)).
      * unfold finish_job. apply emails_of_exec_job.
      * apply U4. rewrite H. apply in_middle. auto.
    + (* mark *)
      intros d Hin. apply (rows_uniq_same (st_db s)); auto.
      apply emails_of_mark.
    + (* send *)
      intros d Hin. apply (rows_uniq_same (st_db s)); auto.
      apply emails_of_record.
Qed.

Lemma uniq_init t0 : uniq_inv (init t0).
Proof.
  constructor; simpl; try constructor.
  intros d [].
Qed.

Lemma reachable_uniq s : reachable s -> uniq_inv s.
Proof.
  induction 1 as [t0|s s' Hr IH Hstep].
  - apply uniq_init.
  - eapply step_uniq; eauto.
    + apply reachable_jobs_inv. exact Hr.
    + apply reachable_expand_inv. exact Hr.
Qed.

(** X20: no address gets the mail of a job twice.  In every reachable
    state the subscribers have distinct ids and distinct addresses, and two
    Send rows of the same job with the same address are one row, whichever
    INSERTs and UPDATEs have failed on the way. *)
Theorem one_send_per_address (s : State) (x y : Send)
    (Hr : reachable s)
    (Hx : In x (sends (st_db s))) (Hy : In y (sends (st_db s)))
    (Hjob : send_job_id x = send_job_id y)
    (Hemail : send_email x = send_email y) :
  x = y /\
  NoDup (map sub_id (subscribers (st_db s))) /\
  NoDup (map sub_email (subscribers (st_db s))).
Proof.
  pose proof (reachable_uniq s Hr) as [U1 U2 U3 _].
  split; auto.
  specialize (U3 (send_job_id x)). unfold emails_of in U3.
  assert (Hx' : In x (sends_of (send_job_id x) (st_db s)))
    by (apply in_sends_of; exact Hx).
  assert (Hy' : In y (sends_of (send_job_id x) (st_db s)))
    by (rewrite Hjob; apply in_sends_of; exact Hy).
  revert U3 Hx' Hy'. generalize (sends_of (send_job_id x) (st_db s)).
  induction l as [|z l IH]; simpl; intros Hnd Hx' Hy'; [contradiction|].
  inversion Hnd as [|? ? Hz Hnd']; subst.
  destruct Hx' as [->|Hx'], Hy' as [->|Hy']; auto.
  - exfalso. apply Hz. rewrite Hemail. apply in_map. exact Hy'.
  - exfalso. apply Hz. rewrite <- Hemail. apply in_map. exact Hx'.
Qed.

Lemma one_send_per_address_witness :
  NoDup (map sub_email (subscribers (st_db demo_s13))).
Proof.
  exact (proj2 (proj2 (one_send_per_address demo_s13 _ _ demo_s13_reachable
                         (or_introl eq_refl) (or_introl eq_refl)
                         eq_refl eq_refl))).
Defined.

(** * [doSend] over SMTP *)






(** * Further runs of the example *)

Lemma demo_steps_16_19 : steps demo_s16 demo_s19.
Proof.
  apply steps_next with demo_s18.
  - apply steps_next with demo_s17.
    + apply steps_next with demo_s16; [apply steps_refl|].
      exact (step_time demo_s16 5 ltac:(lia)).
    + exact (step_tick_query demo_s17 true eq_refl).
  - exact (step_tick_end demo_s18 eq_refl).
Qed.

Lemma demo_o13_reachable : reachable demo_o13.
Proof.
  apply reach_step with demo_s12.
  - apply demo_reachable. simpl. tauto.
  - exact (step_send demo_s12 [] [WIdle; WIdle; WIdle] demo_task demo_mock
             false eq_refl).
Qed.

Lemma demo_steps_o13_o16 : steps demo_o13 demo_o16.
Proof.
  apply steps_next with demo_o15.
  - apply steps_next with demo_o14.
    + apply steps_next with demo_o13; [apply steps_refl|].
      exact (step_poll demo_o13 [] (demo_d DPoll) [] true eq_refl eq_refl).
    + exact (step_time demo_o14 1 ltac:(lia)).
  - exact (step_poll demo_o15 [] (demo_d DPoll) [] true eq_refl eq_refl).
Qed.

Lemma demo_s9_reachable : reachable demo_s9.
Proof. apply demo_reachable. simpl. tauto. Qed.

Lemma demo_steps_r0_r5 : steps demo_r0 demo_r5.
Proof.
  apply steps_next with demo_r4.
  - apply steps_next with demo_r3.
    + apply steps_next with demo_r2.
      * apply steps_next with demo_r1.
        -- apply steps_next with demo_r0; [apply steps_refl|].
           exact (step_schedule demo_r0 "j2" "Again" "Text" 100 demo_rdb1
                    eq_refl).
        -- exact (step_time demo_r1 5 ltac:(lia)).
      * exact (step_tick_query demo_r2 true eq_refl).
    + exact (step_tick_row demo_r3 (row_of_job demo_job2) [] true true
               demo_rdb2 (Some (row_of_job demo_job2)) eq_refl eq_refl).
  - exact (step_tick_end demo_r4 eq_refl).
Qed.

Lemma job_rows_well_formed_witness :
  find_job "j1" (st_db demo_s19)
  = Some (set_job_done "completed" 100 (set_job_status "running" demo_job)).
Proof.
  refine (proj2 (proj2
            (job_rows_well_formed demo_s16 demo_s19
               (set_job_done "completed" 100 (set_job_status "running" demo_job))
               _ _ demo_steps_16_19)) _).
  - apply demo_reachable. simpl. tauto.
  - simpl. left. reflexivity.
  - unfold terminal_job_status. simpl. auto.
Defined.

Lemma orphans_stay_witness :
  exists x,
    find_send "s1" (st_db demo_o16) = Some x /\
    send_status x = "sending" /\
    exists extra, st_outbox demo_o16 = st_outbox demo_o13 ++ extra /\
                  ~ In "s1" (map SendID extra).
Proof.
  pose proof (proj1 (orphans_stay demo_o13 demo_o16 demo_o13_reachable
                       demo_steps_o13_o16) _ (or_introl eq_refl)) as H.
  eexists. split; [|split].
  - apply H. simpl. tauto.
  - reflexivity.
  - apply H. simpl. tauto.
Defined.

Lemma restart_drops_work_witness :
  (exists x, find_send "s1" (st_db demo_r5) = Some x /\
             send_status x = "queued") /\
  (exists j, find_job "j1" (st_db demo_r5) = Some j /\
             job_status j = "running") /\
  status_of_job "j2" (st_db demo_r5) = Some "running".
Proof.
  pose proof (restart_drops_work demo_s9 demo_r5 demo_s9_reachable
                demo_steps_r0_r5) as [H1 H2].
  split; [|split].
  - eexists. split.
    + exact (proj1 (H1 _ (or_introl eq_refl))).
    + reflexivity.
  - eexists. split.
    + exact (H2 _ (or_introl eq_refl) eq_refl).
    + reflexivity.
  - reflexivity.
Defined.

(** * The outcome of a job *)

Lemma reachable_counted_reachable s : reachable_counted s -> reachable s.
Proof.
  induction 1 as [t0|s s' _ IH Hstep _].
  - apply reach_init.
  - eapply reach_step; eauto.
Qed.

Lemma update_where_none {A : Type} (key : A -> string) id (f : A -> A) l :
  (forall x, In x l -> key x <> id) -> update_where key id f l = l.
Proof.
  intros H. unfold update_where. induction l as [|x l IH]; [reflexivity|].
  simpl. rewrite IH by (intros y Hy; apply H; right; exact Hy).
  replace (key x =? id) with false; [reflexivity|].
  symmetry. apply String.eqb_neq. apply H. left. reflexivity.
Qed.

Lemma nodup_job_same (l : list Dispatcher) d d' :
  NoDup (map d_job l) -> In d l -> In d' l -> d_job d = d_job d' -> d = d'.
Proof.
  induction l as [|x l IH]; simpl; intros Hnd Hd Hd' Hj; [contradiction|].
  inversion Hnd as [|? ? Hx Hnd']; subst.
  destruct Hd as [->|Hd], Hd' as [->|Hd']; auto.
  - exfalso. apply Hx. rewrite Hj. apply in_map. exact Hd'.
  - exfalso. apply Hx. rewrite <- Hj. apply in_map. exact Hd.
Qed.

(** The Sends of a job none of which is waiting are written by no step, as
    long as no dispatcher is making Sends for the job. *)
Lemma settled_step s s' id :
  sends_inv s -> step s s' -> settled id (st_db s) ->
  (forall d r rest tasks, In d (st_disp s) ->
     d_phase d = DRows (r :: rest) tasks -> d_job d <> id) ->
  sends_of id (st_db s') = sends_of id (st_db s).
Proof.
  intros S Hstep Hset Hno.
  destruct (step_send_change _ _ Hstep)
    as [E|[[d [r [rest [tasks [i [Hd [Hp E]]]]]]]|[t [f [Hw E]]]]].
  - apply sends_of_sends. exact E.
  - rewrite (sends_of_insert id _ _ _ _ _ _ _ _ E).
    destruct (d_job d =? id) eqn:K; [|apply app_nil_r].
    apply String.eqb_eq in K. exfalso. exact (Hno d r rest tasks Hd Hp K).
  - rewrite E. rewrite sends_of_update
      by (destruct Hw as [[_ ->]|[_ [[msg ->]| ->]]]; reflexivity).
    apply update_where_none. intros x Hx Hid.
    assert (Hheld : In (SendID t) (held s)).
    { destruct Hw as [[[ws1 [ws2 Hw]] _]|[[ws1 [ws2 Hw]] _]];
        eapply in_held_worker; eauto; reflexivity. }
    pose proof (si_held s S _ Hheld) as Hst.
    assert (Hin : In x (sends (st_db s))).
    { unfold sends_of in Hx. apply filter_In in Hx. tauto. }
    pose proof (find_send_row _ x (si_nodup s S) Hin) as Hf.
    rewrite Hid in Hf. unfold status_of_send in Hst. rewrite Hf in Hst.
    simpl in Hst. destruct (Hset x Hx) as [H|H]; rewrite H in Hst;
      destruct Hst; discriminate.
Qed.

(** A job becomes completed or completed_with_errors only by the last
    UPDATE of its dispatcher. *)
Lemma step_to_final s s' id st :
  step s s' ->
  status_of_job id (st_db s') = Some st ->
  st = "completed" \/ st = "completed_with_errors" ->
  status_of_job id (st_db s) = Some st
  \/ exists d n, In d (st_disp s) /\ d_job d = id /\
                 d_phase d = DUpdate n /\ st = final_status n /\
                 sends (st_db s') = sends (st_db s).
Proof.
  intros Hstep Hf Hst. destruct Hstep; simpl in Hf; auto.
  - destruct (status_of_job_insert _ _ _ _ _ _ _ _ id H) as [_ E].
    rewrite E in Hf. destruct (status_of_job id (st_db s)); auto.
    destruct (id0 =? id); [|discriminate].
    inversion Hf; subst st. destruct Hst; discriminate.
  - left. rewrite <- Hf. symmetry. apply status_of_job_jobs.
    unfold insert_subscriber in H. destruct (_ || _); [discriminate|].
    inversion H. reflexivity.
  - unfold claim_row in H0.
    destruct scan_ok, exec_ok; inversion H0; subst; auto.
    rewrite status_of_job_update_status in Hf.
    destruct (id =? jr_id r); auto.
    destruct (status_of_job id (st_db s)); [|discriminate].
    simpl in Hf. inversion Hf; subst st. destruct Hst; discriminate.
  - unfold fail_job in Hf.
    destruct (exec_cases ok (update_job_done "failed" (st_clock s) (d_job d))
                (st_db s)) as [E|E]; rewrite E in Hf; auto.
    rewrite status_of_job_update_done in Hf.
    destruct (id =? d_job d); auto.
    destruct (status_of_job id (st_db s)); [|discriminate].
    simpl in Hf. inversion Hf; subst st. destruct Hst; discriminate.
  - left. rewrite <- Hf. symmetry. apply status_of_job_jobs.
    apply (proj1 (expand_row_jobs _ _ _ _ _ _ _ _ _ H1)).
  - unfold finish_job in Hf.
    destruct (exec_cases ok (update_job_done (final_status failed)
                (st_clock s) (d_job d)) (st_db s)) as [E|E];
      rewrite E in Hf; auto.
    rewrite status_of_job_update_done in Hf.
    destruct (id =? d_job d) eqn:K; auto.
    apply String.eqb_eq in K.
    destruct (status_of_job id (st_db s)); [|discriminate].
    simpl in Hf. inversion Hf. right. exists d, failed.
    split; [rewrite H; apply in_middle; auto|].
    repeat split; auto. unfold finish_job. rewrite E. reflexivity.
  - left. rewrite <- Hf. symmetry. apply status_of_job_jobs.
    apply worker_mark_jobs.
  - left. rewrite <- Hf. symmetry. apply status_of_job_jobs.
    apply worker_record_jobs.
Qed.

Lemma unfinished_zero_settled s id :
  send_rows_inv s -> count_unfinished id (st_db s) = 0 -> settled id (st_db s).
Proof.
  intros R Hz x Hx. unfold count_unfinished in Hz.
  rewrite filter_length_zero in Hz. specialize (Hz x Hx).
  unfold is_unfinished in Hz. apply orb_false_iff in Hz.
  rewrite !String.eqb_neq in Hz.
  assert (Hin : In x (sends (st_db s))).
  { unfold sends_of in Hx. apply filter_In in Hx. tauto. }
  pose proof (sr_wf s R x Hin) as W. unfold send_wf in W.
  destruct W as [[W _]|[[W _]|[[W _]|[W _]]]]; tauto.
Qed.

Lemma counted_ok_same db db' d :
  sends_of (d_job d) db' = sends_of (d_job d) db ->
  counted_ok db d -> counted_ok db' d.
Proof.
  unfold counted_ok, settled, count_status. intros ->. auto.
Qed.

Lemma oc_disp_replace s ds1 d ds2 p db' :
  (forall d0, In d0 (st_disp s) -> counted_ok db' d0) ->
  st_disp s = ds1 ++ d :: ds2 ->
  counted_ok db' (set_phase d p) ->
  forall d', In d' (ds1 ++ set_phase d p :: ds2) -> counted_ok db' d'.
Proof.
  intros U Hd Hp d' Hin.
  apply in_middle in Hin. destruct Hin as [->|Hin]; [exact Hp|].
  apply U. rewrite Hd. apply in_middle. auto.
Qed.

Lemma step_outcome s s' :
  jobs_inv s -> sends_inv s -> send_rows_inv s -> outcome_inv s ->
  step s s' -> counts_right s s' -> outcome_inv s'.
Proof.
  intros J S R [O1 O2 O3] Hstep [C1 C2].
  assert (Hsame : forall d, In d (st_disp s) ->
            match d_phase d with DCount | DUpdate _ => True | _ => False end ->
            sends_of (d_job d) (st_db s') = sends_of (d_job d) (st_db s)).
  { intros d Hd Hp. apply settled_step; auto.
    - pose proof (O1 d Hd) as H. unfold counted_ok in H.
      destruct (d_phase d); try contradiction; tauto.
    - intros d' r rest tasks Hd' Hp' Hj.
      assert (d' = d)
        by (apply (nodup_job_same (st_disp s)); auto; apply (ji_disp_nodup s J)).
      subst d'. rewrite Hp' in Hp. exact Hp. }
  assert (O1' : forall d, In d (st_disp s) -> counted_ok (st_db s') d).
  { intros d Hd. pose proof (O1 d Hd) as H.
    destruct (d_phase d) eqn:Hp;
      try (unfold counted_ok; rewrite Hp; exact I).
    - apply (counted_ok_same (st_db s)); auto.
      apply Hsame; auto. rewrite Hp. exact I.
    - apply (counted_ok_same (st_db s)); auto.
      apply Hsame; auto. rewrite Hp. exact I. }
  assert (Hfin : forall id st,
            status_of_job id (st_db s) = Some st ->
            st = "completed" \/ st = "completed_with_errors" ->
            settled id (st_db s) ->
            sends_of id (st_db s') = sends_of id (st_db s)).
  { intros id st Hst Hf Hset. apply settled_step; auto.
    intros d r rest tasks Hd _ Hj. subst id.
    rewrite (ji_disp s J (d_job d)) in Hst by (apply in_map; exact Hd).
    inversion Hst; subst st. destruct Hf; discriminate. }
  constructor.
  - (* the dispatchers *)
    clear O2 O3 Hfin Hsame.
    destruct Hstep; cbn [st_db st_disp with_db with_clock with_sched with_disp
                         with_queue with_workers with_outbox restart] in *;
      try exact O1';
      try (apply (oc_disp_replace s); auto; exact I).
    + intros d [].
    + intros d Hin. apply in_app_or in Hin. destruct Hin as [Hin|Hin]; auto.
      destruct spawned as [r'|]; [|destruct Hin].
      destruct Hin as [<-|[]]. exact I.
    + apply (oc_disp_replace s); auto.
      unfold counted_ok. cbn [d_phase set_phase].
      destruct (enumerate ok (st_db s)); exact I.
    + intros d' Hin. apply O1'. rewrite H. apply in_middle. auto.
    + apply (oc_disp_replace s); auto.
      assert (Hd : In d (st_disp s)) by (rewrite H; apply in_middle; auto).
      unfold counted_ok. cbn [d_phase d_job set_phase].
      destruct (poll_remaining ok (d_job d) (st_db s) =? 0)%nat eqn:Z;
        [|exact I].
      apply unfinished_zero_settled; auto.
      destruct ok.
      * apply Nat.eqb_eq in Z. exact Z.
      * apply (C1 d Hd H0). apply in_middle. auto.
    + apply (oc_disp_replace s); auto.
      assert (Hd : In d (st_disp s)) by (rewrite H; apply in_middle; auto).
      pose proof (O1 d Hd) as Hc. unfold counted_ok in Hc. rewrite H0 in Hc.
      unfold counted_ok. cbn [d_phase d_job set_phase]. split; auto.
      apply (C2 d _ Hd H0). apply in_middle. auto.
    + intros d' Hin. apply O1'. rewrite H. apply in_middle. auto.
  - (* completed *)
    intros id Hst x Hx.
    destruct (step_to_final _ _ _ _ Hstep Hst (or_introl eq_refl))
      as [Hold|[d [n [Hd [Hj [Hp [Hn Es]]]]]]].
    + assert (Hset : settled id (st_db s)).
      { intros y Hy. left. apply (O2 id Hold y Hy). }
      rewrite (Hfin id _ Hold (or_introl eq_refl) Hset) in Hx.
      apply (O2 id Hold x Hx).
    + rewrite (sends_of_sends _ _ _ Es) in Hx. subst id.
      pose proof (O1 d Hd) as Hc. unfold counted_ok in Hc. rewrite Hp in Hc.
      destruct Hc as [Hset Hcnt].
      unfold final_status in Hn.
      destruct (0 <? n)%nat eqn:Z; [discriminate|].
      apply Nat.ltb_ge in Z.
      assert (Hz : count_status (d_job d) "failed" (st_db s) = 0) by lia.
      unfold count_status in Hz.
      rewrite filter_length_zero in Hz. specialize (Hz x Hx).
      simpl in Hz. apply String.eqb_neq in Hz.
      destruct (Hset x Hx); tauto.
  - (* completed_with_errors *)
    intros id Hst.
    destruct (step_to_final _ _ _ _ Hstep Hst (or_intror eq_refl))
      as [Hold|[d [n [Hd [Hj [Hp [Hn Es]]]]]]].
    + destruct (O3 id Hold) as [Hset Hex].
      unfold settled.
      rewrite (Hfin id _ Hold (or_intror eq_refl) Hset). auto.
    + unfold settled. rewrite (sends_of_sends _ _ _ Es). subst id.
      pose proof (O1 d Hd) as Hc. unfold counted_ok in Hc. rewrite Hp in Hc.
      destruct Hc as [Hset Hcnt]. split; [exact Hset|].
      unfold final_status in Hn.
      destruct (0 <? n)%nat eqn:Z; [|discriminate].
      apply Nat.ltb_lt in Z. unfold count_status in Hcnt.
      destruct (filter (fun x => send_status x =? "failed")
                  (sends_of (d_job d) (st_db s))) as [|x l] eqn:F;
        [simpl in Hcnt; lia|].
      assert (Hx : In x (filter (fun x => send_status x =? "failed")
                           (sends_of (d_job d) (st_db s))))
        by (rewrite F; left; reflexivity).
      apply filter_In in Hx. destruct Hx as [Hx Hfail].
      apply String.eqb_eq in Hfail. eauto.
Qed.

Lemma outcome_init t0 : outcome_inv (init t0).
Proof.
  constructor; simpl.
  - intros d [].
  - intros id H. discriminate.
  - intros id H. discriminate.
Qed.

Lemma reachable_outcome s : reachable_counted s -> outcome_inv s.
Proof.
  induction 1 as [t0|s s' Hc IH Hstep Hr].
  - apply outcome_init.
  - pose proof (reachable_counted_reachable s Hc) as Hreach.
    apply (step_outcome s); auto.
    + apply reachable_jobs_inv. exact Hreach.
    + apply reachable_sends_inv. exact Hreach.
    + apply reachable_send_rows. exact Hreach.
Qed.

(** A step in which the two queries return no error is one in which they
    give the right number. *)
Lemma counts_right_poll s ds1 d ds2 :
  reachable s ->
  st_disp s = ds1 ++ d :: ds2 -> d_phase d = DPoll ->
  counts_right s
    (with_disp s
       (ds1 ++ set_phase d
                 (if (poll_remaining true (d_job d) (st_db s) =? 0)%nat
                  then DCount else DPoll) :: ds2)).
Proof.
  intros Hr Hd Hp.
  pose proof (ji_disp_nodup s (reachable_jobs_inv s Hr)) as Hnd.
  split.
  - intros d0 Hin0 Hp0 Hin'. cbn [st_disp with_disp] in Hin'.
    apply in_middle in Hin'. destruct Hin' as [E|Hin'].
    + assert (d0 = d).
      { apply (nodup_job_same (st_disp s)); auto.
        - rewrite Hd. apply in_middle. auto.
        - change (d_job d0) with (d_job (set_phase d0 DCount)).
          rewrite E. reflexivity. }
      subst d0.
      destruct (poll_remaining true (d_job d) (st_db s) =? 0)%nat eqn:Z.
      * apply Nat.eqb_eq in Z. exact Z.
      * inversion E.
    + exfalso.
      assert (Hin'' : In (set_phase d0 DCount) (st_disp s))
        by (rewrite Hd; apply in_middle; auto).
      assert (E : set_phase d0 DCount = d0)
        by (apply (nodup_job_same (st_disp s)); auto).
      rewrite <- E in Hp0. discriminate.
  - intros d0 n Hin0 Hp0 Hin'. cbn [st_disp with_disp] in Hin'.
    exfalso. apply in_middle in Hin'. destruct Hin' as [E|Hin'].
    + assert (d0 = d).
      { apply (nodup_job_same (st_disp s)); auto.
        - rewrite Hd. apply in_middle. auto.
        - change (d_job d0) with (d_job (set_phase d0 (DUpdate n))).
          rewrite E. reflexivity. }
      subst d0. congruence.
    + assert (Hin'' : In (set_phase d0 (DUpdate n)) (st_disp s))
        by (rewrite Hd; apply in_middle; auto).
      assert (E : set_phase d0 (DUpdate n) = d0)
        by (apply (nodup_job_same (st_disp s)); auto).
      rewrite <- E in Hp0. discriminate.
Qed.

Lemma counts_right_count s ds1 d ds2 :
  reachable s ->
  st_disp s = ds1 ++ d :: ds2 -> d_phase d = DCount ->
  counts_right s
    (with_disp s
       (ds1 ++ set_phase d (DUpdate (count_failed true (d_job d) (st_db s)))
            :: ds2)).
Proof.
  intros Hr Hd Hp.
  pose proof (ji_disp_nodup s (reachable_jobs_inv s Hr)) as Hnd.
  split.
  - intros d0 Hin0 Hp0 Hin'. cbn [st_disp with_disp] in Hin'.
    exfalso. apply in_middle in Hin'. destruct Hin' as [E|Hin'].
    + inversion E.
    + assert (Hin'' : In (set_phase d0 DCount) (st_disp s))
        by (rewrite Hd; apply in_middle; auto).
      assert (E : set_phase d0 DCount = d0)
        by (apply (nodup_job_same (st_disp s)); auto).
      rewrite <- E in Hp0. discriminate.
  - intros d0 n Hin0 Hp0 Hin'. cbn [st_disp with_disp] in Hin'.
    apply in_middle in Hin'. destruct Hin' as [E|Hin'].
    + assert (d0 = d).
      { apply (nodup_job_same (st_disp s)); auto.
        - rewrite Hd. apply in_middle. auto.
        - change (d_job d0) with (d_job (set_phase d0 (DUpdate n))).
          rewrite E. reflexivity. }
      subst d0. inversion E. reflexivity.
    + exfalso.
      assert (Hin'' : In (set_phase d0 (DUpdate n)) (st_disp s))
        by (rewrite Hd; apply in_middle; auto).
      assert (E : set_phase d0 (DUpdate n) = d0)
        by (apply (nodup_job_same (st_disp s)); auto).
      rewrite <- E in Hp0. discriminate.
Qed.

(** X18: the outcome of a job tells what became of its Sends.  In every
    run in which the two counting queries of [dispatchJob] give the right
    number (as they do when they return no error), whatever the
    interleaving of the dispatchers and the workers and whatever else
    fails: a job is completed only when every Send of it is sent, and
    completed_with_errors only when every Send of it is sent or failed and
    at least one is failed; and [doSend] has been called for each of these
    Sends.  A poll and a count whose query returns no error keep a run
    among these. *)
Theorem job_outcome (s : State) (id : string) (Hr : reachable_counted s) :
  (status_of_job id (st_db s) = Some "completed" ->
   forall x, In x (sends_of id (st_db s)) ->
     send_status x = "sent" /\
     In (send_id x) (map SendID (st_outbox s))) /\
  (status_of_job id (st_db s) = Some "completed_with_errors" ->
   (forall x, In x (sends_of id (st_db s)) ->
      (send_status x = "sent" \/ send_status x = "failed") /\
      In (send_id x) (map SendID (st_outbox s))) /\
   exists x, In x (sends_of id (st_db s)) /\ send_status x = "failed") /\
  (forall ds1 d ds2,
     st_disp s = ds1 ++ d :: ds2 -> d_phase d = DPoll ->
     reachable_counted
       (with_disp s
          (ds1 ++ set_phase d
                    (if (poll_remaining true (d_job d) (st_db s) =? 0)%nat
                     then DCount else DPoll) :: ds2))) /\
  (forall ds1 d ds2,
     st_disp s = ds1 ++ d :: ds2 -> d_phase d = DCount ->
     reachable_counted
       (with_disp s
          (ds1 ++ set_phase d
                    (DUpdate (count_failed true (d_job d) (st_db s)))
               :: ds2))).
Proof.
  pose proof (reachable_outcome s Hr) as [_ O2 O3].
  pose proof (reachable_counted_reachable s Hr) as Hreach.
  pose proof (reachable_delivery s Hreach) as [_ _ D3].
  pose proof (si_nodup s (reachable_sends_inv s Hreach)) as Hnd.
  assert (Hcall : forall x, In x (sends_of id (st_db s)) ->
            send_status x = "sent" \/ send_status x = "failed" ->
            In (send_id x) (map SendID (st_outbox s))).
  { intros x Hx Hst. apply (D3 (send_id x) (send_status x)); auto.
    unfold status_of_send. rewrite (find_send_row _ x Hnd); auto.
    unfold sends_of in Hx. apply filter_In in Hx. tauto. }
  split; [|split; [|split]].
  - intros Hst x Hx. pose proof (O2 id Hst x Hx) as H. auto.
  - intros Hst. destruct (O3 id Hst) as [Hset Hex]. split; auto.
  - intros ds1 d ds2 Hd Hp. apply (rc_step s); auto.
    + exact (step_poll s ds1 d ds2 true Hd Hp).
    + apply counts_right_poll; auto.
  - intros ds1 d ds2 Hd Hp. apply (rc_step s); auto.
    + exact (step_count s ds1 d ds2 true Hd Hp).
    + apply counts_right_count; auto.
Qed.

(** The run of the example is one in which the queries give the right
    number. *)
Ltac demo_counts :=
  split; intros;
  repeat match goal with
         | H : False |- _ => destruct H
         | H : _ \/ _ |- _ => destruct H
         | H : In _ _ |- _ => progress cbv in H
         end;
  subst;
  try match goal with H : d_phase _ = _ |- _ => discriminate H end;
  try congruence;
  try reflexivity;
  try match goal with H : _ = _ |- _ => inversion H; subst; reflexivity end.

Lemma demo_counted : reachable_counted demo_s16.
Proof.
  assert (H0 : reachable_counted demo_s0) by apply rc_init.
  assert (H1 : reachable_counted demo_s1).
  { apply (rc_step demo_s0); auto; [|demo_counts].
    exact (step_upload demo_s0 "u1" "a@example.com" demo_db1 eq_refl). }
  assert (H2 : reachable_counted demo_s2).
  { apply (rc_step demo_s1); auto; [|demo_counts].
    exact (step_schedule demo_s1 "j1" "Hello" "World" 100 demo_db2 eq_refl). }
  assert (H3 : reachable_counted demo_s3).
  { apply (rc_step demo_s2); auto; [|demo_counts].
    exact (step_tick_query demo_s2 true eq_refl). }
  assert (H4 : reachable_counted demo_s4).
  { apply (rc_step demo_s3); auto; [|demo_counts].
    exact (step_tick_row demo_s3 demo_row [] true true demo_db4
             (Some demo_row) eq_refl eq_refl). }
  assert (H5 : reachable_counted demo_s5).
  { apply (rc_step demo_s4); auto; [|demo_counts].
    exact (step_tick_end demo_s4 eq_refl). }
  assert (H6 : reachable_counted demo_s6).
  { apply (rc_step demo_s5); auto; [|demo_counts].
    exact (step_enum demo_s5 [] (demo_d DStart) [] true eq_refl eq_refl). }
  assert (H7 : reachable_counted demo_s7).
  { apply (rc_step demo_s6); auto; [|demo_counts].
    exact (step_row demo_s6 [] (demo_d (DRows [demo_sub] [])) [] demo_sub []
             [] true "s1" true demo_db7 [demo_task] eq_refl eq_refl eq_refl). }
  assert (H8 : reachable_counted demo_s8).
  { apply (rc_step demo_s7); auto; [|demo_counts].
    exact (step_rows_end demo_s7 [] (demo_d (DRows [] [demo_task])) []
             [demo_task] eq_refl eq_refl). }
  assert (H9 : reachable_counted demo_s9).
  { apply (rc_step demo_s8); auto; [|demo_counts].
    refine (step_submit demo_s8 [] (demo_d (DSubmit [demo_task])) []
              demo_task [] eq_refl eq_refl _).
    unfold taskQueueSize. simpl. lia. }
  assert (H10 : reachable_counted demo_s10).
  { apply (rc_step demo_s9); auto; [|demo_counts].
    exact (step_submit_end demo_s9 [] (demo_d (DSubmit [])) [] eq_refl
             eq_refl). }
  assert (H11 : reachable_counted demo_s11).
  { apply (rc_step demo_s10); auto; [|demo_counts].
    exact (step_recv demo_s10 [] [WIdle; WIdle; WIdle] demo_task [] eq_refl
             eq_refl). }
  assert (H12 : reachable_counted demo_s12).
  { apply (rc_step demo_s11); auto; [|demo_counts].
    exact (step_mark demo_s11 [] [WIdle; WIdle; WIdle] demo_task true
             eq_refl). }
  assert (H13 : reachable_counted demo_s13).
  { apply (rc_step demo_s12); auto; [|demo_counts].
    exact (step_send demo_s12 [] [WIdle; WIdle; WIdle] demo_task demo_mock
             true eq_refl). }
  assert (H14 : reachable_counted demo_s14).
  { apply (rc_step demo_s13); auto; [|demo_counts].
    exact (step_poll demo_s13 [] (demo_d DPoll) [] true eq_refl eq_refl). }
  assert (H15 : reachable_counted demo_s15).
  { apply (rc_step demo_s14); auto; [|demo_counts].
    exact (step_count demo_s14 [] (demo_d DCount) [] true eq_refl eq_refl). }
  apply (rc_step demo_s15); auto; [|demo_counts].
  exact (step_update demo_s15 [] (demo_d (DUpdate 0)) [] 0 true eq_refl
           eq_refl).
Qed.

Lemma job_outcome_witness :
  exists x,
    In x (sends_of "j1" (st_db demo_s16)) /\
    send_status x = "sent" /\
    In (send_id x) (map SendID (st_outbox demo_s16)).
Proof.
  refine (ex_intro _ _ (conj _
            (proj1 (job_outcome demo_s16 "j1" demo_counted) eq_refl _
               (or_introl eq_refl)))).
  simpl. auto.
Defined.

(** * C2 *)




(** * C3 *)

Lemma demo_g7_step : step demo_f6 demo_g7.
Proof.
  exact (step_enum_failed demo_f6 [] (demo_d DEnumFailed) [] false eq_refl
           eq_refl).
Qed.

(** C3, as stated, fails when the UPDATE of the error branch returns an
    error, which the code drops: after the failed subscriber query and the
    failed UPDATE the dispatcher has returned and the job is running, not
    failed. *)
Lemma enumeration_update_dropped :
  reachable demo_f6 /\ step demo_f6 demo_g7 /\
  st_disp demo_f6 = [demo_d DEnumFailed] /\
  st_disp demo_g7 = [] /\
  status_of_job "j1" (st_db demo_g7) = Some "running".
Proof.
  split; [exact demo_f6_reachable|]. split; [exact demo_g7_step|].
  repeat split.
Qed.

(** C3 (amended): when the subscriber query of a dispatcher returns an
    error the dispatcher enters its error branch with no Send of its job in
    the store; there it issues one UPDATE and returns.  When the UPDATE
    returns no error the job is failed with completed_at stamped, and stays
    so; the code drops the error of the UPDATE, and when it returns one the
    job is left running, with no dispatcher, and stays running in every
    later state.  In both cases the sends table is as it was, the job has
    no Send, and none is created for it in any later state. *)
Theorem enumeration_failure (s : State) (ds1 : list Dispatcher)
    (d : Dispatcher) (ds2 : list Dispatcher)
    (Hr : reachable s) (Hd : st_disp s = ds1 ++ d :: ds2) :
  (d_phase d = DStart ->
   step s (with_disp s (ds1 ++ set_phase d DEnumFailed :: ds2)) /\
   send_ids_of (d_job d) (st_db s) = []) /\
  (d_phase d = DEnumFailed ->
   forall ok : bool,
     step s (after_enum_failure s ds1 d ds2 ok) /\
     (exists j,
        find_job (d_job d) (st_db s) = Some j /\
        job_status j = "running" /\
        find_job (d_job d) (st_db (after_enum_failure s ds1 d ds2 ok))
        = Some (if ok then set_job_done "failed" (st_clock s) j else j)) /\
     ~ In (d_job d) (map d_job (st_disp (after_enum_failure s ds1 d ds2 ok))) /\
     sends (st_db (after_enum_failure s ds1 d ds2 ok)) = sends (st_db s) /\
     send_ids_of (d_job d) (st_db s) = [] /\
     forall s',
       steps (after_enum_failure s ds1 d ds2 ok) s' ->
       send_ids_of (d_job d) (st_db s') = [] /\
       status_of_job (d_job d) (st_db s')
       = Some (if ok then "failed" else "running")).
Proof.
  pose proof (reachable_jobs_inv _ Hr) as J.
  pose proof (reachable_expand_inv _ Hr) as E.
  assert (Hin : In d (st_disp s)) by (rewrite Hd; apply in_middle; auto).
  split.
  - intros Hp. split.
    + exact (step_enum s ds1 d ds2 false Hd Hp).
    + pose proof (ei_disp s E d Hin) as H. rewrite Hp in H. exact H.
  - intros Hp ok.
    assert (Hnone : send_ids_of (d_job d) (st_db s) = []).
    { pose proof (ei_disp s E d Hin) as H. rewrite Hp in H. exact H. }
    assert (Hstep : step s (after_enum_failure s ds1 d ds2 ok)).
    { exact (step_enum_failed s ds1 d ds2 ok Hd Hp). }
    assert (Hr1 : reachable (after_enum_failure s ds1 d ds2 ok))
      by (eapply reach_step; eauto).
    assert (Hrun : status_of_job (d_job d) (st_db s) = Some "running").
    { apply (ji_disp s J). apply in_map. exact Hin. }
    assert (Hgone : ~ In (d_job d) (map d_job (ds1 ++ ds2))).
    { pose proof (ji_disp_nodup s J) as Hnd. rewrite Hd, map_app in Hnd.
      simpl in Hnd. apply NoDup_remove_2 in Hnd. rewrite map_app. exact Hnd. }
    unfold status_of_job in Hrun.
    destruct (find_job (d_job d) (st_db s)) as [j0|] eqn:Hf; [|discriminate].
    simpl in Hrun. inversion Hrun as [Hst].
    assert (Hf1 : find_job (d_job d)
                    (st_db (after_enum_failure s ds1 d ds2 ok))
                  = Some (if ok then set_job_done "failed" (st_clock s) j0
                          else j0)).
    { unfold after_enum_failure, fail_job, exec. cbn [st_db with_disp with_db].
      destruct ok; [|exact Hf].
      rewrite find_job_update_done, String.eqb_refl, Hf. reflexivity. }
    split; [exact Hstep|]. split.
    { exists j0. auto. }
    split; [exact Hgone|].
    split; [unfold after_enum_failure, fail_job; destruct ok; reflexivity|].
    split; [exact Hnone|].
    intros s' Hs. split.
    + assert (Hexp : expanded (d_job d) (after_enum_failure s ds1 d ds2 ok)).
      { split.
        - exists (if ok then "failed" else "running"). split.
          + unfold status_of_job. rewrite Hf1.
            destruct ok; simpl; congruence.
          + destruct ok; discriminate.
        - intros d' Hin' Hj. exfalso. apply Hgone. rewrite <- Hj.
          apply in_map. exact Hin'. }
      destruct (steps_expanded _ _ (d_job d) Hr1 Hs Hexp) as [_ ->].
      unfold after_enum_failure, fail_job. cbn [st_db with_disp with_db].
      rewrite send_ids_of_exec_job. exact Hnone.
    + unfold status_of_job. destruct ok.
      * rewrite (terminal_job_steps _ s' _ _ Hr1 Hs Hf1); [reflexivity|].
        unfold terminal_job_status. simpl. auto.
      * destruct (steps_orphan_job _ s' _ _ Hr1 Hs Hf1 Hst Hgone) as [-> _].
        simpl. congruence.
Qed.

Lemma demo_steps_f7_f10 : steps demo_f7 demo_f10.
Proof.
  apply steps_next with demo_f9.
  - apply steps_next with demo_f8.
    + apply steps_next with demo_f7; [apply steps_refl|].
      exact (step_time demo_f7 5 ltac:(lia)).
    + exact (step_tick_query demo_f8 true eq_refl).
  - exact (step_tick_end demo_f9 eq_refl).
Qed.

Lemma enumeration_failure_witness :
  status_of_job "j1" (st_db demo_f10) = Some "failed" /\
  send_ids_of "j1" (st_db demo_f10) = [] /\
  sends (st_db demo_f7) = sends (st_db demo_f6).
Proof.
  pose proof (proj2 (enumeration_failure demo_f6 [] (demo_d DEnumFailed)
                       [] demo_f6_reachable eq_refl) eq_refl true) as H.
  pose proof (proj2 (proj2 (proj2 (proj2 (proj2 H)))) demo_f10
                demo_steps_f7_f10) as [H1 H2].
  split; [exact H2|]. split; [exact H1|].
  exact (proj1 (proj2 (proj2 (proj2 H)))).
Defined.

(** * C6 *)




(** * C8 *)

(** C8, as stated, fails when an UPDATE of the worker returns an error,
    since the code drops the error of each.  The Send is freshly created
    and the delivery succeeds.  When the first UPDATE returns an error the
    Send ends sent with attempts 0, not 1; when the second returns an error
    the Send has been delivered and stays sending. *)
Lemma worker_update_errors_dropped :
  option_map (fun x => (send_status x, send_attempts x))
    (find_send "s1" demo_db7) = Some ("queued", 0%Z) /\
  option_map (fun x => (send_status x, send_attempts x))
    (find_send "s1"
       (fst (worker (fun _ => {| we_mark_ok := false; we_smtp := demo_mock;
                                 we_now := 100; we_record_ok := true |})
               [demo_task] (demo_db7, []))))
  = Some ("sent", 0%Z) /\
  worker (fun _ => {| we_mark_ok := true; we_smtp := demo_mock;
                      we_now := 100; we_record_ok := false |})
    [demo_task] (demo_db7, [])
  = (update_send_sending "s1" demo_db7, [demo_task]) /\
  status_of_send "s1" (update_send_sending "s1" demo_db7) = Some "sending".
Proof. repeat split. Qed.

(** C8 (amended): [worker] goes through the tasks it receives in order;
    for each it issues the UPDATE that makes the Send sending with attempts
    one higher, calls [doSend] once on that task, and issues the UPDATE
    that records the outcome, then goes on with the next task, also after
    a failed delivery.  With distinct Send ids, for a task whose Send
    exists: when both UPDATEs return no error the Send ends sent, with
    sent_at stamped, if [doSend] returned nil, and failed, with last_error
    the text of the error, if it returned one, attempts one higher (1 for a
    freshly created Send).  The code drops the errors of the UPDATEs: when
    the first returns an error the attempts stay as they were, when the
    second returns an error the Send stays sending, and when both do the
    row is left as it was. *)
Theorem worker_processes_task (env : string -> WorkEnv)
    (before : list SendTask) (t : SendTask) (after : list SendTask)
    (db : Store) (outbox : list SendTask) (x : Send)
    (Hnd : NoDup (map SendID (before ++ t :: after)))
    (Hf : find_send (SendID t) db = Some x) :
  snd (worker env (before ++ t :: after) (db, outbox))
  = outbox ++ before ++ t :: after /\
  exists y,
    find_send (SendID t) (fst (worker env (before ++ t :: after) (db, outbox)))
    = Some y /\
    (we_mark_ok (env (SendID t)) = true ->
     we_record_ok (env (SendID t)) = true ->
     send_attempts y = (send_attempts x + 1)%Z /\
     (send_attempts x = 0%Z -> send_attempts y = 1%Z) /\
     (doSend (we_smtp (env (SendID t))) t = None ->
      send_status y = "sent" /\
      send_sent_at y = Some (we_now (env (SendID t))) /\
      send_last_error y = send_last_error x) /\
     (forall msg, doSend (we_smtp (env (SendID t))) t = Some msg ->
      send_status y = "failed" /\ send_last_error y = Some msg /\
      send_sent_at y = send_sent_at x)) /\
    (we_mark_ok (env (SendID t)) = false ->
     we_record_ok (env (SendID t)) = true ->
     send_attempts y = send_attempts x /\
     (doSend (we_smtp (env (SendID t))) t = None -> send_status y = "sent") /\
     (forall msg, doSend (we_smtp (env (SendID t))) t = Some msg ->
      send_status y = "failed" /\ send_last_error y = Some msg)) /\
    (we_mark_ok (env (SendID t)) = true ->
     we_record_ok (env (SendID t)) = false ->
     y = set_send_sending x) /\
    (we_mark_ok (env (SendID t)) = false ->
     we_record_ok (env (SendID t)) = false ->
     y = x).
Proof.
  split.
  - apply worker_outbox.
  - rewrite worker_find by exact Hnd.
    assert (Hin : In t (before ++ t :: after)) by (apply in_middle; auto).
    rewrite (find_in_nodup SendID _ t Hnd Hin), Hf.
    eexists. split; [reflexivity|].
    unfold task_effect.
    split; [|split; [|split]]; intros Hm Hr; rewrite Hm, Hr.
    + destruct (doSend (we_smtp (env (SendID t))) t) as [msg|]; simpl.
      * split; [reflexivity|]. split; [intros ->; reflexivity|].
        split; [discriminate|]. intros msg' E. inversion E. auto.
      * split; [reflexivity|]. split; [intros ->; reflexivity|].
        split; [auto|]. intros msg' E. discriminate.
    + destruct (doSend (we_smtp (env (SendID t))) t) as [msg|]; simpl.
      * split; [reflexivity|]. split; [discriminate|].
        intros msg' E. inversion E. auto.
      * split; [reflexivity|]. split; [auto|]. intros msg' E. discriminate.
    + reflexivity.
    + reflexivity.
Qed.

Lemma worker_processes_task_witness :
  snd (worker demo_work_env ([demo_task] ++ demo_task2 :: [])
         (demo_db_two, []))
  = [] ++ [demo_task] ++ demo_task2 :: [] /\
  status_of_send "s1"
    (fst (worker demo_work_env [demo_task; demo_task2] (demo_db_two, [])))
  = Some "failed" /\
  exists y,
    find_send "s2"
      (fst (worker demo_work_env ([demo_task] ++ demo_task2 :: [])
              (demo_db_two, []))) = Some y /\
    send_status y = "sent" /\ send_attempts y = 1%Z.
Proof.
  assert (Hnd : NoDup (map SendID ([demo_task] ++ demo_task2 :: []))).
  { simpl. constructor; [simpl; intros [H|[]]; discriminate|].
    constructor; [simpl; tauto | constructor]. }
  destruct (worker_processes_task demo_work_env [demo_task] demo_task2 []
              demo_db_two [] _ Hnd eq_refl)
    as [H1 [y [Hy [Hok _]]]].
  split; [exact H1|]. split; [reflexivity|].
  exists y. split; [exact Hy|].
  destruct (Hok eq_refl eq_refl) as [_ [Ha [Hs _]]].
  split; [exact (proj1 (Hs eq_refl))|exact (Ha eq_refl)].
Defined.
